(** * A point-region quadtree over a pooled node store (QuadTree.cpp)

    The development embeds [CQuadTree] of [src/QuadTree/QuadTree.cpp]:
    coordinates and bounds with 64-bit unsigned arithmetic, the node
    store with its intrusive free list, and the operations [Insert],
    [Find], [Reset] and [SanityCheck].  Pointers are slots of the node
    store; an [assert] that fails stops the run and reports its source
    line; loops and recursions over the store take a bound on their
    number of steps.

    The definitions come first: the embedding of the code, then the
    inductive quadtree a store represents, the invariants, and the trees
    a client can reach.  The proofs follow: the geometry of [Split], the
    tree operations, the refinement of the tree by the store, the
    properties of the specification, and last further properties of the
    code: the allocator, the store, [Insert] with [Find], [SanityCheck],
    the member functions of [CNode], and the test driver [main]. *)

From Stdlib Require Import ZArith Lia Bool List.
From stdpp Require Import base tactics option list gmap sets.

Open Scope Z_scope.

(** ** Scalars: [typedef uint64_t TScalar] *)

Definition TScalar : Type := Z.
Definition TScalar_modulus : Z := 2 ^ 64.
Definition TScalar_min : TScalar := 0.
Definition TScalar_max : TScalar := 2 ^ 64 - 1.

(** Unsigned arithmetic of the scalar wraps around modulo [2^64]. *)
Definition wrap (z : Z) : TScalar := z mod TScalar_modulus.

Definition in_range (z : Z) : Prop := 0 <= z < TScalar_modulus.

(** ** [CCoordinate] *)

Record CCoordinate : Type := mkCoordinate { x : TScalar; y : TScalar }.

(** [CCoordinate()] *)
Definition CCoordinate_zero : CCoordinate := mkCoordinate 0 0.

Definition valid_coord (p : CCoordinate) : Prop :=
  in_range (x p) /\ in_range (y p).

(** [operator==] and [operator!=] *)
Definition coord_eq (a b : CCoordinate) : bool :=
  (x a =? x b) && (y a =? y b).
Definition coord_ne (a b : CCoordinate) : bool :=
  negb (x a =? x b) || negb (y a =? y b).

(** [operator/], [operator+], [operator-]; the only divisor in the code is
    [CCoordinate(2, 2)]. *)
Definition coord_div (a b : CCoordinate) : CCoordinate :=
  mkCoordinate (x a / x b) (y a / y b).
Definition coord_add (a b : CCoordinate) : CCoordinate :=
  mkCoordinate (wrap (x a + x b)) (wrap (y a + y b)).
Definition coord_sub (a b : CCoordinate) : CCoordinate :=
  mkCoordinate (wrap (x a - x b)) (wrap (y a - y b)).

(** ** [CBounds] *)

Record CBounds : Type := mkBounds { min : CCoordinate; max : CCoordinate }.

(** [CBounds()] of a value-initialised node *)
Definition CBounds_zero : CBounds := mkBounds CCoordinate_zero CCoordinate_zero.

Definition Contains (b : CBounds) (point : CCoordinate) : bool :=
  (x (min b) <=? x point) && (y (min b) <=? y point)
  && (x point <=? x (max b)) && (y point <=? y (max b)).

Definition bounds_eq (a b : CBounds) : bool :=
  coord_eq (min a) (min b) && coord_eq (max a) (max b).
Definition bounds_ne (a b : CBounds) : bool :=
  coord_ne (min a) (min b) || coord_ne (max a) (max b).

(** ** [CNode] *)

Inductive EType : Type := Leaf | Region | Undefined.

Definition EType_eqb (a b : EType) : bool :=
  match a, b with
  | Leaf, Leaf | Region, Region | Undefined, Undefined => true
  | _, _ => false
  end.

(** A [CNode*]: [None] is [nullptr], [Some a] the slot [a] of the store. *)
Definition ptr : Type := option nat.

Definition is_null (p : ptr) : bool :=
  match p with None => true | Some _ => false end.

Definition ptr_eqb (p q : ptr) : bool :=
  match p, q with
  | None, None => true
  | Some a, Some b => Nat.eqb a b
  | _, _ => false
  end.

Record CNode : Type := mkNode {
  m_regionBounds : CBounds;
  m_point : CCoordinate;
  m_pNorthWest : ptr;
  m_pNorthEast : ptr;
  m_pSouthEast : ptr;
  m_pSouthWest : ptr;
  m_nodeType : EType;
  pPoolNext : ptr
}.

(** [CNode()]: the default member initialisers. *)
Definition CNode_default : CNode :=
  mkNode CBounds_zero CCoordinate_zero None None None None Undefined None.

Definition set_regionBounds (n : CNode) (b : CBounds) : CNode :=
  mkNode b (m_point n) (m_pNorthWest n) (m_pNorthEast n) (m_pSouthEast n)
         (m_pSouthWest n) (m_nodeType n) (pPoolNext n).
Definition set_point (n : CNode) (p : CCoordinate) : CNode :=
  mkNode (m_regionBounds n) p (m_pNorthWest n) (m_pNorthEast n) (m_pSouthEast n)
         (m_pSouthWest n) (m_nodeType n) (pPoolNext n).
Definition set_nodeType (n : CNode) (t : EType) : CNode :=
  mkNode (m_regionBounds n) (m_point n) (m_pNorthWest n) (m_pNorthEast n)
         (m_pSouthEast n) (m_pSouthWest n) t (pPoolNext n).
Definition set_children (n : CNode) (nw ne se sw : ptr) : CNode :=
  mkNode (m_regionBounds n) (m_point n) nw ne se sw (m_nodeType n) (pPoolNext n).
Definition set_poolNext (n : CNode) (p : ptr) : CNode :=
  mkNode (m_regionBounds n) (m_point n) (m_pNorthWest n) (m_pNorthEast n)
         (m_pSouthEast n) (m_pSouthWest n) (m_nodeType n) p.

(** ** [CQuadTree]

    [m_pages] is the concatenation of the allocated pages: page number [k]
    occupies the slots [k * m_pageSize .. (k+1) * m_pageSize - 1], and
    [p + 1] inside a page is the next slot. *)

Record CQuadTree : Type := mkTree {
  m_pTreeRoot : ptr;
  m_pageSize : nat;
  m_pPoolHead : ptr;
  m_pPoolRoot : ptr;
  m_pages : list CNode
}.

(** The two result enumerations are scoped ([enum class]); each lives in a
    module of its name. *)
Module EInsertResult.
Inductive t : Type := OutOfRegionBounds | DuplicateEntry | Success.
End EInsertResult.

Module EFindResult.
Inductive t : Type := OutOfRegionBounds | NoEntry | Success.
End EFindResult.

(** ** Outcomes of a run

    [AssertFail l]: the [assert] on line [l] of QuadTree.cpp fired.
    [Fault]: a null or dangling pointer was dereferenced.
    [OutOfFuel]: a loop or a recursion needed more steps than the bound
    it was run with. *)

Inductive result (A : Type) : Type :=
  | Ok (a : A)
  | AssertFail (line : nat)
  | Fault
  | OutOfFuel.
Arguments Ok {A} a.
Arguments AssertFail {A} line.
Arguments Fault {A}.
Arguments OutOfFuel {A}.

Definition bind {A B : Type} (k : A -> result B) (m : result A) : result B :=
  match m with
  | Ok a => k a
  | AssertFail l => AssertFail l
  | Fault => Fault
  | OutOfFuel => OutOfFuel
  end.

#[global] Instance result_ret : MRet result := fun A a => Ok a.
#[global] Instance result_bind : MBind result := fun A B k m => bind k m.

Definition assert (b : bool) (line : nat) : result unit :=
  if b then Ok tt else AssertFail line.

(** [*p] on the store *)
Definition deref (mem : list CNode) (p : ptr) : result CNode :=
  match p with
  | None => Fault
  | Some a => match mem !! a with Some n => Ok n | None => Fault end
  end.

(** [*p = n] on the store *)
Definition assign (mem : list CNode) (p : ptr) (n : CNode) : result (list CNode) :=
  match p with
  | None => Fault
  | Some a => match mem !! a with
              | Some _ => Ok (<[a := n]> mem)
              | None => Fault
              end
  end.

Definition with_pages (q : CQuadTree) (mem : list CNode) : CQuadTree :=
  mkTree (m_pTreeRoot q) (m_pageSize q) (m_pPoolHead q) (m_pPoolRoot q) mem.
Definition with_poolHead (q : CQuadTree) (p : ptr) : CQuadTree :=
  mkTree (m_pTreeRoot q) (m_pageSize q) p (m_pPoolRoot q) (m_pages q).
Definition with_treeRoot (q : CQuadTree) (p : ptr) : CQuadTree :=
  mkTree p (m_pageSize q) (m_pPoolHead q) (m_pPoolRoot q) (m_pages q).

(** ** The allocator *)

(** The [for] loop of [AllocatePage]: [pPages[i].pPoolNext = &pPages[i] + 1]
    for [i = from, ..., from + count - 1]. *)
Fixpoint link_page (count : nat) (base from : nat) (mem : list CNode)
  : result (list CNode) :=
  match count with
  | O => Ok mem
  | S count' =>
      pCurrentPage ← deref mem (Some (base + from)%nat);
      mem1 ← assign mem (Some (base + from)%nat)
                (set_poolNext pCurrentPage (Some (base + from + 1)%nat));
      link_page count' base (S from) mem1
  end.

Definition AllocatePage (q : CQuadTree) : result CQuadTree :=
  _ ← assert (0 <? m_pageSize q)%nat 496;
  let pPages := length (m_pages q) in
  let mem0 := m_pages q ++ replicate (m_pageSize q) CNode_default in
  let lastIndex := (m_pageSize q - 1)%nat in
  mem1 ← link_page lastIndex pPages 0 mem0;
  last ← deref mem1 (Some (pPages + lastIndex)%nat);
  mem2 ← assign mem1 (Some (pPages + lastIndex)%nat) (set_poolNext last None);
  match m_pPoolRoot q with
  | None =>
      _ ← assert (is_null (m_pPoolHead q)) 510;
      Ok (mkTree (m_pTreeRoot q) (m_pageSize q) (Some pPages) (Some pPages) mem2)
  | Some _ =>
      match m_pPoolHead q with
      | Some h =>
          head ← deref mem2 (Some h);
          mem3 ← assign mem2 (Some h) (set_poolNext head (Some pPages));
          Ok (with_pages q mem3)
      | None =>
          _ ← assert false 519;
          Ok (with_pages q mem2)
      end
  end.

(** The condition [m_pPoolHead == nullptr || m_pPoolHead->pPoolNext == nullptr]. *)
Definition pool_exhausted (q : CQuadTree) : result bool :=
  match m_pPoolHead q with
  | None => Ok true
  | Some _ => head ← deref (m_pages q) (m_pPoolHead q);
              Ok (is_null (pPoolNext head))
  end.

Definition AllocateNode (q : CQuadTree) : result (ptr * CQuadTree) :=
  exhausted ← pool_exhausted q;
  q1 ← (if exhausted : bool then AllocatePage q else Ok q);
  _ ← assert (negb (is_null (m_pPoolHead q1))) 530;
  head ← deref (m_pages q1) (m_pPoolHead q1);
  _ ← assert (negb (is_null (pPoolNext head))) 531;
  let pAllocatedNode := m_pPoolHead q1 in
  let pPoolNext' := pPoolNext head in
  mem1 ← assign (m_pages q1) pAllocatedNode (set_poolNext CNode_default pPoolNext');
  Ok (pAllocatedNode, with_poolHead (with_pages q1 mem1) pPoolNext').

(** ** [CNode] member functions *)

Definition InitializeAsLeaf (n : CNode) (_point : CCoordinate) (_regionBounds : CBounds)
  : CNode :=
  set_nodeType (set_regionBounds (set_point n _point) _regionBounds) Leaf.

Definition InitializeAsRegion (n : CNode) (_regionBounds : CBounds) : result CNode :=
  let n1 := set_nodeType (set_regionBounds n _regionBounds) Region in
  _ ← assert (coord_eq (m_point n1) CCoordinate_zero) 190;
  Ok n1.

Definition AllocateLeafNode (q : CQuadTree) (point : CCoordinate) (regionBounds : CBounds)
  : result (ptr * CQuadTree) :=
  '(pLeafNode, q1) ← AllocateNode q;
  _ ← assert (negb (is_null pLeafNode)) 543;
  n ← deref (m_pages q1) pLeafNode;
  mem1 ← assign (m_pages q1) pLeafNode (InitializeAsLeaf n point regionBounds);
  Ok (pLeafNode, with_pages q1 mem1).

Definition AllocateRegionNode (q : CQuadTree) (regionBounds : CBounds)
  : result (ptr * CQuadTree) :=
  '(pLeafNode, q1) ← AllocateNode q;
  _ ← assert (negb (is_null pLeafNode)) 551;
  n ← deref (m_pages q1) pLeafNode;
  n1 ← InitializeAsRegion n regionBounds;
  mem1 ← assign (m_pages q1) pLeafNode n1;
  Ok (pLeafNode, with_pages q1 mem1).

(** The four child bounds computed by [Split] (lines 237-246), in the
    order north-west, north-east, south-east, south-west. *)
Definition SplitBounds (b : CBounds) : CBounds * CBounds * CBounds * CBounds :=
  let min := min b in
  let max := max b in
  let centerMin := coord_add min (coord_div (coord_sub max min) (mkCoordinate 2 2)) in
  let centerMax := coord_add centerMin (mkCoordinate 1 1) in
  let northWestBounds := mkBounds min centerMin in
  let northEastBounds :=
    mkBounds (mkCoordinate (x centerMax) (y min)) (mkCoordinate (x max) (y centerMin)) in
  let southEastBounds := mkBounds centerMax max in
  let southWestBounds :=
    mkBounds (mkCoordinate (x min) (y centerMax)) (mkCoordinate (x centerMin) (y max)) in
  (northWestBounds, northEastBounds, southEastBounds, southWestBounds).

(** [CNode::Find]: the descent loop runs at most [fuel] times. *)
Fixpoint CNode_Find (fuel : nat) (mem : list CNode) (pCurrentNode : ptr)
    (point : CCoordinate) : result (EFindResult.t * ptr) :=
  cur ← deref mem pCurrentNode;
  if negb (is_null (m_pNorthWest cur)) then
    match fuel with
    | O => OutOfFuel
    | S fuel' =>
        _ ← assert (negb (is_null (m_pNorthEast cur))
                     && negb (is_null (m_pSouthEast cur))
                     && negb (is_null (m_pSouthWest cur))) 198;
        nw ← deref mem (m_pNorthWest cur);
        if Contains (m_regionBounds nw) point then
          CNode_Find fuel' mem (m_pNorthWest cur) point
        else
          ne ← deref mem (m_pNorthEast cur);
          if Contains (m_regionBounds ne) point then
            CNode_Find fuel' mem (m_pNorthEast cur) point
          else
            se ← deref mem (m_pSouthEast cur);
            if Contains (m_regionBounds se) point then
              CNode_Find fuel' mem (m_pSouthEast cur) point
            else
              sw ← deref mem (m_pSouthWest cur);
              _ ← assert (Contains (m_regionBounds sw) point) 214;
              CNode_Find fuel' mem (m_pSouthWest cur) point
    end
  else if EType_eqb (m_nodeType cur) Region then
    Ok (EFindResult.NoEntry, pCurrentNode)
  else
    _ ← assert (EType_eqb (m_nodeType cur) Leaf) 225;
    Ok (if coord_eq (m_point cur) point
        then EFindResult.Success else EFindResult.NoEntry,
        pCurrentNode).

(** [CNode::Split] on the node [this]. *)
Definition CNode_Split (q : CQuadTree) (this : ptr) : result CQuadTree :=
  self ← deref (m_pages q) this;
  _ ← assert (is_null (m_pNorthWest self)) 231;
  _ ← assert (is_null (m_pNorthEast self)) 232;
  _ ← assert (is_null (m_pSouthEast self)) 233;
  _ ← assert (is_null (m_pSouthWest self)) 234;
  let '(northWestBounds, northEastBounds, southEastBounds, southWestBounds) :=
    SplitBounds (m_regionBounds self) in
  '(pNW, q1) ← AllocateRegionNode q northWestBounds;
  '(pNE, q2) ← AllocateRegionNode q1 northEastBounds;
  '(pSE, q3) ← AllocateRegionNode q2 southEastBounds;
  '(pSW, q4) ← AllocateRegionNode q3 southWestBounds;
  _ ← assert (negb (is_null pNW)) 253;
  _ ← assert (negb (is_null pNE)) 254;
  _ ← assert (negb (is_null pSE)) 255;
  _ ← assert (negb (is_null pSW)) 256;
  self' ← deref (m_pages q4) this;
  mem5 ← assign (m_pages q4) this
            (set_point (set_nodeType (set_children self' pNW pNE pSE pSW) Region)
                       CCoordinate_zero);
  Ok (with_pages q4 mem5).

(** [CNode::ContainingSubRegion] *)
Definition ContainingSubRegion (mem : list CNode) (this : ptr) (point : CCoordinate)
  : result ptr :=
  self ← deref mem this;
  if negb (Contains (m_regionBounds self) point) then Ok None
  else if negb (is_null (m_pNorthWest self)) then
    _ ← assert (EType_eqb (m_nodeType self) Region) 269;
    _ ← assert (negb (is_null (m_pNorthEast self))) 270;
    _ ← assert (negb (is_null (m_pSouthEast self))) 271;
    _ ← assert (negb (is_null (m_pSouthWest self))) 272;
    nw ← deref mem (m_pNorthWest self);
    if Contains (m_regionBounds nw) point then Ok (m_pNorthWest self)
    else
      ne ← deref mem (m_pNorthEast self);
      if Contains (m_regionBounds ne) point then Ok (m_pNorthEast self)
      else
        se ← deref mem (m_pSouthEast self);
        if Contains (m_regionBounds se) point then Ok (m_pSouthEast self)
        else
          sw ← deref mem (m_pSouthWest self);
          _ ← assert (Contains (m_regionBounds sw) point) 288;
          Ok (m_pSouthWest self)
  else Ok None.

(** ** [CQuadTree] member functions *)

(** The [do ... while] loop of [Insert] (lines 336-342); its body runs at
    most [fuel] times. *)
Fixpoint Insert_loop (fuel : nat) (q : CQuadTree) (pSubRegion : ptr)
    (existingPoint point : CCoordinate) : result (ptr * ptr * CQuadTree) :=
  match fuel with
  | O => OutOfFuel
  | S fuel' =>
      q1 ← CNode_Split q pSubRegion;
      pExistingSubRegion ← ContainingSubRegion (m_pages q1) pSubRegion existingPoint;
      pSubRegion' ← ContainingSubRegion (m_pages q1) pSubRegion point;
      _ ← assert (negb (is_null pExistingSubRegion) && negb (is_null pSubRegion')) 341;
      if ptr_eqb pExistingSubRegion pSubRegion'
      then Insert_loop fuel' q1 pSubRegion' existingPoint point
      else Ok (pExistingSubRegion, pSubRegion', q1)
  end.

Definition Insert (fuel : nat) (q : CQuadTree) (point : CCoordinate)
  : result (EInsertResult.t * CQuadTree) :=
  _ ← assert (negb (is_null (m_pTreeRoot q))) 310;
  root ← deref (m_pages q) (m_pTreeRoot q);
  _ ← assert (Contains (m_regionBounds root) point) 313;
  '(findResult, pFoundNode) ← CNode_Find fuel (m_pages q) (m_pTreeRoot q) point;
  _ ← assert (negb (is_null pFoundNode)) 315;
  found ← deref (m_pages q) pFoundNode;
  match findResult with
  | EFindResult.Success =>
      _ ← assert (coord_eq (m_point found) point) 318;
      Ok (EInsertResult.DuplicateEntry, q)
  | _ =>
      if EType_eqb (m_nodeType found) Leaf then
        _ ← assert (is_null (m_pNorthWest found)) 326;
        _ ← assert (is_null (m_pNorthEast found)) 327;
        _ ← assert (is_null (m_pSouthEast found)) 328;
        _ ← assert (is_null (m_pSouthWest found)) 329;
        let existingPoint := m_point found in
        '(pExistingSubRegion, pSubRegion, q1) ←
          Insert_loop fuel q pFoundNode existingPoint point;
        _ ← assert (negb (is_null pExistingSubRegion)) 345;
        e ← deref (m_pages q1) pExistingSubRegion;
        mem2 ← assign (m_pages q1) pExistingSubRegion
                 (set_point (set_nodeType e Leaf) existingPoint);
        _ ← assert (negb (is_null pSubRegion)) 349;
        s ← deref mem2 pSubRegion;
        mem3 ← assign mem2 pSubRegion (set_point (set_nodeType s Leaf) point);
        Ok (EInsertResult.Success, with_pages q1 mem3)
      else
        _ ← assert (EType_eqb (m_nodeType found) Region) 356;
        mem1 ← assign (m_pages q) pFoundNode
                 (set_point (set_nodeType found Leaf) point);
        Ok (EInsertResult.Success, with_pages q mem1)
  end.

Definition Find (fuel : nat) (q : CQuadTree) (point : CCoordinate)
  : result EFindResult.t :=
  _ ← assert (negb (is_null (m_pTreeRoot q))) 368;
  root ← deref (m_pages q) (m_pTreeRoot q);
  _ ← assert (Contains (m_regionBounds root) point) 370;
  '(findResult, _) ← CNode_Find fuel (m_pages q) (m_pTreeRoot q) point;
  Ok findResult.

(** The bounds [Reset] gives the root: the whole range of the scalar. *)
Definition full_bounds : CBounds :=
  mkBounds (mkCoordinate TScalar_min TScalar_min)
           (mkCoordinate TScalar_max TScalar_max).

Definition Reset (q : CQuadTree) : result CQuadTree :=
  let q1 := with_poolHead q (m_pPoolRoot q) in
  '(pRoot, q2) ← AllocateRegionNode q1 full_bounds;
  Ok (with_treeRoot q2 pRoot).

(** The constructor [CQuadTree(pageSize)]; [m_pages.reserve(8)] has no
    effect on the store. *)
Definition CQuadTree_new (pageSize : nat) : result CQuadTree :=
  _ ← assert (0 <? pageSize)%nat 303;
  Reset (mkTree None pageSize None None []).

(** The block of assertions on the four children of a populated region
    (lines 413-448). *)
Definition SanityCheck_children (b : CBounds) (nw ne se sw : CBounds) : result unit :=
  _ ← assert (Contains b (min nw)) 413;
  _ ← assert (Contains b (max nw)) 414;
  _ ← assert (Contains b (min ne)) 415;
  _ ← assert (Contains b (max ne)) 416;
  _ ← assert (Contains b (min se)) 417;
  _ ← assert (Contains b (max se)) 418;
  _ ← assert (Contains b (min sw)) 419;
  _ ← assert (Contains b (max sw)) 420;
  _ ← assert (x (min nw) <? x (min ne)) 422;
  _ ← assert (y (min nw) =? y (min ne)) 423;
  _ ← assert (x (max nw) <? x (min ne)) 424;
  _ ← assert (x (max nw) <? x (max ne)) 425;
  _ ← assert (y (min nw) <? y (max ne)) 426;
  _ ← assert (y (max nw) =? y (max ne)) 427;
  _ ← assert (x (min ne) =? x (min se)) 429;
  _ ← assert (y (min ne) <? y (min se)) 430;
  _ ← assert (x (max ne) >? x (min se)) 431;
  _ ← assert (x (max ne) =? x (max se)) 432;
  _ ← assert (y (min ne) <? y (max se)) 433;
  _ ← assert (y (max ne) <? y (max se)) 434;
  _ ← assert (x (min se) >? x (min sw)) 436;
  _ ← assert (y (min se) =? y (min sw)) 437;
  _ ← assert (x (max se) >? x (min sw)) 438;
  _ ← assert (x (max se) >? x (max sw)) 439;
  _ ← assert (y (min se) <? y (max sw)) 440;
  _ ← assert (y (max se) =? y (max sw)) 441;
  _ ← assert (x (min sw) =? x (min nw)) 443;
  _ ← assert (y (min sw) >? y (min nw)) 444;
  _ ← assert (x (max sw) >? x (min nw)) 445;
  _ ← assert (x (max sw) =? x (max nw)) 446;
  _ ← assert (y (min sw) >? y (max nw)) 447;
  _ ← assert (y (max sw) >? y (max nw)) 448;
  Ok tt.

(** [if (child->m_nodeType == Leaf) assert(bounds.Contains(child->m_point))] *)
Definition SanityCheck_leafChild (b : CBounds) (child : CNode) (line : nat)
  : result unit :=
  if EType_eqb (m_nodeType child) Leaf
  then assert (Contains b (m_point child)) line
  else Ok tt.

(** [SanityCheckChild_Recursive]: the recursion is at most [fuel] calls deep. *)
Fixpoint SanityCheckChild_Recursive (fuel : nat) (mem : list CNode) (pChild : ptr)
  : result unit :=
  match fuel with
  | O => OutOfFuel
  | S fuel' =>
      _ ← assert (negb (is_null pChild)) 389;
      c ← deref mem pChild;
      let b := m_regionBounds c in
      _ ← assert (bounds_ne b (mkBounds CCoordinate_zero CCoordinate_zero)) 390;
      _ ← assert (x (max b) >=? x (min b)) 391;
      _ ← assert (y (max b) >=? y (min b)) 392;
      _ ← assert (x (min b) <=? x (max b)) 393;
      _ ← assert (y (min b) <=? y (max b)) 394;
      match m_nodeType c with
      | Leaf =>
          _ ← assert (is_null (m_pNorthWest c)) 398;
          _ ← assert (is_null (m_pNorthEast c)) 399;
          _ ← assert (is_null (m_pSouthEast c)) 400;
          _ ← assert (is_null (m_pSouthWest c)) 401;
          _ ← assert (Contains b (m_point c)) 402;
          Ok tt
      | Region =>
          _ ← assert (coord_eq (m_point c) (mkCoordinate 0 0)) 405;
          if negb (is_null (m_pNorthWest c)) then
            _ ← assert (negb (is_null (m_pNorthWest c))) 408;
            _ ← assert (negb (is_null (m_pNorthEast c))) 409;
            _ ← assert (negb (is_null (m_pSouthEast c))) 410;
            _ ← assert (negb (is_null (m_pSouthWest c))) 411;
            nw ← deref mem (m_pNorthWest c);
            ne ← deref mem (m_pNorthEast c);
            se ← deref mem (m_pSouthEast c);
            sw ← deref mem (m_pSouthWest c);
            _ ← SanityCheck_children b (m_regionBounds nw) (m_regionBounds ne)
                  (m_regionBounds se) (m_regionBounds sw);
            _ ← SanityCheck_leafChild b nw 452;
            _ ← SanityCheckChild_Recursive fuel' mem (m_pNorthWest c);
            _ ← SanityCheck_leafChild b ne 459;
            _ ← SanityCheckChild_Recursive fuel' mem (m_pNorthEast c);
            _ ← SanityCheck_leafChild b se 466;
            _ ← SanityCheckChild_Recursive fuel' mem (m_pSouthEast c);
            _ ← SanityCheck_leafChild b sw 472;
            SanityCheckChild_Recursive fuel' mem (m_pSouthWest c)
          else
            _ ← assert (is_null (m_pNorthWest c)) 479;
            _ ← assert (is_null (m_pNorthEast c)) 480;
            _ ← assert (is_null (m_pSouthEast c)) 481;
            _ ← assert (is_null (m_pSouthWest c)) 482;
            Ok tt
      | Undefined =>
          _ ← assert false 486;
          Ok tt
      end
  end.

Definition SanityCheck (fuel : nat) (q : CQuadTree) : result unit :=
  SanityCheckChild_Recursive fuel (m_pages q) (m_pTreeRoot q).

(** Inserting a list of points one after the other, keeping the outcomes. *)
Fixpoint Insert_all (fuel : nat) (q : CQuadTree) (points : list CCoordinate)
  : result (list EInsertResult.t * CQuadTree) :=
  match points with
  | [] => Ok ([], q)
  | p :: rest =>
      '(r, q1) ← Insert fuel q p;
      '(rs, q2) ← Insert_all fuel q1 rest;
      Ok (r :: rs, q2)
  end.

(** The side of a square region [k] levels above the unit cells. *)
Definition side (k : nat) : Z := 2 ^ Z.of_nat k.

(** [sq k b]: [b] is a square of side [2^k] inside the scalar range. *)
Definition sq (k : nat) (b : CBounds) : Prop :=
  0 <= x (min b) /\ 0 <= y (min b) /\
  x (max b) = x (min b) + side k - 1 /\
  y (max b) = y (min b) + side k - 1 /\
  x (max b) < TScalar_modulus /\ y (max b) < TScalar_modulus.

(** The four quadrants of a square, written without wrap-around. *)
Definition quadNW (s : Z) (b : CBounds) : CBounds :=
  mkBounds (min b) (mkCoordinate (x (min b) + s - 1) (y (min b) + s - 1)).
Definition quadNE (s : Z) (b : CBounds) : CBounds :=
  mkBounds (mkCoordinate (x (min b) + s) (y (min b)))
           (mkCoordinate (x (max b)) (y (min b) + s - 1)).
Definition quadSE (s : Z) (b : CBounds) : CBounds :=
  mkBounds (mkCoordinate (x (min b) + s) (y (min b) + s)) (max b).
Definition quadSW (s : Z) (b : CBounds) : CBounds :=
  mkBounds (mkCoordinate (x (min b)) (y (min b) + s))
           (mkCoordinate (x (min b) + s - 1) (y (max b))).

(** ** The split of an arbitrary rectangle *)

Definition well_ordered (b : CBounds) : Prop :=
  x (min b) <= x (max b) /\ y (min b) <= y (max b).

Definition within (c b : CBounds) : Prop :=
  forall p, Contains c p = true -> Contains b p = true.

Definition disjoint_bounds (a b : CBounds) : Prop :=
  forall p, Contains a p = true -> Contains b p = false.

(** * The quadtree a store represents *)

Inductive qtree : Type :=
  | TEmpty (b : CBounds)
  | TLeaf (b : CBounds) (p : CCoordinate)
  | TNode (b : CBounds) (nw ne se sw : qtree).

Definition bounds_of (t : qtree) : CBounds :=
  match t with
  | TEmpty b | TLeaf b _ | TNode b _ _ _ _ => b
  end.

Inductive quadrant : Type := QNW | QNE | QSE | QSW.

Definition quadrant_eqb (i j : quadrant) : bool :=
  match i, j with
  | QNW, QNW | QNE, QNE | QSE, QSE | QSW, QSW => true
  | _, _ => false
  end.

(** The child the descent takes: the first of north-west, north-east and
    south-east whose bounds contain the point, else south-west. *)
Definition which (nw ne se : CBounds) (point : CCoordinate) : quadrant :=
  if Contains nw point then QNW
  else if Contains ne point then QNE
  else if Contains se point then QSE
  else QSW.

(** The descent of [CNode::Find] on the tree. *)
Fixpoint t_find (t : qtree) (point : CCoordinate) : EFindResult.t :=
  match t with
  | TEmpty _ => EFindResult.NoEntry
  | TLeaf _ e => if coord_eq e point then EFindResult.Success else EFindResult.NoEntry
  | TNode _ nw ne se sw =>
      match which (bounds_of nw) (bounds_of ne) (bounds_of se) point with
      | QNW => t_find nw point
      | QNE => t_find ne point
      | QSE => t_find se point
      | QSW => t_find sw point
      end
  end.

(** What the collision loop leaves in quadrant [i] with bounds [c] after one
    split, when [e] went to quadrant [qe] and [p] to quadrant [qp]: the
    loop goes on in the common quadrant ([again]), or the two quadrants
    become leaves; the others stay empty regions. *)
Definition fill (again : CBounds -> qtree) (qe qp : quadrant)
    (e p : CCoordinate) (i : quadrant) (c : CBounds) : qtree :=
  if quadrant_eqb qe qp then
    if quadrant_eqb i qe then again c else TEmpty c
  else if quadrant_eqb i qe then TLeaf c e
  else if quadrant_eqb i qp then TLeaf c p
  else TEmpty c.

(** The tree the collision loop of [Insert] builds in place of a leaf with
    bounds [b] that holds [e] when [p] arrives; [n] bounds the number of
    splits. *)
Fixpoint t_split (n : nat) (b : CBounds) (e p : CCoordinate) : qtree :=
  match n with
  | O => TLeaf b e
  | S n' =>
      let '(bnw, bne, bse, bsw) := SplitBounds b in
      let qe := which bnw bne bse e in
      let qp := which bnw bne bse p in
      let f := fill (fun c => t_split n' c e p) qe qp e p in
      TNode b (f QNW bnw) (f QNE bne) (f QSE bse) (f QSW bsw)
  end.

Arguments t_split : simpl never.

(** [Insert] on the tree. *)
Fixpoint t_insert (t : qtree) (point : CCoordinate) : qtree :=
  match t with
  | TEmpty b => TLeaf b point
  | TLeaf b e => if coord_eq e point then TLeaf b e else t_split 64 b e point
  | TNode b nw ne se sw =>
      match which (bounds_of nw) (bounds_of ne) (bounds_of se) point with
      | QNW => TNode b (t_insert nw point) ne se sw
      | QNE => TNode b nw (t_insert ne point) se sw
      | QSE => TNode b nw ne (t_insert se point) sw
      | QSW => TNode b nw ne se (t_insert sw point)
      end
  end.

Definition t_insert_result (t : qtree) (point : CCoordinate) : EInsertResult.t :=
  match t_find t point with
  | EFindResult.Success => EInsertResult.DuplicateEntry
  | _ => EInsertResult.Success
  end.

(** [wf k b t]: [t] covers the square [b] of side [2^k], every populated
    region is cut into the quadrants of [Split], and every leaf holds a
    point of its bounds. *)
Fixpoint wf (k : nat) (b : CBounds) (t : qtree) {struct t} : Prop :=
  match t with
  | TEmpty b' => b' = b
  | TLeaf b' p => b' = b /\ Contains b p = true
  | TNode b' nw ne se sw =>
      b' = b /\
      match k with
      | O => False
      | S k' =>
          wf k' (quadNW (side k') b) nw /\ wf k' (quadNE (side k') b) ne /\
          wf k' (quadSE (side k') b) se /\ wf k' (quadSW (side k') b) sw
      end
  end.

(** The bounds of quadrant [i] of the square [b] of side [2 * s]. *)
Definition quad (i : quadrant) (s : Z) (b : CBounds) : CBounds :=
  match i with
  | QNW => quadNW s b
  | QNE => quadNE s b
  | QSE => quadSE s b
  | QSW => quadSW s b
  end.

(** * The store as a tree *)

(** [rep mem a t fp]: the node in slot [a] of [mem] is the root of [t], and
    [fp] is the set of slots [t] occupies; no slot is used twice. *)
Inductive rep (mem : list CNode) : nat -> qtree -> gset nat -> Prop :=
  | rep_empty a n b fp :
      mem !! a = Some n ->
      m_regionBounds n = b -> m_point n = CCoordinate_zero ->
      m_nodeType n = Region ->
      m_pNorthWest n = None -> m_pNorthEast n = None ->
      m_pSouthEast n = None -> m_pSouthWest n = None ->
      fp = {[a]} ->
      rep mem a (TEmpty b) fp
  | rep_leaf a n b p fp :
      mem !! a = Some n ->
      m_regionBounds n = b -> m_point n = p ->
      m_nodeType n = Leaf ->
      m_pNorthWest n = None -> m_pNorthEast n = None ->
      m_pSouthEast n = None -> m_pSouthWest n = None ->
      fp = {[a]} ->
      rep mem a (TLeaf b p) fp
  | rep_node a n b nw ne se sw a1 a2 a3 a4 f1 f2 f3 f4 fp :
      mem !! a = Some n ->
      m_regionBounds n = b -> m_point n = CCoordinate_zero ->
      m_nodeType n = Region ->
      m_pNorthWest n = Some a1 -> m_pNorthEast n = Some a2 ->
      m_pSouthEast n = Some a3 -> m_pSouthWest n = Some a4 ->
      rep mem a1 nw f1 -> rep mem a2 ne f2 ->
      rep mem a3 se f3 -> rep mem a4 sw f4 ->
      a ∉ f1 ∪ f2 ∪ f3 ∪ f4 ->
      f1 ## f2 -> f1 ## f3 -> f1 ## f4 -> f2 ## f3 -> f2 ## f4 -> f3 ## f4 ->
      fp = {[a]} ∪ f1 ∪ f2 ∪ f3 ∪ f4 ->
      rep mem a (TNode b nw ne se sw) fp.

(** ** The free list *)

(** Every slot links to the next one, and the last slot ends the list. *)
Definition links_ok (mem : list CNode) : Prop :=
  forall i n, mem !! i = Some n ->
    pPoolNext n = if (S i <? length mem)%nat then Some (S i) else None.

(** [pool_inv q h]: the pool of [q] has pages of at least two slots, its
    root is slot [0], its head is the slot [h] of the store, and the slots
    are linked in order. *)
Definition pool_inv (q : CQuadTree) (h : nat) : Prop :=
  (2 <= m_pageSize q)%nat /\
  m_pPoolRoot q = Some 0%nat /\
  m_pPoolHead q = Some h /\
  (h < length (m_pages q))%nat /\
  links_ok (m_pages q).

(** The store after the first three steps of [AllocatePage]: the new page
    is appended and linked. *)
Definition page_appended (q : CQuadTree) : result (list CNode) :=
  let pPages := length (m_pages q) in
  let mem0 := m_pages q ++ replicate (m_pageSize q) CNode_default in
  let lastIndex := (m_pageSize q - 1)%nat in
  mem1 ← link_page lastIndex pPages 0 mem0;
  last ← deref mem1 (Some (pPages + lastIndex)%nat);
  assign mem1 (Some (pPages + lastIndex)%nat) (set_poolNext last None).

(** The part of [AllocateNode] after the pool was grown if needed. *)
Definition AllocateNode_tail (q1 : CQuadTree) : result (ptr * CQuadTree) :=
  _ ← assert (negb (is_null (m_pPoolHead q1))) 530;
  head ← deref (m_pages q1) (m_pPoolHead q1);
  _ ← assert (negb (is_null (pPoolNext head))) 531;
  let pAllocatedNode := m_pPoolHead q1 in
  let pPoolNext' := pPoolNext head in
  mem1 ← assign (m_pages q1) pAllocatedNode (set_poolNext CNode_default pPoolNext');
  Ok (pAllocatedNode, with_poolHead (with_pages q1 mem1) pPoolNext').

(** The node [AllocateRegionNode] leaves in slot [h]. *)
Definition region_node (b : CBounds) (h : nat) : CNode :=
  mkNode b CCoordinate_zero None None None None Region (Some (S h)).

(** ** The invariant of a tree *)

(** [inv q t]: the pool of [q] is in order, and its root is the root of the
    tree [t], which covers the whole range and lies below the pool head. *)
Definition inv (q : CQuadTree) (t : qtree) : Prop :=
  exists h r fp,
    pool_inv q h /\ m_pTreeRoot q = Some r /\
    rep (m_pages q) r t fp /\ (forall i, i ∈ fp -> (i < h)%nat) /\
    wf 64 full_bounds t.

(** ** One step of the descent *)

Definition child_ptr (n : CNode) (i : quadrant) : ptr :=
  match i with
  | QNW => m_pNorthWest n
  | QNE => m_pNorthEast n
  | QSE => m_pSouthEast n
  | QSW => m_pSouthWest n
  end.

(** [children_at mem n B]: the four children of [n] are nodes of [mem], and
    child [i] has the bounds [B i]. *)
Definition children_at (mem : list CNode) (n : CNode) (B : quadrant -> CBounds) : Prop :=
  forall i, exists c ni,
    child_ptr n i = Some c /\ mem !! c = Some ni /\ m_regionBounds ni = B i.

Definition is_terminal (t : qtree) : Prop :=
  match t with TNode _ _ _ _ _ => False | _ => True end.

(** ** [Split] in the store *)

(** The slot of child [i] of a node split when the pool head was [h]. *)
Definition caddr (h : nat) (i : quadrant) : nat :=
  match i with
  | QNW => h
  | QNE => S h
  | QSE => S (S h)
  | QSW => S (S (S h))
  end.

Definition split_node (nd : CNode) (h : nat) : CNode :=
  set_point
    (set_nodeType
       (set_children nd (Some (caddr h QNW)) (Some (caddr h QNE))
                        (Some (caddr h QSE)) (Some (caddr h QSW)))
       Region)
    CCoordinate_zero.

(** ** The collision loop in the store *)

Definition leaf_of (n : CNode) (p : CCoordinate) : CNode :=
  set_point (set_nodeType n Leaf) p.

(** The store after the two assignments that follow the loop (lines
    346-351). *)
Definition finish (mem : list CNode) (pE pS : nat) (nE nS : CNode)
    (e p : CCoordinate) : list CNode :=
  <[pS := leaf_of nS p]> (<[pE := leaf_of nE e]> mem).

(** ** [SanityCheck] on the tree *)

(** The checks on the bounds of every node (lines 390-394). *)
Definition t_boundsCheck (b : CBounds) : result unit :=
  _ ← assert (bounds_ne b (mkBounds CCoordinate_zero CCoordinate_zero)) 390;
  _ ← assert (x (max b) >=? x (min b)) 391;
  _ ← assert (y (max b) >=? y (min b)) 392;
  _ ← assert (x (min b) <=? x (max b)) 393;
  _ ← assert (y (min b) <=? y (max b)) 394;
  Ok tt.

Definition t_leafChild (b : CBounds) (child : qtree) (line : nat) : result unit :=
  match child with
  | TLeaf _ p => assert (Contains b p) line
  | _ => Ok tt
  end.

Fixpoint t_sanity (t : qtree) : result unit :=
  match t with
  | TEmpty b => t_boundsCheck b
  | TLeaf b p =>
      _ ← t_boundsCheck b;
      _ ← assert (Contains b p) 402;
      Ok tt
  | TNode b nw ne se sw =>
      _ ← t_boundsCheck b;
      _ ← SanityCheck_children b (bounds_of nw) (bounds_of ne)
            (bounds_of se) (bounds_of sw);
      _ ← t_leafChild b nw 452;
      _ ← t_sanity nw;
      _ ← t_leafChild b ne 459;
      _ ← t_sanity ne;
      _ ← t_leafChild b se 466;
      _ ← t_sanity se;
      _ ← t_leafChild b sw 472;
      t_sanity sw
  end.

Fixpoint height (t : qtree) : nat :=
  match t with
  | TNode _ nw ne se sw =>
      S (Nat.max (Nat.max (height nw) (height ne)) (Nat.max (height se) (height sw)))
  | _ => O
  end.

(** [level_ok k t]: no region of side two is split, that is, the tree
    [t] of level [k] has no unit cells. *)
Fixpoint level_ok (k : nat) (t : qtree) {struct t} : bool :=
  match t with
  | TNode _ nw ne se sw =>
      match k with
      | S (S k' as k1) =>
          level_ok k1 nw && level_ok k1 ne && level_ok k1 se && level_ok k1 sw
      | _ => false
      end
  | _ => true
  end.

(** ** The grid of 2 x 2 cells *)

(** [same_block p q]: the two points lie in the same cell of the grid of
    2 x 2 cells, that is, they agree on all but the lowest bit of [x] and
    of [y]. *)
Definition same_block (p q : CCoordinate) : bool :=
  (x p / 2 =? x q / 2) && (y p / 2 =? y q / 2).

(** The points a tree holds. *)
Fixpoint points_of (t : qtree) : list CCoordinate :=
  match t with
  | TEmpty _ => []
  | TLeaf _ p => [p]
  | TNode _ nw ne se sw => points_of nw ++ points_of ne ++ points_of se ++ points_of sw
  end.

(** [aligned k b]: the corner of [b] is a multiple of [2^k]. *)
Definition aligned (k : nat) (b : CBounds) : Prop :=
  exists cx cy, x (min b) = cx * side k /\ y (min b) = cy * side k.

(** [blocks_ok acc l]: no point of [l] shares a 2 x 2 cell with a point of
    [acc] or with an earlier point of [l]. *)
Fixpoint blocks_ok (acc l : list CCoordinate) : bool :=
  match l with
  | [] => true
  | p :: rest =>
      forallb (fun e => negb (same_block e p)) acc && blocks_ok (p :: acc) rest
  end.

(** * Trees a client can build *)

(** The states of a tree after construction and any sequence of [Insert]
    and [Reset]; loops are run with a bound of at least 64. *)
Inductive reachable : CQuadTree -> Prop :=
  | reach_new pageSize q :
      CQuadTree_new pageSize = Ok q -> reachable q
  | reach_insert fuel q point r q' :
      reachable q -> valid_coord point -> (64 <= fuel)%nat ->
      Insert fuel q point = Ok (r, q') -> reachable q'
  | reach_reset q q' :
      reachable q -> Reset q = Ok q' -> reachable q'.

(** The state right after construction or [Reset]. *)
Inductive fresh : CQuadTree -> Prop :=
  | fresh_new pageSize q : CQuadTree_new pageSize = Ok q -> fresh q
  | fresh_reset q q' : reachable q -> Reset q = Ok q' -> fresh q'.

(** ** Sequences of insertions *)

Definition t_insert_all (t : qtree) (points : list CCoordinate) : qtree :=
  fold_left t_insert points t.

Fixpoint t_results (t : qtree) (points : list CCoordinate) : list EInsertResult.t :=
  match points with
  | [] => []
  | p :: rest => t_insert_result t p :: t_results (t_insert t p) rest
  end.

(** ** Concrete trees and runs *)

(** Concrete trees used to instantiate the theorems. *)
Definition tree4 : CQuadTree :=
  Eval vm_compute in
    match CQuadTree_new 4 with Ok q => q | _ => mkTree None 0 None None [] end.

Definition tree4_origin : CQuadTree :=
  Eval vm_compute in
    match Insert 64 tree4 (mkCoordinate 0 0) with
    | Ok (_, q) => q
    | _ => tree4
    end.

Definition leaf_origin : CNode :=
  Eval vm_compute in
    match m_pages tree4_origin !! 0%nat with
    | Some n => n
    | None => CNode_default
    end.

(** A tree built from scratch: construction, then the insertions. *)
Definition build (fuel pageSize : nat) (points : list CCoordinate)
  : result (list EInsertResult.t * CQuadTree) :=
  q ← CQuadTree_new pageSize;
  Insert_all fuel q points.

(** ** Points that share no cell *)

(** [cells_distinct l]: no two different points of [l] lie in the same
    2 x 2 cell of the grid. *)
Definition cells_distinct (l : list CCoordinate) : Prop :=
  forall p q, In p l -> In q l -> p <> q -> same_block p q = false.

(** [cells_ok acc l]: every point of [l] is a point of [acc] or of the
    earlier part of [l], or shares no 2 x 2 cell with any of them. *)
Fixpoint cells_ok (acc l : list CCoordinate) : bool :=
  match l with
  | [] => true
  | p :: rest =>
      (existsb (fun e => coord_eq e p) acc
       || forallb (fun e => negb (same_block e p)) acc)
      && cells_ok (p :: acc) rest
  end.

(** ** More concrete trees *)

(** The tree of page size 4 that holds (1,1) and (2^63,1), and the tree
    [Reset] makes of it: its slot 1 still holds the leaf of (1,1). *)
Definition tree4_two : CQuadTree :=
  Eval vm_compute in
    match Insert_all 64 tree4 [mkCoordinate 1 1; mkCoordinate (2 ^ 63) 1] with
    | Ok (_, q) => q
    | _ => tree4
    end.

Definition tree4_recycled : CQuadTree :=
  Eval vm_compute in
    match Reset tree4_two with
    | Ok q => q
    | _ => tree4
    end.

(** The tree of page size 4 that holds (2,2) and (3,3), two points of one
    2 x 2 cell. *)
Definition tree4_unit : CQuadTree :=
  Eval vm_compute in
    match Insert_all 64 tree4 [mkCoordinate 2 2; mkCoordinate 3 3] with
    | Ok (_, q) => q
    | _ => tree4
    end.

(** ** Growth of the store *)

(** [grown q h q' h']: from the state [q] with the pool head [h] to the
    state [q'] with the head [h'], the head moved forward, the page size
    stayed, and the store grew by whole pages, and by none unless the
    head came within a page of its end. *)
Definition grown (q : CQuadTree) (h : nat) (q' : CQuadTree) (h' : nat) : Prop :=
  m_pageSize q' = m_pageSize q /\ (h <= h')%nat /\
  (exists c, length (m_pages q') = (length (m_pages q) + c * m_pageSize q)%nat) /\
  (length (m_pages q') = length (m_pages q) \/
   (length (m_pages q') <= h' + m_pageSize q)%nat).

(** * The test driver [main]

    [draw n] is the coordinate that the [n]-th evaluation of
    [CCoordinate(distribution(generator), distribution(generator))] builds
    (line 571); the engine and the distribution are not modelled. *)

(** The inner loop (lines 569-572): [count] insertions of the coordinates
    drawn from number [next] on; the outcome of [Insert] is dropped. *)
Fixpoint main_inserts (fuel : nat) (draw : nat -> CCoordinate) (q : CQuadTree)
    (next count : nat) : result CQuadTree :=
  match count with
  | O => Ok q
  | S count' =>
      '(_, q1) ← Insert fuel q (draw next);
      main_inserts fuel draw q1 (S next) count'
  end.

(** The outer loop (lines 566-574) from round [i] on, for [rounds] rounds:
    round [i] resets the tree, inserts [i] coordinates and runs the
    validator. *)
Fixpoint main_rounds (fuel : nat) (draw : nat -> CCoordinate) (q : CQuadTree)
    (next i rounds : nat) : result CQuadTree :=
  match rounds with
  | O => Ok q
  | S rounds' =>
      q1 ← Reset q;
      q2 ← main_inserts fuel draw q1 next i;
      _ ← SanityCheck fuel q2;
      main_rounds fuel draw q2 (next + i) (S i) rounds'
  end.

(** [main]: a tree with pages of 32768 slots, then the rounds
    [i = 1, ..., 8191]; the value is the exit status. *)
Definition main (fuel : nat) (draw : nat -> CCoordinate) : result Z :=
  quadTree ← CQuadTree_new (Z.to_nat 32768);
  _ ← main_rounds fuel draw quadTree 0 1 (Z.to_nat 8191);
  Ok 0.

(** The number of coordinates drawn before round [i]. *)
Fixpoint round_start (i : nat) : nat :=
  match i with
  | O => O
  | S i' => (round_start i' + i')%nat
  end.

(** The coordinates drawn in round [i]. *)
Definition round_points (draw : nat -> CCoordinate) (i : nat) : list CCoordinate :=
  map draw (seq (round_start i) i).

(** A sequence of valid coordinates; the first [2^63] of them lie in
    different cells. *)
Definition spread_draw (n : nat) : CCoordinate :=
  mkCoordinate ((2 * Z.of_nat n) mod TScalar_modulus) 0.

(** * Proofs: geometry of the split *)

Lemma TScalar_modulus_eq : TScalar_modulus = 18446744073709551616.
Proof. reflexivity. Qed.

Lemma wrap_small z : in_range z -> wrap z = z.
Proof. intros H. unfold wrap. apply Z.mod_small. exact H. Qed.

Lemma coord_eq_true a b : coord_eq a b = true <-> a = b.
Proof.
  unfold coord_eq. destruct a as [ax ay], b as [bx by']. simpl.
  rewrite andb_true_iff, !Z.eqb_eq. split.
  - intros [-> ->]. reflexivity.
  - intros E. injection E. auto.
Qed.

Lemma coord_eq_false a b : coord_eq a b = false <-> a <> b.
Proof.
  rewrite <- coord_eq_true. destruct (coord_eq a b); split; congruence.
Qed.

Lemma coord_eq_refl a : coord_eq a a = true.
Proof. apply coord_eq_true. reflexivity. Qed.

Lemma coord_eq_sym a b : coord_eq a b = coord_eq b a.
Proof. unfold coord_eq. rewrite (Z.eqb_sym (x a)), (Z.eqb_sym (y a)). reflexivity. Qed.

Lemma Contains_true b p :
  Contains b p = true <->
  x (min b) <= x p /\ y (min b) <= y p /\ x p <= x (max b) /\ y p <= y (max b).
Proof.
  unfold Contains. rewrite !andb_true_iff, !Z.leb_le. tauto.
Qed.

Lemma Contains_false b p :
  Contains b p = false <->
  ~ (x (min b) <= x p /\ y (min b) <= y p /\ x p <= x (max b) /\ y p <= y (max b)).
Proof.
  rewrite <- Contains_true. destruct (Contains b p); split; congruence.
Qed.

Lemma side_pos k : 0 < side k.
Proof. unfold side. apply Z.pow_pos_nonneg; lia. Qed.

Lemma side_S k : side (S k) = 2 * side k.
Proof. unfold side. rewrite Nat2Z.inj_succ, Z.pow_succ_r; lia. Qed.

Lemma side_0 : side 0 = 1.
Proof. reflexivity. Qed.

Lemma side_64 : side 64 = TScalar_modulus.
Proof. reflexivity. Qed.

Lemma sq_full : sq 64 full_bounds.
Proof.
  unfold sq, full_bounds. simpl. rewrite side_64.
  unfold TScalar_min, TScalar_max, TScalar_modulus. lia.
Qed.

Lemma full_bounds_Contains p : valid_coord p -> Contains full_bounds p = true.
Proof.
  intros [Hx Hy]. apply Contains_true. unfold in_range in *. simpl.
  unfold TScalar_min, TScalar_max, TScalar_modulus in *. lia.
Qed.

Lemma sq_Contains_valid k b p : sq k b -> Contains b p = true -> valid_coord p.
Proof.
  intros (Hx & Hy & Mx & My & Bx & By) Hp%Contains_true.
  unfold valid_coord, in_range. lia.
Qed.

Lemma half_odd s : (2 * s - 1) / 2 = s - 1.
Proof. symmetry. apply (Z.div_unique _ _ _ 1); lia. Qed.

Lemma SplitBounds_sq k b :
  sq (S k) b ->
  SplitBounds b = (quadNW (side k) b, quadNE (side k) b,
                   quadSE (side k) b, quadSW (side k) b).
Proof.
  intros (Hx & Hy & Mx & My & Bx & By).
  rewrite side_S in Mx, My. pose proof (side_pos k) as Hs.
  unfold SplitBounds, quadNW, quadNE, quadSE, quadSW, coord_add, coord_sub, coord_div.
  simpl.
  assert (Wx : wrap (x (max b) - x (min b)) = 2 * side k - 1)
    by (rewrite wrap_small; unfold in_range; lia).
  assert (Wy : wrap (y (max b) - y (min b)) = 2 * side k - 1)
    by (rewrite wrap_small; unfold in_range; lia).
  rewrite Wx, Wy, !half_odd.
  assert (Cx : wrap (x (min b) + (side k - 1)) = x (min b) + side k - 1)
    by (rewrite wrap_small; unfold in_range; lia).
  assert (Cy : wrap (y (min b) + (side k - 1)) = y (min b) + side k - 1)
    by (rewrite wrap_small; unfold in_range; lia).
  rewrite Cx, Cy.
  assert (Dx : wrap (x (min b) + side k - 1 + 1) = x (min b) + side k)
    by (rewrite wrap_small; unfold in_range; lia).
  assert (Dy : wrap (y (min b) + side k - 1 + 1) = y (min b) + side k)
    by (rewrite wrap_small; unfold in_range; lia).
  rewrite Dx, Dy. destruct b as [[? ?] [? ?]]; reflexivity.
Qed.

Lemma sq_quadNW k b : sq (S k) b -> sq k (quadNW (side k) b).
Proof.
  intros (Hx & Hy & Mx & My & Bx & By). rewrite side_S in Mx, My.
  pose proof (side_pos k). unfold sq, quadNW. simpl. lia.
Qed.
Lemma sq_quadNE k b : sq (S k) b -> sq k (quadNE (side k) b).
Proof.
  intros (Hx & Hy & Mx & My & Bx & By). rewrite side_S in Mx, My.
  pose proof (side_pos k). unfold sq, quadNE. simpl. lia.
Qed.
Lemma sq_quadSE k b : sq (S k) b -> sq k (quadSE (side k) b).
Proof.
  intros (Hx & Hy & Mx & My & Bx & By). rewrite side_S in Mx, My.
  pose proof (side_pos k). unfold sq, quadSE. simpl. lia.
Qed.
Lemma sq_quadSW k b : sq (S k) b -> sq k (quadSW (side k) b).
Proof.
  intros (Hx & Hy & Mx & My & Bx & By). rewrite side_S in Mx, My.
  pose proof (side_pos k). unfold sq, quadSW. simpl. lia.
Qed.

(** A point of the square that is in none of the first three quadrants is
    in the fourth. *)
Lemma quad_cover k b p :
  sq (S k) b -> Contains b p = true ->
  Contains (quadNW (side k) b) p = false ->
  Contains (quadNE (side k) b) p = false ->
  Contains (quadSE (side k) b) p = false ->
  Contains (quadSW (side k) b) p = true.
Proof.
  intros (Hx & Hy & Mx & My & Bx & By) Hp H1 H2 H3. rewrite side_S in Mx, My.
  pose proof (side_pos k).
  apply Contains_true in Hp. apply Contains_false in H1, H2, H3.
  apply Contains_true. unfold quadNW, quadNE, quadSE, quadSW in *. simpl in *. lia.
Qed.

(** Two points of one unit cell are equal. *)
Lemma sq_0_eq b p e :
  sq 0 b -> Contains b p = true -> Contains b e = true -> e = p.
Proof.
  intros (Hx & Hy & Mx & My & Bx & By) Hp He. rewrite side_0 in Mx, My.
  apply Contains_true in Hp, He. destruct e, p. simpl in *. f_equal; lia.
Qed.

Lemma SplitBounds_general b :
  valid_coord (min b) -> valid_coord (max b) ->
  x (min b) < x (max b) -> y (min b) < y (max b) ->
  exists cx cy,
    x (min b) <= cx < x (max b) /\ y (min b) <= cy < y (max b) /\
    SplitBounds b =
      (mkBounds (min b) (mkCoordinate cx cy),
       mkBounds (mkCoordinate (cx + 1) (y (min b))) (mkCoordinate (x (max b)) cy),
       mkBounds (mkCoordinate (cx + 1) (cy + 1)) (max b),
       mkBounds (mkCoordinate (x (min b)) (cy + 1)) (mkCoordinate cx (y (max b)))).
Proof.
  intros [Hx0 Hy0] [Hx1 Hy1] Hx Hy. unfold in_range in *.
  exists (x (min b) + (x (max b) - x (min b)) / 2),
         (y (min b) + (y (max b) - y (min b)) / 2).
  pose proof (Z.div_mod (x (max b) - x (min b)) 2 ltac:(lia)) as Dx.
  pose proof (Z.mod_pos_bound (x (max b) - x (min b)) 2 ltac:(lia)) as Rx.
  pose proof (Z.div_mod (y (max b) - y (min b)) 2 ltac:(lia)) as Dy.
  pose proof (Z.mod_pos_bound (y (max b) - y (min b)) 2 ltac:(lia)) as Ry.
  split; [lia|]. split; [lia|].
  unfold SplitBounds, coord_add, coord_sub, coord_div. simpl.
  rewrite (wrap_small (x (max b) - x (min b))) by (unfold in_range; lia).
  rewrite (wrap_small (y (max b) - y (min b))) by (unfold in_range; lia).
  rewrite (wrap_small (x (min b) + _)) by (unfold in_range; lia).
  rewrite (wrap_small (y (min b) + _)) by (unfold in_range; lia).
  rewrite (wrap_small (x (min b) + _ + 1)) by (unfold in_range; lia).
  rewrite (wrap_small (y (min b) + _ + 1)) by (unfold in_range; lia).
  destruct b as [[? ?] [? ?]]; reflexivity.
Qed.

(** * Proofs: the tree operations *)

Lemma wf_bounds k b t : wf k b t -> bounds_of t = b.
Proof.
  destruct t; simpl; intros H; [exact H | exact (proj1 H) | exact (proj1 H)].
Qed.

Lemma bounds_of_t_split n b e p : bounds_of (t_split n b e p) = b.
Proof.
  destruct n; unfold t_split; fold t_split; [reflexivity|].
  destruct (SplitBounds b) as [[[? ?] ?] ?]. reflexivity.
Qed.

Lemma bounds_of_t_insert t p : bounds_of (t_insert t p) = bounds_of t.
Proof.
  destruct t; simpl; try reflexivity.
  - destruct (coord_eq p0 p); [reflexivity | apply bounds_of_t_split].
  - destruct (which _ _ _ p); reflexivity.
Qed.

(** The descent inside a square picks a quadrant that contains the point. *)
Lemma which_sq k b p :
  sq (S k) b -> Contains b p = true ->
  match which (quadNW (side k) b) (quadNE (side k) b) (quadSE (side k) b) p with
  | QNW => Contains (quadNW (side k) b) p = true
  | QNE => Contains (quadNE (side k) b) p = true
  | QSE => Contains (quadSE (side k) b) p = true
  | QSW => Contains (quadSW (side k) b) p = true
  end.
Proof.
  intros Hsq Hp. unfold which.
  destruct (Contains (quadNW (side k) b) p) eqn:E1; [reflexivity|].
  destruct (Contains (quadNE (side k) b) p) eqn:E2; [reflexivity|].
  destruct (Contains (quadSE (side k) b) p) eqn:E3; [reflexivity|].
  eapply quad_cover; eauto.
Qed.

Lemma t_split_S n b e p :
  t_split (S n) b e p =
  let '(bnw, bne, bse, bsw) := SplitBounds b in
  let qe := which bnw bne bse e in
  let qp := which bnw bne bse p in
  let f := fill (fun c => t_split n c e p) qe qp e p in
  TNode b (f QNW bnw) (f QNE bne) (f QSE bse) (f QSW bsw).
Proof. reflexivity. Qed.

Lemma quadrant_eqb_eq i j : quadrant_eqb i j = true <-> i = j.
Proof. destruct i, j; simpl; split; congruence. Qed.

Lemma quadrant_eqb_refl i : quadrant_eqb i i = true.
Proof. destruct i; reflexivity. Qed.

Lemma bounds_of_fill again qe qp e p i c :
  (forall c', bounds_of (again c') = c') ->
  bounds_of (fill again qe qp e p i c) = c.
Proof.
  intros H. unfold fill.
  destruct (quadrant_eqb qe qp), (quadrant_eqb i qe), (quadrant_eqb i qp);
    simpl; auto.
Qed.

Lemma sq_quad i k b : sq (S k) b -> sq k (quad i (side k) b).
Proof.
  destruct i; simpl; auto using sq_quadNW, sq_quadNE, sq_quadSE, sq_quadSW.
Qed.

Lemma which_quad k b p :
  sq (S k) b -> Contains b p = true ->
  Contains
    (quad (which (quadNW (side k) b) (quadNE (side k) b) (quadSE (side k) b) p)
          (side k) b) p = true.
Proof.
  intros Hsq Hp. pose proof (which_sq k b p Hsq Hp) as H.
  destruct (which _ _ _ p); exact H.
Qed.

Lemma t_split_find n : forall k b e p q,
  sq k b -> (k <= n)%nat ->
  Contains b e = true -> Contains b p = true -> e <> p ->
  t_find (t_split n b e p) q =
  if coord_eq p q || coord_eq e q then EFindResult.Success else EFindResult.NoEntry.
Proof.
  induction n as [|n IH]; intros k b e p q Hsq Hk He Hp Hne.
  - assert (k = 0%nat) as -> by lia.
    exfalso. apply Hne. eapply sq_0_eq; eauto.
  - destruct k as [|k].
    { exfalso. apply Hne. eapply sq_0_eq; eauto. }
    rewrite t_split_S, (SplitBounds_sq k b Hsq). cbv zeta.
    pose proof (which_quad k b e Hsq He) as We.
    pose proof (which_quad k b p Hsq Hp) as Wp.
    set (qe := which _ _ _ e) in *. set (qp := which _ _ _ p) in *.
    assert (Hb : forall c', bounds_of (t_split n c' e p) = c')
      by (intros; apply bounds_of_t_split).
    simpl t_find. rewrite !bounds_of_fill by exact Hb.
    assert (Hpq : coord_eq p q = true ->
                  which (quadNW (side k) b) (quadNE (side k) b)
                        (quadSE (side k) b) q = qp).
    { intros ->%coord_eq_true. reflexivity. }
    assert (Heq : coord_eq e q = true ->
                  which (quadNW (side k) b) (quadNE (side k) b)
                        (quadSE (side k) b) q = qe).
    { intros ->%coord_eq_true. reflexivity. }
    set (qq := which _ _ _ q) in *.
    assert (Hrec : forall i, qe = i -> qp = i ->
      t_find (t_split n (quad i (side k) b) e p) q =
      if coord_eq p q || coord_eq e q
      then EFindResult.Success else EFindResult.NoEntry).
    { intros i <- Ei. apply (IH k); auto using sq_quad; try lia.
      rewrite <- Ei. exact Wp. }
    unfold fill.
    destruct (coord_eq p q) eqn:Epq, (coord_eq e q) eqn:Eeq;
      try (specialize (Hpq eq_refl)); try (specialize (Heq eq_refl));
      destruct qq, qe, qp; simpl; try discriminate;
      rewrite ?Epq, ?Eeq; try reflexivity;
      exact (Hrec _ eq_refl eq_refl).
Qed.

Lemma wf_fill again qe qp e p i k b :
  (quadrant_eqb qe qp = true -> wf k (quad qe (side k) b) (again (quad qe (side k) b))) ->
  Contains (quad qe (side k) b) e = true ->
  Contains (quad qp (side k) b) p = true ->
  wf k (quad i (side k) b) (fill again qe qp e p i (quad i (side k) b)).
Proof.
  intros Hagain He Hp. unfold fill.
  destruct (quadrant_eqb qe qp) eqn:E.
  - destruct (quadrant_eqb i qe) eqn:Ei; [|reflexivity].
    apply quadrant_eqb_eq in Ei. subst i. auto.
  - destruct (quadrant_eqb i qe) eqn:Ei.
    { apply quadrant_eqb_eq in Ei. subst i. simpl. auto. }
    destruct (quadrant_eqb i qp) eqn:Ej; [|reflexivity].
    apply quadrant_eqb_eq in Ej. subst i. simpl. auto.
Qed.

Lemma t_split_wf n : forall k b e p,
  sq k b -> (k <= n)%nat ->
  Contains b e = true -> Contains b p = true -> e <> p ->
  wf k b (t_split n b e p).
Proof.
  induction n as [|n IH]; intros k b e p Hsq Hk He Hp Hne.
  - assert (k = 0%nat) as -> by lia.
    exfalso. apply Hne. eapply sq_0_eq; eauto.
  - destruct k as [|k].
    { exfalso. apply Hne. eapply sq_0_eq; eauto. }
    rewrite t_split_S, (SplitBounds_sq k b Hsq). cbv zeta.
    pose proof (which_quad k b e Hsq He) as We.
    pose proof (which_quad k b p Hsq Hp) as Wp.
    set (qe := which _ _ _ e) in *. set (qp := which _ _ _ p) in *.
    assert (Hagain : quadrant_eqb qe qp = true ->
              wf k (quad qe (side k) b) (t_split n (quad qe (side k) b) e p)).
    { intros E%quadrant_eqb_eq. apply IH; auto using sq_quad; try lia.
      rewrite E. exact Wp. }
    simpl. split; [reflexivity|].
    split; [|split; [|split]].
    + exact (wf_fill _ qe qp e p QNW k b Hagain We Wp).
    + exact (wf_fill _ qe qp e p QNE k b Hagain We Wp).
    + exact (wf_fill _ qe qp e p QSE k b Hagain We Wp).
    + exact (wf_fill _ qe qp e p QSW k b Hagain We Wp).
Qed.

Lemma fill_ext again1 again2 qe qp e p i c :
  (quadrant_eqb qe qp = true -> quadrant_eqb i qe = true -> again1 c = again2 c) ->
  fill again1 qe qp e p i c = fill again2 qe qp e p i c.
Proof.
  intros H. unfold fill.
  destruct (quadrant_eqb qe qp), (quadrant_eqb i qe); auto.
Qed.

(** Once the bound reaches the level of the square, a larger bound builds
    the same tree. *)
Lemma t_split_fuel n : forall m k b e p,
  sq k b -> (k <= n)%nat -> (k <= m)%nat ->
  Contains b e = true -> Contains b p = true -> e <> p ->
  t_split n b e p = t_split m b e p.
Proof.
  induction n as [|n IH]; intros m k b e p Hsq Hn Hm He Hp Hne.
  - assert (k = 0%nat) as -> by lia.
    exfalso. apply Hne. eapply sq_0_eq; eauto.
  - destruct k as [|k].
    { exfalso. apply Hne. eapply sq_0_eq; eauto. }
    destruct m as [|m]; [lia|].
    rewrite !t_split_S, (SplitBounds_sq k b Hsq). cbv zeta.
    pose proof (which_quad k b e Hsq He) as We.
    pose proof (which_quad k b p Hsq Hp) as Wp.
    set (qe := which _ _ _ e) in *. set (qp := which _ _ _ p) in *.
    assert (Hagain : forall i, quadrant_eqb qe qp = true -> quadrant_eqb i qe = true ->
              t_split n (quad i (side k) b) e p = t_split m (quad i (side k) b) e p).
    { intros i E%quadrant_eqb_eq Ei%quadrant_eqb_eq. subst i.
      apply (IH m k); auto using sq_quad; try lia.
      rewrite E. exact Wp. }
    f_equal; apply fill_ext.
    + exact (Hagain QNW).
    + exact (Hagain QNE).
    + exact (Hagain QSE).
    + exact (Hagain QSW).
Qed.

Lemma t_insert_wf t : forall k b p,
  wf k b t -> sq k b -> (k <= 64)%nat -> Contains b p = true ->
  wf k b (t_insert t p).
Proof.
  induction t as [b0|b0 e|b0 nw IHnw ne IHne se IHse sw IHsw];
    intros k b p Hwf Hsq Hk Hp; simpl in *.
  - subst b0. auto.
  - destruct Hwf as [-> He]. destruct (coord_eq e p) eqn:E.
    + simpl. auto.
    + apply coord_eq_false in E. apply t_split_wf; auto.
  - destruct Hwf as [-> Hwf]. destruct k as [|k]; [contradiction|].
    destruct Hwf as (Wnw & Wne & Wse & Wsw).
    rewrite (wf_bounds _ _ _ Wnw), (wf_bounds _ _ _ Wne), (wf_bounds _ _ _ Wse).
    pose proof (which_sq k b p Hsq Hp) as W.
    destruct (which _ _ _ p); simpl; (split; [reflexivity|]); repeat split; auto.
    + apply IHnw; auto using sq_quadNW; lia.
    + apply IHne; auto using sq_quadNE; lia.
    + apply IHse; auto using sq_quadSE; lia.
    + apply IHsw; auto using sq_quadSW; lia.
Qed.

(** After [Insert] of [p], the descent finds [p], and finds any other point
    exactly when it found it before. *)
Lemma t_insert_find t : forall k b p q,
  wf k b t -> sq k b -> (k <= 64)%nat -> Contains b p = true ->
  t_find (t_insert t p) q = if coord_eq p q then EFindResult.Success else t_find t q.
Proof.
  induction t as [b0|b0 e|b0 nw IHnw ne IHne se IHse sw IHsw];
    intros k b p q Hwf Hsq Hk Hp; simpl in *.
  - reflexivity.
  - destruct Hwf as [-> He]. destruct (coord_eq e p) eqn:E.
    + apply coord_eq_true in E. subst e. simpl.
      destruct (coord_eq p q); reflexivity.
    + apply coord_eq_false in E.
      rewrite (t_split_find 64 k b e p q); auto.
      destruct (coord_eq p q), (coord_eq e q); reflexivity.
  - destruct Hwf as [-> Hwf]. destruct k as [|k]; [contradiction|].
    destruct Hwf as (Wnw & Wne & Wse & Wsw).
    rewrite (wf_bounds _ _ _ Wnw), (wf_bounds _ _ _ Wne), (wf_bounds _ _ _ Wse).
    pose proof (which_sq k b p Hsq Hp) as W.
    assert (Hpq : coord_eq p q = true ->
                  which (quadNW (side k) b) (quadNE (side k) b)
                        (quadSE (side k) b) q =
                  which (quadNW (side k) b) (quadNE (side k) b)
                        (quadSE (side k) b) p).
    { intros ->%coord_eq_true. reflexivity. }
    destruct (which _ _ _ p) eqn:Ep; simpl;
      rewrite ?bounds_of_t_insert,
        ?(wf_bounds _ _ _ Wnw), ?(wf_bounds _ _ _ Wne), ?(wf_bounds _ _ _ Wse);
      destruct (which _ _ _ q) eqn:Eq;
      try (destruct (coord_eq p q); [specialize (Hpq eq_refl); discriminate | reflexivity]).
    + apply (IHnw k (quadNW (side k) b)); auto using sq_quadNW; lia.
    + apply (IHne k (quadNE (side k) b)); auto using sq_quadNE; lia.
    + apply (IHse k (quadSE (side k) b)); auto using sq_quadSE; lia.
    + apply (IHsw k (quadSW (side k) b)); auto using sq_quadSW; lia.
Qed.

(** * Proofs: the store *)

(** ** Representation *)

Lemma rep_root_in mem a t fp : rep mem a t fp -> a ∈ fp.
Proof. intros H; inversion H; subst; set_solver. Qed.

Lemma rep_lookup mem a t fp :
  rep mem a t fp ->
  exists n, mem !! a = Some n /\ m_regionBounds n = bounds_of t.
Proof. intros H; inversion H; subst; eauto. Qed.

(** A tree does not depend on the slots outside its footprint. *)
Lemma rep_frame mem mem' a t fp :
  rep mem a t fp ->
  (forall i, i ∈ fp -> mem' !! i = mem !! i) ->
  rep mem' a t fp.
Proof.
  induction 1 as [a n b fp Ha|a n b p fp Ha|
                  a n b nw ne se sw a1 a2 a3 a4 f1 f2 f3 f4 fp Ha
                    Hb Hp Ht H1 H2 H3 H4 R1 IH1 R2 IH2 R3 IH3 R4 IH4];
    intros Hfr; subst fp.
  - eapply rep_empty; eauto. rewrite Hfr; [exact Ha | set_solver].
  - eapply rep_leaf; eauto. rewrite Hfr; [exact Ha | set_solver].
  - eapply rep_node; eauto.
    + rewrite Hfr; [exact Ha | set_solver].
    + apply IH1. intros i Hi. apply Hfr. set_solver.
    + apply IH2. intros i Hi. apply Hfr. set_solver.
    + apply IH3. intros i Hi. apply Hfr. set_solver.
    + apply IH4. intros i Hi. apply Hfr. set_solver.
Qed.

(** ** The allocator *)

(** The page [AllocatePage] appends: default nodes linked in order. *)
Lemma link_page_spec count : forall base from mem,
  (base + from + count < length mem)%nat ->
  exists mem',
    link_page count base from mem = Ok mem' /\
    length mem' = length mem /\
    (forall i, (i < base + from \/ base + from + count <= i)%nat ->
       mem' !! i = mem !! i) /\
    (forall i n, (base + from <= i < base + from + count)%nat ->
       mem !! i = Some n ->
       mem' !! i = Some (set_poolNext n (Some (S i)))).
Proof.
  induction count as [|count IH]; intros base from mem Hlen; simpl.
  - exists mem. repeat split; auto. intros; lia.
  - destruct (lookup_lt_is_Some_2 mem (base + from)%nat ltac:(lia)) as [n0 Hn0].
    rewrite Hn0. simpl.
    set (mem1 := <[(base + from)%nat := _]> mem).
    assert (Hlen1 : length mem1 = length mem) by apply length_insert.
    destruct (IH base (S from) mem1 ltac:(lia)) as (mem' & E & L & Hout & Hin).
    exists mem'. split; [exact E|]. split; [lia|]. split.
    + intros i Hi. rewrite Hout by lia. apply list_lookup_insert_ne. lia.
    + intros i n Hi Hn.
      destruct (decide (i = base + from)%nat) as [->|Hne].
      * rewrite Hout by lia. unfold mem1.
        rewrite list_lookup_insert_eq by lia.
        rewrite Hn0 in Hn. injection Hn as ->.
        do 3 f_equal. lia.
      * apply Hin; [lia|]. unfold mem1.
        rewrite list_lookup_insert_ne by lia. exact Hn.
Qed.

Lemma page_appended_spec q :
  (1 <= m_pageSize q)%nat ->
  exists mem2,
    page_appended q = Ok mem2 /\
    length mem2 = (length (m_pages q) + m_pageSize q)%nat /\
    (forall i, (i < length (m_pages q))%nat -> mem2 !! i = m_pages q !! i) /\
    (forall i, (length (m_pages q) <= i < length (m_pages q) + m_pageSize q)%nat ->
       mem2 !! i = Some (set_poolNext CNode_default
                           (if (S i <? length (m_pages q) + m_pageSize q)%nat
                            then Some (S i) else None))).
Proof.
  intros Hps. unfold page_appended.
  set (base := length (m_pages q)). set (ps := m_pageSize q) in *.
  set (mem0 := m_pages q ++ replicate ps CNode_default).
  assert (L0 : length mem0 = (base + ps)%nat).
  { unfold mem0. rewrite length_app, length_replicate. reflexivity. }
  assert (H0 : forall i, (base <= i < base + ps)%nat -> mem0 !! i = Some CNode_default).
  { intros i Hi. unfold mem0. rewrite lookup_app_r by (fold base; lia).
    apply lookup_replicate_2. fold base. lia. }
  destruct (link_page_spec (ps - 1) base 0 mem0 ltac:(lia))
    as (mem1 & E & L1 & Hout & Hin).
  rewrite E. simpl.
  assert (Hlast : mem1 !! (base + (ps - 1))%nat = Some CNode_default).
  { rewrite Hout by lia. apply H0. lia. }
  rewrite Hlast. simpl. eexists. split; [reflexivity|].
  split; [rewrite length_insert; lia|]. split.
  - intros i Hi. rewrite list_lookup_insert_ne by lia.
    rewrite Hout by lia. unfold mem0. apply lookup_app_l. exact Hi.
  - intros i Hi.
    destruct (decide (i = base + (ps - 1))%nat) as [->|Hne].
    + rewrite list_lookup_insert_eq by lia.
      replace (S (base + (ps - 1)) <? base + ps)%nat with false
        by (symmetry; apply Nat.ltb_ge; lia).
      reflexivity.
    + rewrite list_lookup_insert_ne by lia.
      rewrite (Hin i CNode_default) by (try apply H0; lia).
      replace (S i <? base + ps)%nat with true
        by (symmetry; apply Nat.ltb_lt; lia).
      reflexivity.
Qed.

Lemma AllocatePage_unfold q :
  AllocatePage q =
  (_ ← assert (0 <? m_pageSize q)%nat 496;
   mem2 ← page_appended q;
   match m_pPoolRoot q with
   | None =>
       _ ← assert (is_null (m_pPoolHead q)) 510;
       Ok (mkTree (m_pTreeRoot q) (m_pageSize q) (Some (length (m_pages q)))
                  (Some (length (m_pages q))) mem2)
   | Some _ =>
       match m_pPoolHead q with
       | Some h =>
           head ← deref mem2 (Some h);
           mem3 ← assign mem2 (Some h) (set_poolNext head (Some (length (m_pages q))));
           Ok (with_pages q mem3)
       | None =>
           _ ← assert false 519;
           Ok (with_pages q mem2)
       end
   end).
Proof.
  unfold AllocatePage, page_appended.
  destruct (assert (0 <? m_pageSize q)%nat 496); simpl; try reflexivity.
  match goal with
  | |- context [link_page ?c ?b ?f ?m] => destruct (link_page c b f m) as [mem1| | |]
  end; simpl; try reflexivity.
  match goal with
  | |- context [mem1 !! ?i] => destruct (mem1 !! i)
  end; simpl; reflexivity.
Qed.

Lemma links_ok_update mem a n n' :
  links_ok mem -> mem !! a = Some n -> pPoolNext n' = pPoolNext n ->
  links_ok (<[a := n']> mem).
Proof.
  intros Hl Ha Hn i m Hi. rewrite length_insert.
  destruct (decide (i = a)) as [->|Hne].
  - rewrite list_lookup_insert_eq in Hi by (eapply lookup_lt_Some; eauto).
    injection Hi as <-. rewrite Hn. apply Hl. exact Ha.
  - rewrite list_lookup_insert_ne in Hi by congruence. apply Hl. exact Hi.
Qed.

(** Growth: when the head is the last slot, a page is appended behind it. *)
Lemma AllocatePage_grow q h :
  pool_inv q h -> S h = length (m_pages q) ->
  exists mem3,
    AllocatePage q = Ok (with_pages q mem3) /\
    length mem3 = (length (m_pages q) + m_pageSize q)%nat /\
    links_ok mem3 /\
    (forall i, (i < h)%nat -> mem3 !! i = m_pages q !! i).
Proof.
  intros (Hps & Hroot & Hhead & Hh & Hl) Hlast.
  rewrite AllocatePage_unfold.
  replace (0 <? m_pageSize q)%nat with true by (symmetry; apply Nat.ltb_lt; lia).
  simpl.
  destruct (page_appended_spec q ltac:(lia)) as (mem2 & E & L2 & Hold & Hnew).
  rewrite E, Hroot, Hhead. simpl.
  destruct (lookup_lt_is_Some_2 (m_pages q) h Hh) as [nh Hnh].
  rewrite (Hold h Hh), Hnh. simpl.
  eexists. split; [reflexivity|]. split; [rewrite length_insert; exact L2|].
  split.
  - intros i m Hi. rewrite length_insert, L2.
    destruct (decide (i = h)) as [->|Hne].
    + rewrite list_lookup_insert_eq in Hi by lia. injection Hi as <-. simpl.
      replace (S h <? length (m_pages q) + m_pageSize q)%nat with true
        by (symmetry; apply Nat.ltb_lt; lia).
      rewrite Hlast. reflexivity.
    + rewrite list_lookup_insert_ne in Hi by congruence.
      destruct (decide (i < length (m_pages q))%nat) as [Hlt|Hge].
      * rewrite Hold in Hi by exact Hlt. rewrite (Hl i m Hi).
        replace (S i <? length (m_pages q))%nat with true
          by (symmetry; apply Nat.ltb_lt; lia).
        replace (S i <? length (m_pages q) + m_pageSize q)%nat with true
          by (symmetry; apply Nat.ltb_lt; lia).
        reflexivity.
      * assert (Hi' := lookup_lt_Some _ _ _ Hi). rewrite L2 in Hi'.
        rewrite Hnew in Hi by lia. injection Hi as <-. reflexivity.
  - intros i Hi. rewrite list_lookup_insert_ne by lia. apply Hold. lia.
Qed.

Lemma AllocateNode_unfold q :
  AllocateNode q =
  (exhausted ← pool_exhausted q;
   q1 ← (if exhausted : bool then AllocatePage q else Ok q);
   AllocateNode_tail q1).
Proof. reflexivity. Qed.

Lemma AllocateNode_tail_spec q h :
  pool_inv q h -> (S h < length (m_pages q))%nat ->
  exists q',
    AllocateNode_tail q = Ok (Some h, q') /\
    pool_inv q' (S h) /\
    m_pages q' = <[h := set_poolNext CNode_default (Some (S h))]> (m_pages q) /\
    m_pTreeRoot q' = m_pTreeRoot q /\ m_pageSize q' = m_pageSize q.
Proof.
  intros (Hps & Hroot & Hhead & Hh & Hl) Hnext.
  unfold AllocateNode_tail. rewrite Hhead. simpl.
  destruct (lookup_lt_is_Some_2 (m_pages q) h Hh) as [nh Hnh].
  rewrite Hnh. simpl.
  rewrite (Hl h nh Hnh).
  replace (S h <? length (m_pages q))%nat with true
    by (symmetry; apply Nat.ltb_lt; lia).
  simpl. eexists. split; [reflexivity|].
  split; [|simpl; auto].
  unfold pool_inv. simpl. rewrite length_insert.
  repeat split; auto.
  eapply links_ok_update; eauto. simpl. rewrite (Hl h nh Hnh).
  replace (S h <? length (m_pages q))%nat with true
    by (symmetry; apply Nat.ltb_lt; lia).
  reflexivity.
Qed.

(** [AllocateNode] hands out the head slot, blank, and moves the head on. *)
Lemma AllocateNode_spec q h :
  pool_inv q h ->
  exists q',
    AllocateNode q = Ok (Some h, q') /\
    pool_inv q' (S h) /\
    m_pages q' !! h = Some (set_poolNext CNode_default (Some (S h))) /\
    (forall i, (i < h)%nat -> m_pages q' !! i = m_pages q !! i) /\
    (length (m_pages q) <= length (m_pages q'))%nat /\
    m_pTreeRoot q' = m_pTreeRoot q /\ m_pageSize q' = m_pageSize q.
Proof.
  intros Hinv. pose proof Hinv as (Hps & Hroot & Hhead & Hh & Hl).
  rewrite AllocateNode_unfold. unfold pool_exhausted. rewrite Hhead. simpl.
  destruct (lookup_lt_is_Some_2 (m_pages q) h Hh) as [nh Hnh].
  rewrite Hnh. simpl. rewrite (Hl h nh Hnh).
  destruct (S h <? length (m_pages q))%nat eqn:E; simpl.
  - apply Nat.ltb_lt in E.
    destruct (AllocateNode_tail_spec q h Hinv E) as (q' & E' & Hinv' & Hmem & Hr & Hp).
    exists q'. split; [exact E'|]. split; [exact Hinv'|]. rewrite Hmem.
    split; [apply list_lookup_insert_eq; lia|].
    split; [intros i Hi; apply list_lookup_insert_ne; lia|].
    split; [rewrite length_insert; lia|]. auto.
  - apply Nat.ltb_ge in E.
    destruct (AllocatePage_grow q h Hinv ltac:(lia)) as (mem3 & E3 & L3 & Hl3 & Hold).
    rewrite E3. simpl.
    assert (Hinv1 : pool_inv (with_pages q mem3) h).
    { unfold pool_inv. simpl. repeat split; auto. lia. }
    destruct (AllocateNode_tail_spec _ h Hinv1 ltac:(simpl; lia))
      as (q' & E' & Hinv' & Hmem & Hr & Hp).
    exists q'. split; [exact E'|]. split; [exact Hinv'|]. rewrite Hmem. simpl.
    split; [apply list_lookup_insert_eq; lia|].
    split; [intros i Hi; rewrite list_lookup_insert_ne by lia; apply Hold; lia|].
    split; [rewrite length_insert; lia|]. auto.
Qed.

Lemma AllocateRegionNode_of_alloc q h q1 b :
  AllocateNode q = Ok (Some h, q1) ->
  pool_inv q1 (S h) ->
  m_pages q1 !! h = Some (set_poolNext CNode_default (Some (S h))) ->
  exists q2,
    AllocateRegionNode q b = Ok (Some h, q2) /\
    pool_inv q2 (S h) /\
    m_pages q2 = <[h := region_node b h]> (m_pages q1) /\
    m_pTreeRoot q2 = m_pTreeRoot q1 /\ m_pageSize q2 = m_pageSize q1.
Proof.
  intros E (Hps & Hroot & Hhead & Hh & Hl) Hn.
  unfold AllocateRegionNode. rewrite E. simpl. rewrite Hn. simpl.
  eexists. split; [reflexivity|]. split; [|simpl; auto].
  unfold pool_inv. simpl. rewrite length_insert. repeat split; auto.
  eapply links_ok_update; eauto.
Qed.

Lemma AllocateRegionNode_spec q h b :
  pool_inv q h ->
  exists q',
    AllocateRegionNode q b = Ok (Some h, q') /\
    pool_inv q' (S h) /\
    m_pages q' !! h = Some (region_node b h) /\
    (forall i, (i < h)%nat -> m_pages q' !! i = m_pages q !! i) /\
    m_pTreeRoot q' = m_pTreeRoot q /\ m_pageSize q' = m_pageSize q.
Proof.
  intros Hinv.
  destruct (AllocateNode_spec q h Hinv) as (q1 & E & Hinv1 & Hn & Hfr & Hlen & Hr & Hp).
  destruct (AllocateRegionNode_of_alloc q h q1 b E Hinv1 Hn)
    as (q2 & E2 & Hinv2 & Hmem & Hr2 & Hp2).
  exists q2. split; [exact E2|]. split; [exact Hinv2|]. rewrite Hmem.
  assert (h < length (m_pages q1))%nat by (eapply lookup_lt_Some; eauto).
  split; [apply list_lookup_insert_eq; lia|].
  split; [intros i Hi; rewrite list_lookup_insert_ne by lia; auto|].
  split; congruence.
Qed.

(** ** [Reset] and the constructor *)

Lemma rep_region_node mem h b :
  mem !! h = Some (region_node b h) -> rep mem h (TEmpty b) {[h]}.
Proof. intros H. eapply rep_empty; eauto. Qed.

Lemma Reset_spec q h :
  pool_inv q h ->
  exists q', Reset q = Ok q' /\ inv q' (TEmpty full_bounds) /\
             m_pageSize q' = m_pageSize q /\
             m_pTreeRoot q' = Some 0%nat /\
             m_pages q' !! 0%nat = Some (region_node full_bounds 0).
Proof.
  intros (Hps & Hroot & Hhead & Hh & Hl). unfold Reset.
  assert (Hinv0 : pool_inv (with_poolHead q (m_pPoolRoot q)) 0).
  { unfold pool_inv. simpl. repeat split; auto. lia. }
  destruct (AllocateRegionNode_spec _ 0 full_bounds Hinv0)
    as (q' & E & Hinv' & Hn & Hfr & Hr & Hp).
  rewrite E. simpl. eexists. split; [reflexivity|].
  split; [|simpl; auto].
  exists 1%nat, 0%nat, {[0%nat]}. simpl.
  split; [exact Hinv'|]. split; [reflexivity|].
  split; [apply rep_region_node; exact Hn|].
  split; [intros i Hi; apply elem_of_singleton in Hi; lia|].
  reflexivity.
Qed.

Lemma CQuadTree_new_spec pageSize :
  (2 <= pageSize)%nat ->
  exists q, CQuadTree_new pageSize = Ok q /\ inv q (TEmpty full_bounds) /\
            m_pageSize q = pageSize.
Proof.
  intros Hps. unfold CQuadTree_new.
  replace (0 <? pageSize)%nat with true by (symmetry; apply Nat.ltb_lt; lia).
  simpl. unfold Reset. simpl.
  set (q0 := mkTree None pageSize None None []).
  change (with_poolHead q0 None) with q0.
  destruct (page_appended_spec q0 ltac:(simpl; lia)) as (mem2 & E & L2 & Hold & Hnew).
  simpl in L2, Hnew.
  set (q1 := mkTree None pageSize (Some 0%nat) (Some 0%nat) mem2).
  assert (EP : AllocatePage q0 = Ok q1).
  { rewrite AllocatePage_unfold. simpl.
    replace (0 <? pageSize)%nat with true by (symmetry; apply Nat.ltb_lt; lia).
    simpl. rewrite E. reflexivity. }
  assert (Hinv1 : pool_inv q1 0).
  { unfold pool_inv. simpl. repeat split; auto; try lia.
    intros i n Hi. rewrite L2.
    assert (Hi' := lookup_lt_Some _ _ _ Hi). rewrite L2 in Hi'.
    rewrite Hnew in Hi by lia. injection Hi as <-. reflexivity. }
  destruct (AllocateNode_tail_spec q1 0 Hinv1 ltac:(simpl; lia))
    as (q2 & E2 & Hinv2 & Hmem & Hr & Hp).
  assert (EA : AllocateNode q0 = Ok (Some 0%nat, q2)).
  { rewrite AllocateNode_unfold. simpl. rewrite EP. simpl. exact E2. }
  destruct (AllocateRegionNode_of_alloc q0 0 q2 full_bounds EA Hinv2)
    as (q3 & E3 & Hinv3 & Hmem3 & Hr3 & Hp3).
  { rewrite Hmem. apply list_lookup_insert_eq. simpl. lia. }
  rewrite E3. simpl. eexists. split; [reflexivity|].
  split; [|simpl; rewrite Hp3, Hp; reflexivity].
  exists 1%nat, 0%nat, {[0%nat]}. simpl.
  split; [exact Hinv3|]. split; [reflexivity|].
  split.
  { apply rep_region_node. rewrite Hmem3. apply list_lookup_insert_eq.
    rewrite Hmem, length_insert. simpl. lia. }
  split; [intros i Hi; apply elem_of_singleton in Hi; lia|].
  reflexivity.
Qed.

(** ** The descent *)

Lemma CNode_Find_step fuel mem a n B p :
  mem !! a = Some n -> children_at mem n B ->
  Contains (B (which (B QNW) (B QNE) (B QSE) p)) p = true ->
  CNode_Find (S fuel) mem (Some a) p =
  CNode_Find fuel mem (child_ptr n (which (B QNW) (B QNE) (B QSE) p)) p.
Proof.
  intros Ha Hc Hw.
  destruct (Hc QNW) as (c1 & n1 & P1 & M1 & B1).
  destruct (Hc QNE) as (c2 & n2 & P2 & M2 & B2).
  destruct (Hc QSE) as (c3 & n3 & P3 & M3 & B3).
  destruct (Hc QSW) as (c4 & n4 & P4 & M4 & B4).
  simpl in P1, P2, P3, P4.
  simpl. rewrite Ha. simpl. rewrite P1, P2, P3, P4. simpl.
  rewrite M1. simpl. rewrite B1. unfold which in *.
  destruct (Contains (B QNW) p); [simpl; rewrite P1; reflexivity|].
  rewrite M2. simpl. rewrite B2.
  destruct (Contains (B QNE) p); [simpl; rewrite P2; reflexivity|].
  rewrite M3. simpl. rewrite B3.
  destruct (Contains (B QSE) p); [simpl; rewrite P3; reflexivity|].
  rewrite M4. simpl. rewrite B4, Hw. simpl. rewrite P4. reflexivity.
Qed.

Lemma ContainingSubRegion_step mem a n B p :
  mem !! a = Some n -> children_at mem n B ->
  m_nodeType n = Region ->
  Contains (m_regionBounds n) p = true ->
  Contains (B (which (B QNW) (B QNE) (B QSE) p)) p = true ->
  ContainingSubRegion mem (Some a) p =
  Ok (child_ptr n (which (B QNW) (B QNE) (B QSE) p)).
Proof.
  intros Ha Hc Ht Hp Hw.
  destruct (Hc QNW) as (c1 & n1 & P1 & M1 & B1).
  destruct (Hc QNE) as (c2 & n2 & P2 & M2 & B2).
  destruct (Hc QSE) as (c3 & n3 & P3 & M3 & B3).
  destruct (Hc QSW) as (c4 & n4 & P4 & M4 & B4).
  simpl in P1, P2, P3, P4.
  unfold ContainingSubRegion. simpl. rewrite Ha. simpl. rewrite Hp. simpl.
  rewrite P1, P2, P3, P4, Ht. simpl.
  rewrite M1. simpl. rewrite B1. unfold which in *.
  destruct (Contains (B QNW) p); [simpl; rewrite P1; reflexivity|].
  rewrite M2. simpl. rewrite B2.
  destruct (Contains (B QNE) p); [simpl; rewrite P2; reflexivity|].
  rewrite M3. simpl. rewrite B3.
  destruct (Contains (B QSE) p); [simpl; rewrite P3; reflexivity|].
  rewrite M4. simpl. rewrite B4, Hw. simpl. rewrite P4. reflexivity.
Qed.

Lemma rep_fp_eq mem a t fp fp' : rep mem a t fp -> fp = fp' -> rep mem a t fp'.
Proof. intros H <-. exact H. Qed.

Lemma CNode_Find_terminal fuel mem a s p :
  rep mem a s {[a]} -> is_terminal s ->
  CNode_Find fuel mem (Some a) p = Ok (t_find s p, Some a).
Proof.
  intros Hrep Hterm. inversion Hrep; subst; try contradiction.
  - destruct fuel; simpl;
      match goal with H : mem !! a = Some _ |- _ => rewrite H end; simpl;
      repeat match goal with H : _ = None |- _ => rewrite H end; simpl;
      match goal with H : m_nodeType _ = _ |- _ => rewrite H end; reflexivity.
  - destruct fuel; simpl;
      match goal with H : mem !! a = Some _ |- _ => rewrite H end; simpl;
      repeat match goal with H : _ = None |- _ => rewrite H end; simpl;
      match goal with H : m_nodeType _ = _ |- _ => rewrite H end; reflexivity.
Qed.

Lemma rep_children_at mem n b k nw ne se sw a1 a2 a3 a4 f1 f2 f3 f4 :
  m_pNorthWest n = Some a1 -> m_pNorthEast n = Some a2 ->
  m_pSouthEast n = Some a3 -> m_pSouthWest n = Some a4 ->
  rep mem a1 nw f1 -> rep mem a2 ne f2 -> rep mem a3 se f3 -> rep mem a4 sw f4 ->
  wf k (quadNW (side k) b) nw -> wf k (quadNE (side k) b) ne ->
  wf k (quadSE (side k) b) se -> wf k (quadSW (side k) b) sw ->
  children_at mem n (fun i => quad i (side k) b).
Proof.
  intros P1 P2 P3 P4 R1 R2 R3 R4 W1 W2 W3 W4 i.
  destruct i; simpl.
  - destruct (rep_lookup _ _ _ _ R1) as (m & Hm & Hb).
    rewrite (wf_bounds _ _ _ W1) in Hb. eauto.
  - destruct (rep_lookup _ _ _ _ R2) as (m & Hm & Hb).
    rewrite (wf_bounds _ _ _ W2) in Hb. eauto.
  - destruct (rep_lookup _ _ _ _ R3) as (m & Hm & Hb).
    rewrite (wf_bounds _ _ _ W3) in Hb. eauto.
  - destruct (rep_lookup _ _ _ _ R4) as (m & Hm & Hb).
    rewrite (wf_bounds _ _ _ W4) in Hb. eauto.
Qed.

(** The descent of [CNode::Find] in the store follows the descent in the
    tree down to a terminal node [found] that represents a leaf or an
    empty region [s]; putting the result of an insertion into [s] at
    [found] gives the result of the insertion into the whole tree. *)
Lemma descent t : forall mem a fp k b p fuel,
  rep mem a t fp -> wf k b t -> sq k b -> Contains b p = true ->
  (k <= fuel)%nat ->
  exists found s k0,
    CNode_Find fuel mem (Some a) p = Ok (t_find s p, Some found) /\
    t_find t p = t_find s p /\
    found ∈ fp /\ rep mem found s {[found]} /\ is_terminal s /\
    wf k0 (bounds_of s) s /\ sq k0 (bounds_of s) /\ (k0 <= k)%nat /\
    Contains (bounds_of s) p = true /\
    forall mem' fs,
      rep mem' found (t_insert s p) fs ->
      (forall i, i ∈ fp -> i ≠ found -> mem' !! i = mem !! i) ->
      (forall i, i ∈ fs -> i ∈ fp -> i = found) ->
      rep mem' a (t_insert t p) (fp ∪ fs).
Proof.
  induction t as [b0|b0 e|b0 nw IHnw ne IHne se IHse sw IHsw];
    intros mem a fp k b p fuel Hrep Hwf Hsq Hp Hk.
  - assert (fp = {[a]}) as -> by (inversion Hrep; auto).
    simpl in Hwf. subst b0.
    exists a, (TEmpty b), k. split; [apply CNode_Find_terminal; simpl; auto|].
    split; [reflexivity|]. split; [set_solver|]. split; [exact Hrep|].
    split; [exact I|]. split; [reflexivity|]. split; [exact Hsq|].
    split; [lia|]. split; [exact Hp|].
    intros mem' fs Hr _ _. eapply rep_fp_eq; [exact Hr|].
    apply rep_root_in in Hr. set_solver.
  - assert (fp = {[a]}) as -> by (inversion Hrep; auto).
    simpl in Hwf. destruct Hwf as [-> He].
    exists a, (TLeaf b e), k. split; [apply CNode_Find_terminal; simpl; auto|].
    split; [reflexivity|]. split; [set_solver|]. split; [exact Hrep|].
    split; [exact I|]. split; [simpl; auto|]. split; [exact Hsq|].
    split; [lia|]. split; [exact Hp|].
    intros mem' fs Hr _ _. eapply rep_fp_eq; [exact Hr|].
    apply rep_root_in in Hr. set_solver.
  - simpl in Hwf. destruct Hwf as [-> Hwf]. destruct k as [|k]; [contradiction|].
    destruct Hwf as (W1 & W2 & W3 & W4).
    destruct fuel as [|fuel]; [lia|].
    inversion Hrep as [| |a' n b' nw' ne' se' sw' a1 a2 a3 a4 f1 f2 f3 f4 fp'
                         Ha Hb Hpt Hty P1 P2 P3 P4 R1 R2 R3 R4 Hna
                         D12 D13 D14 D23 D24 D34 Hfp]; subst.
    pose proof (rep_children_at _ _ _ _ _ _ _ _ _ _ _ _ _ _ _ _
                  P1 P2 P3 P4 R1 R2 R3 R4 W1 W2 W3 W4) as Hch.
    pose proof (which_quad k _ p Hsq Hp) as Hw.
    rewrite (CNode_Find_step fuel mem a n
               (fun i => quad i (side k) (m_regionBounds n)) p Ha Hch Hw).
    simpl t_find. simpl t_insert.
    rewrite (wf_bounds _ _ _ W1), (wf_bounds _ _ _ W2), (wf_bounds _ _ _ W3).
    simpl in Hw |- *.
    destruct (which _ _ _ p); simpl in Hw |- *.
    + rewrite P1.
      destruct (IHnw mem a1 f1 k _ p fuel R1 W1 (sq_quadNW _ _ Hsq) Hw ltac:(lia))
        as (found & s & k0 & EF & ET & Hin & Hrs & Hts & Hws & Hss & Hk0 & Hcs & Hcont).
      exists found, s, k0. split; [exact EF|]. split; [exact ET|].
      split; [set_solver|]. split; [exact Hrs|]. split; [exact Hts|].
      split; [exact Hws|]. split; [exact Hss|]. split; [lia|]. split; [exact Hcs|].
      intros mem' fs Hr Hfr Hdis.
      assert (Hc : rep mem' a1 (t_insert nw p) (f1 ∪ fs)).
      { apply Hcont; auto. intros i Hi Hne. apply Hfr; [set_solver|exact Hne].
        intros i Hi Hi'. apply Hdis; [exact Hi|set_solver]. }
      eapply (rep_node mem' a n _ _ _ _ _ a1 a2 a3 a4 (f1 ∪ fs) f2 f3 f4); eauto.
      * rewrite Hfr; [exact Ha|set_solver|set_solver].
      * eapply rep_frame; [exact R2|]. intros i Hi. apply Hfr; set_solver.
      * eapply rep_frame; [exact R3|]. intros i Hi. apply Hfr; set_solver.
      * eapply rep_frame; [exact R4|]. intros i Hi. apply Hfr; set_solver.
      * set_solver.
      * set_solver.
      * set_solver.
      * set_solver.
      * set_solver.
    + rewrite P2.
      destruct (IHne mem a2 f2 k _ p fuel R2 W2 (sq_quadNE _ _ Hsq) Hw ltac:(lia))
        as (found & s & k0 & EF & ET & Hin & Hrs & Hts & Hws & Hss & Hk0 & Hcs & Hcont).
      exists found, s, k0. split; [exact EF|]. split; [exact ET|].
      split; [set_solver|]. split; [exact Hrs|]. split; [exact Hts|].
      split; [exact Hws|]. split; [exact Hss|]. split; [lia|]. split; [exact Hcs|].
      intros mem' fs Hr Hfr Hdis.
      assert (Hc : rep mem' a2 (t_insert ne p) (f2 ∪ fs)).
      { apply Hcont; auto. intros i Hi Hne. apply Hfr; [set_solver|exact Hne].
        intros i Hi Hi'. apply Hdis; [exact Hi|set_solver]. }
      eapply (rep_node mem' a n _ _ _ _ _ a1 a2 a3 a4 f1 (f2 ∪ fs) f3 f4); eauto.
      * rewrite Hfr; [exact Ha|set_solver|set_solver].
      * eapply rep_frame; [exact R1|]. intros i Hi. apply Hfr; set_solver.
      * eapply rep_frame; [exact R3|]. intros i Hi. apply Hfr; set_solver.
      * eapply rep_frame; [exact R4|]. intros i Hi. apply Hfr; set_solver.
      * set_solver.
      * set_solver.
      * set_solver.
      * set_solver.
      * set_solver.
    + rewrite P3.
      destruct (IHse mem a3 f3 k _ p fuel R3 W3 (sq_quadSE _ _ Hsq) Hw ltac:(lia))
        as (found & s & k0 & EF & ET & Hin & Hrs & Hts & Hws & Hss & Hk0 & Hcs & Hcont).
      exists found, s, k0. split; [exact EF|]. split; [exact ET|].
      split; [set_solver|]. split; [exact Hrs|]. split; [exact Hts|].
      split; [exact Hws|]. split; [exact Hss|]. split; [lia|]. split; [exact Hcs|].
      intros mem' fs Hr Hfr Hdis.
      assert (Hc : rep mem' a3 (t_insert se p) (f3 ∪ fs)).
      { apply Hcont; auto. intros i Hi Hne. apply Hfr; [set_solver|exact Hne].
        intros i Hi Hi'. apply Hdis; [exact Hi|set_solver]. }
      eapply (rep_node mem' a n _ _ _ _ _ a1 a2 a3 a4 f1 f2 (f3 ∪ fs) f4); eauto.
      * rewrite Hfr; [exact Ha|set_solver|set_solver].
      * eapply rep_frame; [exact R1|]. intros i Hi. apply Hfr; set_solver.
      * eapply rep_frame; [exact R2|]. intros i Hi. apply Hfr; set_solver.
      * eapply rep_frame; [exact R4|]. intros i Hi. apply Hfr; set_solver.
      * set_solver.
      * set_solver.
      * set_solver.
      * set_solver.
      * set_solver.
    + rewrite P4.
      destruct (IHsw mem a4 f4 k _ p fuel R4 W4 (sq_quadSW _ _ Hsq) Hw ltac:(lia))
        as (found & s & k0 & EF & ET & Hin & Hrs & Hts & Hws & Hss & Hk0 & Hcs & Hcont).
      exists found, s, k0. split; [exact EF|]. split; [exact ET|].
      split; [set_solver|]. split; [exact Hrs|]. split; [exact Hts|].
      split; [exact Hws|]. split; [exact Hss|]. split; [lia|]. split; [exact Hcs|].
      intros mem' fs Hr Hfr Hdis.
      assert (Hc : rep mem' a4 (t_insert sw p) (f4 ∪ fs)).
      { apply Hcont; auto. intros i Hi Hne. apply Hfr; [set_solver|exact Hne].
        intros i Hi Hi'. apply Hdis; [exact Hi|set_solver]. }
      eapply (rep_node mem' a n _ _ _ _ _ a1 a2 a3 a4 f1 f2 f3 (f4 ∪ fs)); eauto.
      * rewrite Hfr; [exact Ha|set_solver|set_solver].
      * eapply rep_frame; [exact R1|]. intros i Hi. apply Hfr; set_solver.
      * eapply rep_frame; [exact R2|]. intros i Hi. apply Hfr; set_solver.
      * eapply rep_frame; [exact R3|]. intros i Hi. apply Hfr; set_solver.
      * set_solver.
      * set_solver.
      * set_solver.
      * set_solver.
      * set_solver.
Qed.

(** ** [Split] and the collision loop *)

Lemma pool_inv_update q h a n n' :
  pool_inv q h -> m_pages q !! a = Some n -> pPoolNext n' = pPoolNext n ->
  pool_inv (with_pages q (<[a := n']> (m_pages q))) h.
Proof.
  intros (Hps & Hroot & Hhead & Hh & Hl) Ha Hn.
  unfold pool_inv. simpl. rewrite length_insert. repeat split; auto.
  eapply links_ok_update; eauto.
Qed.

Opaque SplitBounds.

Lemma CNode_Split_spec q h a nd k :
  pool_inv q h -> (a < h)%nat -> m_pages q !! a = Some nd ->
  m_pNorthWest nd = None -> m_pNorthEast nd = None ->
  m_pSouthEast nd = None -> m_pSouthWest nd = None ->
  sq (S k) (m_regionBounds nd) ->
  exists q',
    CNode_Split q (Some a) = Ok q' /\
    pool_inv q' (S (S (S (S h)))) /\
    m_pages q' !! a = Some (split_node nd h) /\
    (forall i, m_pages q' !! caddr h i =
               Some (region_node (quad i (side k) (m_regionBounds nd)) (caddr h i))) /\
    (forall i, (i < h)%nat -> i <> a -> m_pages q' !! i = m_pages q !! i) /\
    m_pTreeRoot q' = m_pTreeRoot q /\ m_pageSize q' = m_pageSize q.
Proof.
  intros Hinv Hah Ha C1 C2 C3 C4 Hsq.
  unfold CNode_Split. simpl. rewrite Ha. simpl. rewrite C1, C2, C3, C4. simpl.
  rewrite (SplitBounds_sq k _ Hsq).
  destruct (AllocateRegionNode_spec q h (quadNW (side k) (m_regionBounds nd)) Hinv)
    as (q1 & E1 & Hinv1 & N1 & F1 & R1 & P1).
  rewrite E1. simpl.
  destruct (AllocateRegionNode_spec q1 _ (quadNE (side k) (m_regionBounds nd)) Hinv1)
    as (q2 & E2 & Hinv2 & N2 & F2 & R2 & P2).
  rewrite E2. simpl.
  destruct (AllocateRegionNode_spec q2 _ (quadSE (side k) (m_regionBounds nd)) Hinv2)
    as (q3 & E3 & Hinv3 & N3 & F3 & R3 & P3).
  rewrite E3. simpl.
  destruct (AllocateRegionNode_spec q3 _ (quadSW (side k) (m_regionBounds nd)) Hinv3)
    as (q4 & E4 & Hinv4 & N4 & F4 & R4 & P4).
  rewrite E4. simpl.
  assert (Ha4 : m_pages q4 !! a = Some nd).
  { rewrite F4, F3, F2, F1 by lia. exact Ha. }
  rewrite Ha4. simpl.
  assert (La : (a < length (m_pages q4))%nat) by (eapply lookup_lt_Some; eauto).
  eexists. split; [reflexivity|].
  split; [eapply pool_inv_update; eauto|]. simpl.
  split; [apply list_lookup_insert_eq; exact La|].
  split; [|split; [|split; congruence]].
  - intros i. rewrite list_lookup_insert_ne by (destruct i; simpl; lia).
    destruct i; simpl.
    + rewrite F4, F3, F2 by lia. exact N1.
    + rewrite F4, F3 by lia. exact N2.
    + rewrite F4 by lia. exact N3.
    + exact N4.
  - intros i Hi Hne. rewrite list_lookup_insert_ne by congruence.
    rewrite F4, F3, F2, F1 by lia. reflexivity.
Qed.

Transparent SplitBounds.

Lemma Insert_loop_S n q pSubRegion e p :
  Insert_loop (S n) q pSubRegion e p =
  (q1 ← CNode_Split q pSubRegion;
   pExistingSubRegion ← ContainingSubRegion (m_pages q1) pSubRegion e;
   pSubRegion' ← ContainingSubRegion (m_pages q1) pSubRegion p;
   _ ← assert (negb (is_null pExistingSubRegion) && negb (is_null pSubRegion')) 341;
   if ptr_eqb pExistingSubRegion pSubRegion'
   then Insert_loop n q1 pSubRegion' e p
   else Ok (pExistingSubRegion, pSubRegion', q1)).
Proof. reflexivity. Qed.

Lemma caddr_inj h i j : caddr h i = caddr h j -> i = j.
Proof. destruct i, j; simpl; intros; try reflexivity; lia. Qed.

Lemma caddr_eqb h i j : Nat.eqb (caddr h i) (caddr h j) = quadrant_eqb i j.
Proof.
  destruct (quadrant_eqb i j) eqn:E.
  - apply quadrant_eqb_eq in E. subst. apply Nat.eqb_refl.
  - apply Nat.eqb_neq. intros H%caddr_inj. subst.
    rewrite quadrant_eqb_refl in E. discriminate.
Qed.

Lemma caddr_range h i : (h <= caddr h i < S (S (S (S h))))%nat.
Proof. destruct i; simpl; lia. Qed.

Lemma child_ptr_split_node nd h i :
  child_ptr (split_node nd h) i = Some (caddr h i).
Proof. destruct i; reflexivity. Qed.

(** A split node whose four children are trees is a tree. *)
Lemma rep_split_node mem a nd h (T : quadrant -> qtree) (F : quadrant -> gset nat) j :
  (a < h)%nat -> mem !! a = Some (split_node nd h) ->
  (forall i, rep mem (caddr h i) (T i) (F i)) ->
  (forall i v, v ∈ F i -> v = caddr h i \/ (S (S (S (S h))) <= v)%nat /\ i = j) ->
  rep mem a (TNode (m_regionBounds nd) (T QNW) (T QNE) (T QSE) (T QSW))
      ({[a]} ∪ F QNW ∪ F QNE ∪ F QSE ∪ F QSW).
Proof.
  intros Hah Ha HT HF.
  assert (Hdis : forall i i', i <> i' -> F i ## F i').
  { intros i i' Hne v Hv Hv'.
    destruct (HF i v Hv) as [E|[G E]], (HF i' v Hv') as [E'|[G' E']].
    - apply Hne. eapply caddr_inj. rewrite <- E, <- E'. reflexivity.
    - pose proof (caddr_range h i). lia.
    - pose proof (caddr_range h i'). lia.
    - congruence. }
  assert (Hna : forall i, a ∉ F i).
  { intros i Hv. destruct (HF i a Hv) as [E|[G E]].
    - pose proof (caddr_range h i). lia.
    - lia. }
  eapply (rep_node mem a (split_node nd h) _ _ _ _ _
            (caddr h QNW) (caddr h QNE) (caddr h QSE) (caddr h QSW)
            (F QNW) (F QNE) (F QSE) (F QSW)); eauto.
  - pose proof (Hna QNW). pose proof (Hna QNE). pose proof (Hna QSE).
    pose proof (Hna QSW). set_solver.
Qed.

Lemma rep_region_node' mem a b nxt :
  mem !! a = Some (mkNode b CCoordinate_zero None None None None Region nxt) ->
  rep mem a (TEmpty b) {[a]}.
Proof. intros H. eapply rep_empty; eauto. Qed.

Lemma rep_leaf_of mem a b nxt p :
  mem !! a = Some (leaf_of (mkNode b CCoordinate_zero None None None None Region nxt) p) ->
  rep mem a (TLeaf b p) {[a]}.
Proof. intros H. eapply rep_leaf; eauto. Qed.

Lemma Insert_loop_spec n : forall k q h a nd e p,
  pool_inv q h -> (a < h)%nat -> m_pages q !! a = Some nd ->
  m_pNorthWest nd = None -> m_pNorthEast nd = None ->
  m_pSouthEast nd = None -> m_pSouthWest nd = None ->
  sq k (m_regionBounds nd) -> (k <= n)%nat ->
  Contains (m_regionBounds nd) e = true ->
  Contains (m_regionBounds nd) p = true -> e <> p ->
  exists pE pS q' h' bE bS,
    Insert_loop n q (Some a) e p = Ok (Some pE, Some pS, q') /\
    pE <> pS /\ (h <= pE < h')%nat /\ (h <= pS < h')%nat /\
    pool_inv q' h' /\
    m_pTreeRoot q' = m_pTreeRoot q /\ m_pageSize q' = m_pageSize q /\
    m_pages q' !! pE = Some (region_node bE pE) /\
    m_pages q' !! pS = Some (region_node bS pS) /\
    Contains bE e = true /\ Contains bS p = true /\
    (forall i, (i < h)%nat -> i <> a -> m_pages q' !! i = m_pages q !! i) /\
    exists fs,
      rep (finish (m_pages q') pE pS (region_node bE pE) (region_node bS pS) e p)
          a (t_split n (m_regionBounds nd) e p) fs /\
      (forall i, i ∈ fs -> i = a \/ (h <= i < h')%nat).
Proof.
  induction n as [|n IH];
    intros k q h a nd e p Hinv Hah Ha C1 C2 C3 C4 Hsq Hk He Hp Hne.
  { assert (k = 0%nat) as -> by lia.
    exfalso. apply Hne. eapply sq_0_eq; eauto. }
  destruct k as [|k].
  { exfalso. apply Hne. eapply sq_0_eq; eauto. }
  set (b := m_regionBounds nd) in *.
  destruct (CNode_Split_spec q h a nd k Hinv Hah Ha C1 C2 C3 C4 Hsq)
    as (q1 & ES & Hinv1 & Na & Nc & Fr1 & R1 & P1).
  fold b in Nc.
  set (B := fun i => quad i (side k) b).
  assert (Hch : children_at (m_pages q1) (split_node nd h) B).
  { intros i. exists (caddr h i), (region_node (quad i (side k) b) (caddr h i)).
    split; [apply child_ptr_split_node|]. split; [apply Nc|reflexivity]. }
  pose proof (which_quad k b e Hsq He) as We.
  pose proof (which_quad k b p Hsq Hp) as Wp.
  rewrite Insert_loop_S, ES. simpl.
  rewrite (ContainingSubRegion_step (m_pages q1) a (split_node nd h) B e Na Hch
             eq_refl He We).
  simpl.
  rewrite (ContainingSubRegion_step (m_pages q1) a (split_node nd h) B p Na Hch
             eq_refl Hp Wp).
  simpl. rewrite !child_ptr_split_node. simpl. rewrite caddr_eqb.
  rewrite t_split_S, (SplitBounds_sq k b Hsq). cbv zeta.
  unfold B in *. simpl in We, Wp |- *.
  set (qe := which _ _ _ e) in *. set (qp := which _ _ _ p) in *.
  destruct (quadrant_eqb qe qp) eqn:Eq.
  - (* both points went to the same quadrant: the loop goes on there *)
    apply quadrant_eqb_eq in Eq. rewrite <- Eq in *. clear Eq.
    pose proof (caddr_range h qe) as Hr.
    destruct (IH k q1 (S (S (S (S h)))) (caddr h qe)
                (region_node (quad qe (side k) b) (caddr h qe)) e p
                Hinv1 ltac:(lia) (Nc qe) eq_refl eq_refl eq_refl eq_refl
                (sq_quad qe k b Hsq) ltac:(lia) We Wp Hne)
      as (pE & pS & q' & h' & bE & bS & EL & Hd & HpE & HpS & Hinv' & R' & P' &
          NE & NS & CE & CS & Fr' & fs & Hrep & Hfs).
    simpl in Hrep.
    exists pE, pS, q', h', bE, bS.
    split; [exact EL|]. split; [exact Hd|]. split; [lia|]. split; [lia|].
    split; [exact Hinv'|]. split; [congruence|]. split; [congruence|].
    split; [exact NE|]. split; [exact NS|]. split; [exact CE|]. split; [exact CS|].
    split.
    { intros i Hi Hia. rewrite Fr' by lia. apply Fr1; auto. }
    set (mem'' := finish _ _ _ _ _ _ _) in *.
    assert (Hlow : forall i, (i < S (S (S (S h))))%nat -> i <> caddr h qe ->
                     mem'' !! i = m_pages q1 !! i).
    { intros i Hi Hic. unfold mem'', finish.
      rewrite !list_lookup_insert_ne by lia. apply Fr'; auto. }
    set (F := fun i : quadrant =>
                if quadrant_eqb i qe then fs else ({[caddr h i]} : gset nat)).
    set (T := fun i : quadrant =>
                fill (fun c => t_split n c e p) qe qe e p i (quad i (side k) b)).
    exists ({[a]} ∪ F QNW ∪ F QNE ∪ F QSE ∪ F QSW).
    assert (HF : forall i v, v ∈ F i ->
                   v = caddr h i \/ (S (S (S (S h))) <= v)%nat /\ i = qe).
    { intros i v Hv. unfold F in Hv. destruct (quadrant_eqb i qe) eqn:Ei.
      - apply quadrant_eqb_eq in Ei. subst i.
        destruct (Hfs v Hv) as [->|G]; [left; reflexivity|right; split; [lia|reflexivity]].
      - left. set_solver. }
    split.
    + apply (rep_split_node mem'' a nd h T F qe Hah).
      * rewrite Hlow by lia. exact Na.
      * intros i. unfold T, F, fill. rewrite quadrant_eqb_refl.
        destruct (quadrant_eqb i qe) eqn:Ei.
        { apply quadrant_eqb_eq in Ei. subst i. exact Hrep. }
        apply (rep_region_node' _ _ _ (Some (S (caddr h i)))).
        rewrite Hlow.
        -- apply Nc.
        -- pose proof (caddr_range h i). lia.
        -- intros Hc%caddr_inj. subst i. rewrite quadrant_eqb_refl in Ei. discriminate.
      * exact HF.
    + intros i Hi.
      assert (Hi' : i = a \/ exists j, i ∈ F j).
      { clear -Hi. set_solver. }
      destruct Hi' as [->|[j Hj]]; [left; reflexivity|right].
      destruct (HF j i Hj) as [->|[G ->]].
      * pose proof (caddr_range h j). lia.
      * unfold F in Hj. rewrite quadrant_eqb_refl in Hj.
        destruct (Hfs i Hj) as [->|G']; lia.
  - (* the points went to two quadrants: the loop ends *)
    assert (Hqne : qe <> qp).
    { intros E. rewrite E, quadrant_eqb_refl in Eq. discriminate. }
    pose proof (caddr_range h qe) as Hre. pose proof (caddr_range h qp) as Hrp.
    assert (Hcne : caddr h qe <> caddr h qp) by (intros E%caddr_inj; auto).
    exists (caddr h qe), (caddr h qp), q1, (S (S (S (S h)))),
           (quad qe (side k) b), (quad qp (side k) b).
    split; [reflexivity|]. split; [exact Hcne|]. split; [lia|]. split; [lia|].
    split; [exact Hinv1|]. split; [exact R1|]. split; [exact P1|].
    split; [apply Nc|]. split; [apply Nc|]. split; [exact We|]. split; [exact Wp|].
    split; [exact Fr1|].
    set (mem'' := finish _ _ _ _ _ _ _).
    assert (Le : (caddr h qe < length (m_pages q1))%nat)
      by (eapply lookup_lt_Some; apply Nc).
    assert (Lp : (caddr h qp < length (m_pages q1))%nat)
      by (eapply lookup_lt_Some; apply Nc).
    set (F := fun i : quadrant => ({[caddr h i]} : gset nat)).
    set (T := fun i : quadrant =>
                fill (fun c => t_split n c e p) qe qp e p i (quad i (side k) b)).
    exists ({[a]} ∪ F QNW ∪ F QNE ∪ F QSE ∪ F QSW).
    split.
    + apply (rep_split_node mem'' a nd h T F qe Hah).
      * unfold mem'', finish. rewrite !list_lookup_insert_ne by lia. exact Na.
      * intros i. unfold T, F, fill. rewrite Eq.
        destruct (quadrant_eqb i qe) eqn:Ei.
        { apply quadrant_eqb_eq in Ei. subst i.
          apply (rep_leaf_of _ _ _ (Some (S (caddr h qe)))).
          unfold mem'', finish. rewrite list_lookup_insert_ne by auto.
          rewrite list_lookup_insert_eq by exact Le. reflexivity. }
        destruct (quadrant_eqb i qp) eqn:Ej.
        { apply quadrant_eqb_eq in Ej. subst i.
          apply (rep_leaf_of _ _ _ (Some (S (caddr h qp)))).
          unfold mem'', finish.
          rewrite list_lookup_insert_eq by (rewrite length_insert; exact Lp).
          reflexivity. }
        apply (rep_region_node' _ _ _ (Some (S (caddr h i)))).
        unfold mem'', finish. rewrite !list_lookup_insert_ne.
        -- apply Nc.
        -- intros Hc%caddr_inj. subst i. rewrite quadrant_eqb_refl in Ei. discriminate.
        -- intros Hc%caddr_inj. subst i. rewrite quadrant_eqb_refl in Ej. discriminate.
      * intros i v Hv. left. unfold F in Hv. set_solver.
    + intros i Hi.
      assert (Hi' : i = a \/ exists j, i = caddr h j).
      { clear -Hi. unfold F in Hi. set_unfold in Hi.
        destruct Hi as [[[[Hi|Hi]|Hi]|Hi]|Hi]; eauto. }
      destruct Hi' as [->|[j ->]]; [left; reflexivity|right].
      pose proof (caddr_range h j). lia.
Qed.

(** ** [Insert] in the store *)

Arguments coord_eq : simpl never.
Arguments Contains : simpl never.

Lemma deref_Some mem a n : mem !! a = Some n -> deref mem (Some a) = Ok n.
Proof. intros H. unfold deref. rewrite H. reflexivity. Qed.

Lemma assign_Some mem a n n' :
  mem !! a = Some n -> assign mem (Some a) n' = Ok (<[a := n']> mem).
Proof. intros H. unfold assign. rewrite H. reflexivity. Qed.

Lemma t_insert_result_find t s p :
  t_find t p = t_find s p -> t_insert_result t p = t_insert_result s p.
Proof. unfold t_insert_result. intros ->. reflexivity. Qed.

(** [Insert] refines the insertion into the tree the store represents. *)
Lemma Insert_spec fuel q t p :
  inv q t -> valid_coord p -> (64 <= fuel)%nat ->
  exists q',
    Insert fuel q p = Ok (t_insert_result t p, q') /\
    inv q' (t_insert t p) /\ m_pageSize q' = m_pageSize q.
Proof.
  intros (h & r & fp & Hinv & Hroot & Hrep & Hfp & Hwf) Hv Hfuel.
  pose proof (full_bounds_Contains p Hv) as Hp.
  destruct (rep_lookup _ _ _ _ Hrep) as (nr & Hnr & Hbr).
  rewrite (wf_bounds _ _ _ Hwf) in Hbr.
  destruct (descent t (m_pages q) r fp 64 full_bounds p fuel Hrep Hwf sq_full Hp Hfuel)
    as (found & s & k0 & EF & ET & Hin & Hrs & Hts & Hws & Hss & Hk0 & Hcs & Hcont).
  assert (Wf' : wf 64 full_bounds (t_insert t p))
    by (apply t_insert_wf; auto using sq_full).
  unfold Insert. rewrite Hroot. simpl. rewrite Hnr. simpl. rewrite Hbr, Hp. simpl.
  rewrite EF. simpl.
  rewrite (t_insert_result_find t s p ET).
  inversion Hrs as [a' nf b0 fp' Hnf Hb Hpt Hty P1 P2 P3 P4 Hfp'|
                    a' nf b0 e fp' Hnf Hb Hpt Hty P1 P2 P3 P4 Hfp'|]; subst.
  - (* an empty region becomes a leaf *)
    rewrite Hnf. simpl. rewrite Hty. simpl.
    eexists. split; [reflexivity|]. split; [|reflexivity].
    exists h, r, (fp ∪ {[found]}). simpl.
    split; [eapply pool_inv_update; eauto|]. split; [exact Hroot|].
    split.
    + apply Hcont.
      * simpl.
        apply (rep_leaf _ found (set_point (set_nodeType nf Leaf) p)); auto.
        apply list_lookup_insert_eq. eapply lookup_lt_Some; eauto.
      * intros i Hi Hne. apply list_lookup_insert_ne. congruence.
      * intros i Hi _. set_solver.
    + split; [|exact Wf']. intros i Hi. apply Hfp. set_solver.
  - (* a leaf *)
    simpl in Hcs, Hws, Hss. unfold t_insert_result. simpl t_find.
    rewrite Hnf. simpl.
    destruct (coord_eq (m_point nf) p) eqn:Ec.
    + (* that holds the point: nothing changes *)
      simpl.
      eexists. split; [reflexivity|]. split; [|reflexivity].
      exists h, r, (fp ∪ {[found]}).
      split; [exact Hinv|]. split; [exact Hroot|]. split.
      * apply Hcont.
        -- simpl. rewrite Ec. exact Hrs.
        -- intros; reflexivity.
        -- intros i Hi _. set_solver.
      * split; [|exact Wf']. intros i Hi. apply Hfp. set_solver.
    + (* that holds another point: the collision loop *)
      apply coord_eq_false in Ec.
      rewrite Hty. simpl. rewrite P1, P2, P3, P4. simpl.
      destruct Hws as [_ He].
      destruct (Insert_loop_spec fuel k0 q h found nf (m_point nf) p
                  Hinv (Hfp _ Hin) Hnf P1 P2 P3 P4 Hss ltac:(lia) He Hcs Ec)
        as (pE & pS & q1 & h' & bE & bS & EL & Hd & HpE & HpS & Hinv1 & R1 & Pg1 &
            NE & NS & CE & CS & Fr & fs & Hrepf & Hfs).
      rewrite EL. simpl. rewrite NE. simpl.
      rewrite list_lookup_insert_ne by exact Hd. rewrite NS. simpl.
      eexists. split; [reflexivity|]. split; [|exact Pg1].
      exists h', r, (fp ∪ fs). simpl.
      split.
      { assert (Hi1 := pool_inv_update q1 h' pE _ (leaf_of (region_node bE pE) (m_point nf))
                         Hinv1 NE eq_refl).
        assert (NS' : m_pages (with_pages q1
                         (<[pE := leaf_of (region_node bE pE) (m_point nf)]> (m_pages q1)))
                      !! pS = Some (region_node bS pS)).
        { simpl. rewrite list_lookup_insert_ne by exact Hd. exact NS. }
        exact (pool_inv_update _ h' pS _ (leaf_of (region_node bS pS) p)
                 Hi1 NS' eq_refl). }
      split; [congruence|]. split.
      * apply Hcont.
        -- simpl. apply coord_eq_false in Ec. rewrite Ec.
           rewrite (t_split_fuel 64 fuel k0 (m_regionBounds nf) (m_point nf) p);
             auto; try lia.
           apply coord_eq_false. exact Ec.
        -- intros i Hi Hne. pose proof (Hfp i Hi).
           change (finish (m_pages q1) pE pS (region_node bE pE) (region_node bS pS)
                     (m_point nf) p !! i = m_pages q !! i).
           unfold finish. rewrite !list_lookup_insert_ne by lia. apply Fr; auto.
        -- intros i Hi Hi'. pose proof (Hfp i Hi').
           destruct (Hfs i Hi) as [->|G]; [reflexivity|lia].
      * split; [|exact Wf']. intros i Hi.
        apply elem_of_union in Hi as [Hi|Hi].
        -- pose proof (Hfp i Hi). lia.
        -- destruct (Hfs i Hi) as [->|G]; [|lia]. pose proof (Hfp _ Hin). lia.
  - contradiction.
Qed.

(** On a tree that holds the point, [Insert] reports the duplicate and
    returns the state it was given. *)
Lemma Insert_spec_dup fuel q t p :
  inv q t -> valid_coord p -> (64 <= fuel)%nat ->
  t_find t p = EFindResult.Success ->
  Insert fuel q p = Ok (EInsertResult.DuplicateEntry, q).
Proof.
  intros (h & r & fp & Hinv & Hroot & Hrep & Hfp & Hwf) Hv Hfuel Hfound.
  pose proof (full_bounds_Contains p Hv) as Hp.
  destruct (rep_lookup _ _ _ _ Hrep) as (nr & Hnr & Hbr).
  rewrite (wf_bounds _ _ _ Hwf) in Hbr.
  destruct (descent t (m_pages q) r fp 64 full_bounds p fuel Hrep Hwf sq_full Hp Hfuel)
    as (found & s & k0 & EF & ET & Hin & Hrs & Hts & _).
  rewrite Hfound in ET. rewrite <- ET in EF.
  unfold Insert. rewrite Hroot. simpl. rewrite Hnr. simpl. rewrite Hbr, Hp. simpl.
  rewrite EF. simpl.
  destruct s as [b0|b0 e|]; [discriminate ET| |contradiction].
  inversion Hrs as [|a' nf b' e' fp' Hnf Hb Hpt Hty P1 P2 P3 P4 Hfp'|]; subst.
  rewrite Hnf. simpl. simpl in ET.
  destruct (coord_eq (m_point nf) p); [reflexivity|discriminate ET].
Qed.

(** ** [Find] in the store *)

Lemma Find_spec fuel q t p :
  inv q t -> valid_coord p -> (64 <= fuel)%nat ->
  Find fuel q p = Ok (t_find t p).
Proof.
  intros (h & r & fp & Hinv & Hroot & Hrep & Hfp & Hwf) Hv Hfuel.
  pose proof (full_bounds_Contains p Hv) as Hp.
  destruct (rep_lookup _ _ _ _ Hrep) as (nr & Hnr & Hbr).
  rewrite (wf_bounds _ _ _ Hwf) in Hbr.
  destruct (descent t (m_pages q) r fp 64 full_bounds p fuel Hrep Hwf sq_full Hp Hfuel)
    as (found & s & k0 & EF & ET & _).
  unfold Find. rewrite Hroot. simpl. rewrite Hnr. simpl. rewrite Hbr, Hp. simpl.
  rewrite EF. simpl. rewrite ET. reflexivity.
Qed.

(** The node [CNode::Find] reports is a node of the store, and on
    [EFindResult.Success] it holds the point. *)
Lemma CNode_Find_found fuel : forall mem p0 point r pf,
  CNode_Find fuel mem p0 point = Ok (r, pf) ->
  exists a n, pf = Some a /\ mem !! a = Some n /\
              (r = EFindResult.Success -> coord_eq (m_point n) point = true).
Proof.
  induction fuel as [|fuel IH]; intros mem p0 point r pf H; simpl in H.
  - destruct p0 as [a|]; simpl in H; [|discriminate].
    destruct (mem !! a) as [n|] eqn:Ha; simpl in H; [|discriminate].
    destruct (is_null (m_pNorthWest n)); simpl in H; [|discriminate].
    destruct (EType_eqb (m_nodeType n) Region); simpl in H.
    + injection H as <- <-. exists a, n. repeat split; auto. discriminate.
    + destruct (EType_eqb (m_nodeType n) Leaf); simpl in H; [|discriminate].
      injection H as <- <-. exists a, n. repeat split; auto.
      destruct (coord_eq (m_point n) point); auto. discriminate.
  - destruct p0 as [a|]; simpl in H; [|discriminate].
    destruct (mem !! a) as [n|] eqn:Ha; simpl in H; [|discriminate].
    destruct (is_null (m_pNorthWest n)); simpl in H.
    + destruct (EType_eqb (m_nodeType n) Region); simpl in H.
      * injection H as <- <-. exists a, n. repeat split; auto. discriminate.
      * destruct (EType_eqb (m_nodeType n) Leaf); simpl in H; [|discriminate].
        injection H as <- <-. exists a, n. repeat split; auto.
        destruct (coord_eq (m_point n) point); auto. discriminate.
    + destruct (negb (is_null (m_pNorthEast n)) && negb (is_null (m_pSouthEast n))
                && negb (is_null (m_pSouthWest n))); simpl in H; [|discriminate].
      destruct (deref mem (m_pNorthWest n)) as [nw| | |]; simpl in H; try discriminate.
      destruct (Contains (m_regionBounds nw) point); [eapply IH; eauto|].
      destruct (deref mem (m_pNorthEast n)) as [ne| | |]; simpl in H; try discriminate.
      destruct (Contains (m_regionBounds ne) point); [eapply IH; eauto|].
      destruct (deref mem (m_pSouthEast n)) as [se| | |]; simpl in H; try discriminate.
      destruct (Contains (m_regionBounds se) point); [eapply IH; eauto|].
      destruct (deref mem (m_pSouthWest n)) as [sw| | |]; simpl in H; try discriminate.
      destruct (Contains (m_regionBounds sw) point); simpl in H; [|discriminate].
      eapply IH; eauto.
Qed.

(** ** [SanityCheck] in the store *)

Lemma wf_height t : forall k b, wf k b t -> (height t <= k)%nat.
Proof.
  induction t as [b0|b0 e|b0 nw IHnw ne IHne se IHse sw IHsw]; intros k b Hwf; simpl.
  - lia.
  - lia.
  - simpl in Hwf. destruct Hwf as [_ Hwf]. destruct k as [|k]; [contradiction|].
    destruct Hwf as (W1 & W2 & W3 & W4).
    specialize (IHnw _ _ W1). specialize (IHne _ _ W2).
    specialize (IHse _ _ W3). specialize (IHsw _ _ W4). lia.
Qed.

Lemma leafChild_rep mem a t fp n b line :
  rep mem a t fp -> mem !! a = Some n ->
  SanityCheck_leafChild b n line = t_leafChild b t line.
Proof.
  intros Hrep Hn. unfold SanityCheck_leafChild.
  inversion Hrep; subst;
    match goal with H : mem !! a = Some _ |- _ => rewrite Hn in H; injection H as <- end;
    match goal with H : m_nodeType _ = _ |- _ => rewrite H end; simpl.
  - reflexivity.
  - reflexivity.
  - reflexivity.
Qed.

Opaque SanityCheck_children.

Lemma SanityCheck_rep t : forall mem a fp fuel,
  rep mem a t fp -> (height t < fuel)%nat ->
  SanityCheckChild_Recursive fuel mem (Some a) = t_sanity t.
Proof.
  induction t as [b0|b0 e|b0 nw IHnw ne IHne se IHse sw IHsw];
    intros mem a fp fuel Hrep Hh; (destruct fuel as [|fuel]; [simpl in Hh; lia|]).
  - inversion Hrep; subst. simpl.
    match goal with H : mem !! a = Some _ |- _ => rewrite H end. simpl.
    unfold t_boundsCheck.
    repeat match goal with
           | |- context [assert ?c _] =>
               destruct c; simpl; [|reflexivity]
           end.
    match goal with H : m_nodeType _ = _ |- _ => rewrite H end.
    match goal with H : m_point _ = _ |- _ => rewrite H end. simpl.
    repeat match goal with H : _ = None |- _ => rewrite H end. reflexivity.
  - inversion Hrep; subst. simpl.
    match goal with H : mem !! a = Some _ |- _ => rewrite H end. simpl.
    unfold t_boundsCheck.
    repeat match goal with
           | |- context [assert ?c 390] => destruct c; simpl; [|reflexivity]
           | |- context [assert ?c 391] => destruct c; simpl; [|reflexivity]
           | |- context [assert ?c 392] => destruct c; simpl; [|reflexivity]
           | |- context [assert ?c 393] => destruct c; simpl; [|reflexivity]
           | |- context [assert ?c 394] => destruct c; simpl; [|reflexivity]
           end.
    match goal with H : m_nodeType _ = _ |- _ => rewrite H end.
    repeat match goal with H : _ = None |- _ => rewrite H end. simpl.
    reflexivity.
  - inversion Hrep as [| |a' n b' nw' ne' se' sw' a1 a2 a3 a4 f1 f2 f3 f4 fp'
                         Ha Hb Hpt Hty P1 P2 P3 P4 R1 R2 R3 R4 Hna
                         D12 D13 D14 D23 D24 D34 Hfp]; subst.
    simpl in Hh.
    destruct (rep_lookup _ _ _ _ R1) as (n1 & M1 & B1).
    destruct (rep_lookup _ _ _ _ R2) as (n2 & M2 & B2).
    destruct (rep_lookup _ _ _ _ R3) as (n3 & M3 & B3).
    destruct (rep_lookup _ _ _ _ R4) as (n4 & M4 & B4).
    simpl. rewrite Ha. simpl. unfold t_boundsCheck.
    repeat match goal with
           | |- context [assert ?c 390] => destruct c; simpl; [|reflexivity]
           | |- context [assert ?c 391] => destruct c; simpl; [|reflexivity]
           | |- context [assert ?c 392] => destruct c; simpl; [|reflexivity]
           | |- context [assert ?c 393] => destruct c; simpl; [|reflexivity]
           | |- context [assert ?c 394] => destruct c; simpl; [|reflexivity]
           end.
    rewrite Hty, Hpt, P1, P2, P3, P4. simpl.
    rewrite M1, M2, M3, M4. simpl. rewrite B1, B2, B3, B4.
    rewrite (leafChild_rep _ _ _ _ _ _ 452 R1 M1).
    rewrite (leafChild_rep _ _ _ _ _ _ 459 R2 M2).
    rewrite (leafChild_rep _ _ _ _ _ _ 466 R3 M3).
    rewrite (leafChild_rep _ _ _ _ _ _ 472 R4 M4).
    rewrite (IHnw mem a1 f1 fuel R1) by lia.
    rewrite (IHne mem a2 f2 fuel R2) by lia.
    rewrite (IHse mem a3 f3 fuel R3) by lia.
    rewrite (IHsw mem a4 f4 fuel R4) by lia.
    reflexivity.
Qed.

Transparent SanityCheck_children.

Lemma SanityCheck_spec fuel q t :
  inv q t -> (65 <= fuel)%nat -> SanityCheck fuel q = t_sanity t.
Proof.
  intros (h & r & fp & Hinv & Hroot & Hrep & Hfp & Hwf) Hfuel.
  unfold SanityCheck. rewrite Hroot.
  apply (SanityCheck_rep t _ _ fp); auto.
  pose proof (wf_height _ _ _ Hwf). lia.
Qed.

Lemma inv_wf q t : inv q t -> wf 64 full_bounds t.
Proof. intros (h & r & fp & _ & _ & _ & _ & Hwf). exact Hwf. Qed.

(** ** When [SanityCheck] passes *)

Lemma t_boundsCheck_sq k b : sq (S k) b -> t_boundsCheck b = Ok tt.
Proof.
  intros (Hx & Hy & Mx & My & Bx & By). pose proof (side_pos (S k)) as Hs.
  rewrite side_S in *. pose proof (side_pos k).
  unfold t_boundsCheck.
  assert (E0 : bounds_ne b (mkBounds CCoordinate_zero CCoordinate_zero) = true).
  { unfold bounds_ne, coord_ne. simpl.
    apply orb_true_iff. right. apply orb_true_iff. left.
    apply negb_true_iff. apply Z.eqb_neq. lia. }
  rewrite E0. simpl.
  replace (x (max b) >=? x (min b)) with true by (symmetry; apply Z.geb_le; lia).
  replace (y (max b) >=? y (min b)) with true by (symmetry; apply Z.geb_le; lia).
  replace (x (min b) <=? x (max b)) with true by (symmetry; apply Z.leb_le; lia).
  replace (y (min b) <=? y (max b)) with true by (symmetry; apply Z.leb_le; lia).
  reflexivity.
Qed.

Ltac bool_true :=
  first [ apply Contains_true; simpl; lia
        | apply Z.ltb_lt; simpl; lia
        | apply Z.eqb_eq; simpl; lia
        | apply Z.gtb_lt; simpl; lia
        | apply Z.geb_le; simpl; lia
        | apply Z.leb_le; simpl; lia ].

Ltac pass_asserts :=
  repeat match goal with
         | |- context [assert ?c ?l] =>
             let E := fresh "E" in
             assert (E : c = true) by bool_true; rewrite E; clear E; simpl
         end.

(** The children of a region of side four or more pass the checks of
    lines 413-448. *)
Lemma SanityCheck_children_pass k b :
  sq (S (S k)) b ->
  SanityCheck_children b (quadNW (side (S k)) b) (quadNE (side (S k)) b)
    (quadSE (side (S k)) b) (quadSW (side (S k)) b) = Ok tt.
Proof.
  intros (Hx & Hy & Mx & My & Bx & By).
  rewrite !side_S in *. pose proof (side_pos k).
  set (s := side k) in *.
  unfold SanityCheck_children, quadNW, quadNE, quadSE, quadSW. simpl.
  pass_asserts. reflexivity.
Qed.

(** The children of a region of side two fail the check of line 426. *)
Lemma SanityCheck_children_unit b :
  sq 1 b ->
  SanityCheck_children b (quadNW (side 0) b) (quadNE (side 0) b)
    (quadSE (side 0) b) (quadSW (side 0) b) = AssertFail 426.
Proof.
  intros (Hx & Hy & Mx & My & Bx & By).
  rewrite side_S, side_0 in *.
  unfold SanityCheck_children, quadNW, quadNE, quadSE, quadSW. simpl.
  pass_asserts.
  replace (y (min b) <? y (min b) + 1 - 1) with false
    by (symmetry; apply Z.ltb_ge; lia).
  reflexivity.
Qed.

Lemma t_leafChild_pass k b i t line :
  sq (S k) b -> wf k (quad i (side k) b) t -> t_leafChild b t line = Ok tt.
Proof.
  intros (Hx & Hy & Mx & My & Bx & By) Hwf.
  rewrite side_S in *. pose proof (side_pos k).
  destruct t as [b0|b0 e|]; simpl; try reflexivity.
  simpl in Hwf. destruct Hwf as [_ He]. apply Contains_true in He.
  replace (Contains b e) with true; [reflexivity|].
  symmetry. apply Contains_true.
  destruct i; unfold quad, quadNW, quadNE, quadSE, quadSW in He; simpl in He; lia.
Qed.

(** On a well-formed tree [SanityCheck] passes when no region of side two
    is split, and stops at line 426 otherwise. *)
Lemma t_sanity_level t : forall k b,
  wf (S k) b t -> sq (S k) b ->
  t_sanity t = if level_ok (S k) t then Ok tt else AssertFail 426.
Proof.
  induction t as [b0|b0 e|b0 nw IHnw ne IHne se IHse sw IHsw];
    intros k b Hwf Hsq; simpl in Hwf.
  - subst b0. simpl. apply (t_boundsCheck_sq k); exact Hsq.
  - destruct Hwf as [-> He]. simpl.
    rewrite (t_boundsCheck_sq k b Hsq). simpl. rewrite He. reflexivity.
  - destruct Hwf as [-> (W1 & W2 & W3 & W4)].
    cbn [t_sanity level_ok].
    rewrite (t_boundsCheck_sq k b Hsq). simpl.
    rewrite (wf_bounds _ _ _ W1), (wf_bounds _ _ _ W2),
            (wf_bounds _ _ _ W3), (wf_bounds _ _ _ W4).
    destruct k as [|k].
    + rewrite (SanityCheck_children_unit b Hsq). reflexivity.
    + rewrite (SanityCheck_children_pass k b Hsq). simpl.
      rewrite (t_leafChild_pass (S k) b QNW nw 452 Hsq W1). simpl.
      rewrite (IHnw k _ W1 (sq_quadNW _ _ Hsq)).
      destruct (level_ok (S k) nw); simpl; [|reflexivity].
      rewrite (t_leafChild_pass (S k) b QNE ne 459 Hsq W2). simpl.
      rewrite (IHne k _ W2 (sq_quadNE _ _ Hsq)).
      destruct (level_ok (S k) ne); simpl; [|reflexivity].
      rewrite (t_leafChild_pass (S k) b QSE se 466 Hsq W3). simpl.
      rewrite (IHse k _ W3 (sq_quadSE _ _ Hsq)).
      destruct (level_ok (S k) se); simpl; [|reflexivity].
      rewrite (t_leafChild_pass (S k) b QSW sw 472 Hsq W4). simpl.
      rewrite (IHsw k _ W4 (sq_quadSW _ _ Hsq)).
      destruct (level_ok (S k) sw); reflexivity.
Qed.

(** [SanityCheck] on a reachable tree either passes or stops at line 426,
    and it stops exactly when the tree has unit cells. *)
Lemma SanityCheck_level fuel q t :
  inv q t -> (65 <= fuel)%nat ->
  SanityCheck fuel q = if level_ok 64 t then Ok tt else AssertFail 426.
Proof.
  intros Hinv Hfuel. rewrite (SanityCheck_spec fuel q t Hinv Hfuel).
  apply (t_sanity_level t 63 full_bounds (inv_wf _ _ Hinv) sq_full).
Qed.

(** ** Reachable trees *)

Lemma CQuadTree_new_pageSize pageSize q :
  CQuadTree_new pageSize = Ok q -> (2 <= pageSize)%nat.
Proof.
  destruct pageSize as [|[|ps]]; intros H.
  - vm_compute in H. discriminate.
  - vm_compute in H. discriminate.
  - lia.
Qed.

Lemma inv_pool q t : inv q t -> exists h, pool_inv q h.
Proof. intros (h & r & fp & Hinv & _). eauto. Qed.

(** Every reachable state represents a well-formed tree. *)
Lemma reachable_inv q : reachable q -> exists t, inv q t.
Proof.
  induction 1 as [ps q Hnew|fuel q p r q' Hq [t IH] Hv Hf HI|q q' Hq [t IH] HR].
  - pose proof (CQuadTree_new_pageSize ps q Hnew) as Hps.
    destruct (CQuadTree_new_spec ps Hps) as (q0 & E & Hinv & _).
    rewrite Hnew in E. injection E as ->. eauto.
  - destruct (Insert_spec fuel q t p IH Hv Hf) as (q0 & E & Hinv & _).
    rewrite HI in E. injection E as _ ->. eauto.
  - destruct (inv_pool q t IH) as [h Hp].
    destruct (Reset_spec q h Hp) as (q0 & E & Hinv & _).
    rewrite HR in E. injection E as ->. eauto.
Qed.

Lemma fresh_inv q : fresh q -> inv q (TEmpty full_bounds).
Proof.
  intros [ps q0 Hnew|q0 q' Hq HR].
  - pose proof (CQuadTree_new_pageSize ps q0 Hnew) as Hps.
    destruct (CQuadTree_new_spec ps Hps) as (q1 & E & Hinv & _).
    rewrite Hnew in E. injection E as ->. exact Hinv.
  - destruct (reachable_inv q0 Hq) as [t Ht].
    destruct (inv_pool q0 t Ht) as [h Hp].
    destruct (Reset_spec q0 h Hp) as (q1 & E & Hinv & _).
    rewrite HR in E. injection E as ->. exact Hinv.
Qed.

Lemma fresh_reachable q : fresh q -> reachable q.
Proof.
  intros [ps q0 Hnew|q0 q' Hq HR].
  - eapply reach_new; eauto.
  - eapply reach_reset; eauto.
Qed.

Lemma Insert_all_spec fuel points : forall q t,
  inv q t -> Forall valid_coord points -> (64 <= fuel)%nat ->
  exists q',
    Insert_all fuel q points = Ok (t_results t points, q') /\
    inv q' (t_insert_all t points) /\ m_pageSize q' = m_pageSize q.
Proof.
  induction points as [|p rest IH]; intros q t Hinv Hv Hfuel; simpl.
  - exists q. auto.
  - inversion Hv as [|p' rest' Hp Hrest]; subst.
    destruct (Insert_spec fuel q t p Hinv Hp Hfuel) as (q1 & E1 & Hinv1 & P1).
    rewrite E1. simpl.
    destruct (IH q1 (t_insert t p) Hinv1 Hrest Hfuel) as (q2 & E2 & Hinv2 & P2).
    rewrite E2. simpl. exists q2. split; [reflexivity|].
    split; [exact Hinv2|congruence].
Qed.

Lemma t_insert_all_wf points : forall t,
  wf 64 full_bounds t -> Forall valid_coord points ->
  wf 64 full_bounds (t_insert_all t points).
Proof.
  induction points as [|p rest IH]; intros t Hwf Hv; simpl; [exact Hwf|].
  inversion Hv; subst. apply IH; auto.
  apply t_insert_wf; auto using sq_full, full_bounds_Contains.
Qed.

Lemma t_find_not_out t p : t_find t p <> EFindResult.OutOfRegionBounds.
Proof.
  induction t as [b0|b0 e|b0 nw IHnw ne IHne se IHse sw IHsw]; simpl.
  - discriminate.
  - destruct (coord_eq e p); discriminate.
  - destruct (which _ _ _ p); assumption.
Qed.

(** After a sequence of insertions the descent finds exactly the inserted
    points and the points found before. *)
Lemma t_insert_all_find points : forall t q,
  wf 64 full_bounds t -> Forall valid_coord points ->
  t_find (t_insert_all t points) q =
  if existsb (fun p => coord_eq p q) points then EFindResult.Success else t_find t q.
Proof.
  induction points as [|p rest IH]; intros t q Hwf Hv; simpl; [reflexivity|].
  inversion Hv as [|p' rest' Hp Hrest]; subst.
  rewrite IH by (auto; apply t_insert_wf; auto using sq_full, full_bounds_Contains).
  rewrite (t_insert_find t 64 full_bounds p q Hwf sq_full)
    by auto using full_bounds_Contains.
  destruct (coord_eq p q); simpl; [|reflexivity].
  destruct (existsb _ rest); reflexivity.
Qed.

Lemma existsb_coord_eq points q :
  existsb (fun p => coord_eq p q) points = true <-> In q points.
Proof.
  rewrite existsb_exists. split.
  - intros (p & Hin & ->%coord_eq_true). exact Hin.
  - intros Hin. exists q. split; [exact Hin|apply coord_eq_refl].
Qed.

(** Inserting pairwise distinct points that the tree does not hold
    succeeds every time. *)
Lemma t_results_distinct points : forall t,
  wf 64 full_bounds t -> Forall valid_coord points -> List.NoDup points ->
  (forall p, In p points -> t_find t p = EFindResult.NoEntry) ->
  t_results t points = repeat EInsertResult.Success (length points).
Proof.
  induction points as [|p rest IH]; intros t Hwf Hv Hnd Hnew; simpl; [reflexivity|].
  inversion Hv as [|p' rest' Hp Hrest]; subst.
  inversion Hnd as [|p' rest' Hnin Hnd']; subst.
  unfold t_insert_result at 1. rewrite (Hnew p) by (left; reflexivity).
  f_equal. apply IH; auto.
  - apply t_insert_wf; auto using sq_full, full_bounds_Contains.
  - intros q Hq.
    rewrite (t_insert_find t 64 full_bounds p q Hwf sq_full)
      by auto using full_bounds_Contains.
    destruct (coord_eq p q) eqn:E.
    + apply coord_eq_true in E. subst q. contradiction.
    + apply Hnew. right. exact Hq.
Qed.

(** ** Unit cells and the grid of 2 x 2 cells *)

Lemma aligned_full : aligned 64 full_bounds.
Proof. exists 0, 0. split; reflexivity. Qed.

Lemma aligned_quad i k b : aligned (S k) b -> aligned k (quad i (side k) b).
Proof.
  intros (cx & cy & Hx & Hy). rewrite side_S in Hx, Hy.
  destruct i; unfold aligned, quad, quadNW, quadNE, quadSE, quadSW; simpl.
  - exists (2 * cx), (2 * cy). rewrite Hx, Hy. split; lia.
  - exists (2 * cx + 1), (2 * cy). rewrite Hx, Hy. split; lia.
  - exists (2 * cx + 1), (2 * cy + 1). rewrite Hx, Hy. split; lia.
  - exists (2 * cx), (2 * cy + 1). rewrite Hx, Hy. split; lia.
Qed.

Lemma same_block_sym p q : same_block p q = same_block q p.
Proof.
  unfold same_block. rewrite (Z.eqb_sym (x p / 2)), (Z.eqb_sym (y p / 2)).
  reflexivity.
Qed.

Lemma same_block_true p q :
  same_block p q = true <-> x p / 2 = x q / 2 /\ y p / 2 = y q / 2.
Proof. unfold same_block. rewrite andb_true_iff, !Z.eqb_eq. tauto. Qed.

(** A square of side two or more holds whole cells. *)
Lemma same_block_Contains k b p q :
  sq (S k) b -> aligned (S k) b ->
  Contains b p = true -> same_block p q = true -> Contains b q = true.
Proof.
  intros (Hx & Hy & Mx & My & Bx & By) (cx & cy & Ax & Ay) Hp Hs.
  rewrite side_S in *. pose proof (side_pos k) as Hk.
  apply Contains_true in Hp. apply same_block_true in Hs. destruct Hs as [Sx Sy].
  apply Contains_true.
  replace (cx * (2 * side k)) with (2 * (cx * side k)) in Ax by lia.
  replace (cy * (2 * side k)) with (2 * (cy * side k)) in Ay by lia.
  set (Mx' := cx * side k) in *. set (My' := cy * side k) in *.
  pose proof (Z.div_mod (x p) 2 ltac:(lia)).
  pose proof (Z.mod_pos_bound (x p) 2 ltac:(lia)).
  pose proof (Z.div_mod (x q) 2 ltac:(lia)).
  pose proof (Z.mod_pos_bound (x q) 2 ltac:(lia)).
  pose proof (Z.div_mod (y p) 2 ltac:(lia)).
  pose proof (Z.mod_pos_bound (y p) 2 ltac:(lia)).
  pose proof (Z.div_mod (y q) 2 ltac:(lia)).
  pose proof (Z.mod_pos_bound (y q) 2 ltac:(lia)).
  lia.
Qed.

(** Two points of a square of side two share its cell. *)
Lemma sq_1_same_block b p q :
  sq 1 b -> aligned 1 b ->
  Contains b p = true -> Contains b q = true -> same_block p q = true.
Proof.
  intros (Hx & Hy & Mx & My & Bx & By) (cx & cy & Ax & Ay) Hp Hq.
  rewrite side_S, side_0 in *.
  apply Contains_true in Hp, Hq. apply same_block_true.
  pose proof (Z.div_mod (x p) 2 ltac:(lia)).
  pose proof (Z.mod_pos_bound (x p) 2 ltac:(lia)).
  pose proof (Z.div_mod (x q) 2 ltac:(lia)).
  pose proof (Z.mod_pos_bound (x q) 2 ltac:(lia)).
  pose proof (Z.div_mod (y p) 2 ltac:(lia)).
  pose proof (Z.mod_pos_bound (y p) 2 ltac:(lia)).
  pose proof (Z.div_mod (y q) 2 ltac:(lia)).
  pose proof (Z.mod_pos_bound (y q) 2 ltac:(lia)).
  lia.
Qed.

(** The quadrants are disjoint: the descent picks the one that contains
    the point. *)
Lemma which_unique i k b p :
  sq (S k) b -> Contains (quad i (side k) b) p = true ->
  which (quadNW (side k) b) (quadNE (side k) b) (quadSE (side k) b) p = i.
Proof.
  intros (Hx & Hy & Mx & My & Bx & By) Hp.
  rewrite side_S in *. pose proof (side_pos k) as Hk.
  apply Contains_true in Hp. unfold which.
  destruct (Contains (quadNW (side k) b) p) eqn:E1.
  { apply Contains_true in E1.
    destruct i; unfold quad, quadNW, quadNE, quadSE, quadSW in *; simpl in *;
      try reflexivity; lia. }
  destruct (Contains (quadNE (side k) b) p) eqn:E2.
  { apply Contains_true in E2. apply Contains_false in E1.
    destruct i; unfold quad, quadNW, quadNE, quadSE, quadSW in *; simpl in *;
      try reflexivity; lia. }
  destruct (Contains (quadSE (side k) b) p) eqn:E3.
  { apply Contains_true in E3. apply Contains_false in E1, E2.
    destruct i; unfold quad, quadNW, quadNE, quadSE, quadSW in *; simpl in *;
      try reflexivity; lia. }
  apply Contains_false in E1, E2, E3.
  destruct i; unfold quad, quadNW, quadNE, quadSE, quadSW in *; simpl in *;
    try reflexivity; lia.
Qed.

Lemma quad_within i k b p :
  sq (S k) b -> Contains (quad i (side k) b) p = true -> Contains b p = true.
Proof.
  intros (Hx & Hy & Mx & My & Bx & By) Hp.
  rewrite side_S in *. pose proof (side_pos k) as Hk.
  apply Contains_true in Hp. apply Contains_true.
  destruct i; unfold quad, quadNW, quadNE, quadSE, quadSW in *; simpl in *; lia.
Qed.

(** ** The points of a tree *)

Lemma points_in_bounds t : forall k b e,
  wf k b t -> sq k b -> In e (points_of t) -> Contains b e = true.
Proof.
  induction t as [b0|b0 e0|b0 nw IHnw ne IHne se IHse sw IHsw];
    intros k b e Hwf Hsq Hin; simpl in *.
  - contradiction.
  - destruct Hwf as [-> He]. destruct Hin as [<-|[]]. exact He.
  - destruct Hwf as [-> Hwf]. destruct k as [|k]; [contradiction|].
    destruct Hwf as (W1 & W2 & W3 & W4).
    rewrite !in_app_iff in Hin. destruct Hin as [H|[H|[H|H]]].
    + apply (quad_within QNW k b e Hsq). eapply IHnw; eauto using sq_quadNW.
    + apply (quad_within QNE k b e Hsq). eapply IHne; eauto using sq_quadNE.
    + apply (quad_within QSE k b e Hsq). eapply IHse; eauto using sq_quadSE.
    + apply (quad_within QSW k b e Hsq). eapply IHsw; eauto using sq_quadSW.
Qed.

(** The descent finds exactly the points of the tree. *)
Lemma t_find_points t : forall k b e,
  wf k b t -> sq k b ->
  (In e (points_of t) <-> t_find t e = EFindResult.Success).
Proof.
  induction t as [b0|b0 e0|b0 nw IHnw ne IHne se IHse sw IHsw];
    intros k b e Hwf Hsq; simpl in *.
  - split; [contradiction|discriminate].
  - destruct (coord_eq e0 e) eqn:E.
    + apply coord_eq_true in E. subst. split; auto.
    + apply coord_eq_false in E. split; [intros [H|[]]; congruence|discriminate].
  - destruct Hwf as [-> Hwf]. destruct k as [|k]; [contradiction|].
    destruct Hwf as (W1 & W2 & W3 & W4).
    rewrite (wf_bounds _ _ _ W1), (wf_bounds _ _ _ W2), (wf_bounds _ _ _ W3).
    pose proof (points_in_bounds nw k _ e W1 (sq_quadNW _ _ Hsq)) as B1.
    pose proof (points_in_bounds ne k _ e W2 (sq_quadNE _ _ Hsq)) as B2.
    pose proof (points_in_bounds se k _ e W3 (sq_quadSE _ _ Hsq)) as B3.
    pose proof (points_in_bounds sw k _ e W4 (sq_quadSW _ _ Hsq)) as B4.
    pose proof (which_unique QNW k b e Hsq) as U1.
    pose proof (which_unique QNE k b e Hsq) as U2.
    pose proof (which_unique QSE k b e Hsq) as U3.
    pose proof (which_unique QSW k b e Hsq) as U4.
    simpl in U1, U2, U3, U4.
    rewrite !in_app_iff.
    rewrite (IHnw k _ e W1 (sq_quadNW _ _ Hsq)) in *.
    rewrite (IHne k _ e W2 (sq_quadNE _ _ Hsq)) in *.
    rewrite (IHse k _ e W3 (sq_quadSE _ _ Hsq)) in *.
    rewrite (IHsw k _ e W4 (sq_quadSW _ _ Hsq)) in *.
    destruct (which _ _ _ e) eqn:W; split; auto;
      intros [H|[H|[H|H]]]; auto;
      first [ specialize (U1 (B1 H)) | specialize (U2 (B2 H))
            | specialize (U3 (B3 H)) | specialize (U4 (B4 H)) ];
      discriminate.
Qed.

(** ** Which insertions create unit cells *)

Lemma level_ok_fill_leaves k again qe qp e p i c :
  quadrant_eqb qe qp = false ->
  level_ok k (fill again qe qp e p i c) = true.
Proof.
  intros E. unfold fill. rewrite E.
  destruct (quadrant_eqb i qe), (quadrant_eqb i qp); reflexivity.
Qed.

Lemma level_ok_fill_again k again qe e p i c :
  level_ok k (fill again qe qe e p i c) =
  if quadrant_eqb i qe then level_ok k (again c) else true.
Proof.
  unfold fill. rewrite quadrant_eqb_refl.
  destruct (quadrant_eqb i qe); reflexivity.
Qed.

(** The collision loop splits a region of side two exactly when the two
    points share a 2 x 2 cell. *)
Lemma t_split_level n : forall k b e p,
  sq (S k) b -> aligned (S k) b ->
  Contains b e = true -> Contains b p = true -> e <> p -> (S k <= n)%nat ->
  level_ok (S k) (t_split n b e p) = negb (same_block e p).
Proof.
  induction n as [|n IH]; intros k b e p Hsq Hal He Hp Hne Hn; [lia|].
  rewrite t_split_S, (SplitBounds_sq k b Hsq). cbv zeta.
  pose proof (which_quad k b e Hsq He) as We.
  pose proof (which_quad k b p Hsq Hp) as Wp.
  set (qe := which _ _ _ e) in *. set (qp := which _ _ _ p) in *.
  destruct k as [|k].
  - cbn [level_ok]. rewrite (sq_1_same_block b e p Hsq Hal He Hp). reflexivity.
  - cbn [level_ok].
    destruct (quadrant_eqb qe qp) eqn:Eq.
    + apply quadrant_eqb_eq in Eq. rewrite <- Eq in *.
      rewrite !level_ok_fill_again.
      assert (Hrec : level_ok (S k) (t_split n (quad qe (side (S k)) b) e p)
                     = negb (same_block e p)).
      { apply IH; auto using sq_quad, aligned_quad. lia. }
      destruct qe; simpl in Hrec |- *; rewrite Hrec;
        destruct (negb (same_block e p)); reflexivity.
    + rewrite !level_ok_fill_leaves by exact Eq. simpl.
      destruct (same_block e p) eqn:Es; [|reflexivity].
      exfalso.
      pose proof (same_block_Contains k _ e p (sq_quad qe _ _ Hsq)
                    (aligned_quad qe _ _ Hal) We Es) as Hpe.
      pose proof (which_unique qe (S k) b p Hsq Hpe) as Hu.
      fold qp in Hu. rewrite Hu, quadrant_eqb_refl in Eq. discriminate.
Qed.

Lemma forallb_true_In {A} (f : A -> bool) l :
  (forall a, In a l -> f a = true) -> forallb f l = true.
Proof. intros H. apply forallb_forall. exact H. Qed.

(** Points of another quadrant do not share a cell with [p]. *)
Lemma other_quadrant_blocks i j k b t p :
  sq (S (S k)) b -> aligned (S (S k)) b ->
  wf (S k) (quad i (side (S k)) b) t ->
  Contains (quad j (side (S k)) b) p = true -> i <> j ->
  forallb (fun e => negb (same_block e p)) (points_of t) = true.
Proof.
  intros Hsq Hal Hwf Hp Hij. apply forallb_true_In. intros e He.
  destruct (same_block e p) eqn:Es; [|reflexivity]. exfalso. apply Hij.
  pose proof (points_in_bounds t (S k) _ e Hwf (sq_quad i _ _ Hsq) He) as Hei.
  rewrite same_block_sym in Es.
  pose proof (same_block_Contains k _ p e (sq_quad j _ _ Hsq)
                (aligned_quad j _ _ Hal) Hp Es) as Hej.
  rewrite <- (which_unique i (S k) b e Hsq Hei).
  apply (which_unique j (S k) b e Hsq Hej).
Qed.

(** Inserting a new point keeps the tree free of unit cells exactly when
    no point of the tree shares a 2 x 2 cell with it. *)
Lemma t_insert_level t : forall k b p,
  wf (S k) b t -> sq (S k) b -> aligned (S k) b ->
  Contains b p = true -> (S k <= 64)%nat -> ~ In p (points_of t) ->
  level_ok (S k) (t_insert t p) =
  level_ok (S k) t && forallb (fun e => negb (same_block e p)) (points_of t).
Proof.
  induction t as [b0|b0 e|b0 nw IHnw ne IHne se IHse sw IHsw];
    intros k b p Hwf Hsq Hal Hp Hk Hnin; simpl in Hwf.
  - reflexivity.
  - destruct Hwf as [-> He]. simpl in Hnin.
    assert (Hne : e <> p) by tauto.
    simpl t_insert. apply coord_eq_false in Hne. rewrite Hne.
    apply coord_eq_false in Hne.
    rewrite (t_split_level 64 k b e p Hsq Hal He Hp Hne Hk).
    simpl. rewrite andb_true_r. reflexivity.
  - destruct Hwf as [-> (W1 & W2 & W3 & W4)].
    simpl t_insert.
    rewrite (wf_bounds _ _ _ W1), (wf_bounds _ _ _ W2), (wf_bounds _ _ _ W3).
    pose proof (which_sq k b p Hsq Hp) as Hw.
    destruct k as [|k].
    { destruct (which _ _ _ p); reflexivity. }
    simpl points_of in Hnin |- *. rewrite !in_app_iff in Hnin.
    rewrite !forallb_app.
    pose proof (fun i t => other_quadrant_blocks i QNW k b t p Hsq Hal) as O1.
    pose proof (fun i t => other_quadrant_blocks i QNE k b t p Hsq Hal) as O2.
    pose proof (fun i t => other_quadrant_blocks i QSE k b t p Hsq Hal) as O3.
    pose proof (fun i t => other_quadrant_blocks i QSW k b t p Hsq Hal) as O4.
    destruct (which _ _ _ p); cbn [level_ok].
    + rewrite (IHnw k _ p W1 (sq_quadNW _ _ Hsq) (aligned_quad QNW _ _ Hal) Hw)
        by (try lia; tauto).
      rewrite (O1 QNE ne W2 Hw), (O1 QSE se W3 Hw), (O1 QSW sw W4 Hw) by discriminate.
      destruct (level_ok (S k) nw), (level_ok (S k) ne),
               (level_ok (S k) se), (level_ok (S k) sw),
               (forallb _ (points_of nw)); reflexivity.
    + rewrite (IHne k _ p W2 (sq_quadNE _ _ Hsq) (aligned_quad QNE _ _ Hal) Hw)
        by (try lia; tauto).
      rewrite (O2 QNW nw W1 Hw), (O2 QSE se W3 Hw), (O2 QSW sw W4 Hw) by discriminate.
      destruct (level_ok (S k) nw), (level_ok (S k) ne),
               (level_ok (S k) se), (level_ok (S k) sw),
               (forallb _ (points_of ne)); reflexivity.
    + rewrite (IHse k _ p W3 (sq_quadSE _ _ Hsq) (aligned_quad QSE _ _ Hal) Hw)
        by (try lia; tauto).
      rewrite (O3 QNW nw W1 Hw), (O3 QNE ne W2 Hw), (O3 QSW sw W4 Hw) by discriminate.
      destruct (level_ok (S k) nw), (level_ok (S k) ne),
               (level_ok (S k) se), (level_ok (S k) sw),
               (forallb _ (points_of se)); reflexivity.
    + rewrite (IHsw k _ p W4 (sq_quadSW _ _ Hsq) (aligned_quad QSW _ _ Hal) Hw)
        by (try lia; tauto).
      rewrite (O4 QNW nw W1 Hw), (O4 QNE ne W2 Hw), (O4 QSE se W3 Hw) by discriminate.
      destruct (level_ok (S k) nw), (level_ok (S k) ne),
               (level_ok (S k) se), (level_ok (S k) sw),
               (forallb _ (points_of sw)); reflexivity.
Qed.

Lemma forallb_equiv {A} (f : A -> bool) l1 l2 :
  (forall a, In a l1 <-> In a l2) -> forallb f l1 = forallb f l2.
Proof.
  intros H. apply eq_true_iff_eq. rewrite !forallb_forall.
  split; intros Hf a Ha; apply Hf, H, Ha.
Qed.

Lemma points_t_insert t p e :
  wf 64 full_bounds t -> valid_coord p ->
  (In e (points_of (t_insert t p)) <-> e = p \/ In e (points_of t)).
Proof.
  intros Hwf Hv.
  assert (Hwf' : wf 64 full_bounds (t_insert t p))
    by (apply t_insert_wf; auto using sq_full, full_bounds_Contains).
  rewrite (t_find_points _ 64 full_bounds e Hwf' sq_full).
  rewrite (t_find_points _ 64 full_bounds e Hwf sq_full).
  rewrite (t_insert_find t 64 full_bounds p e Hwf sq_full)
    by auto using full_bounds_Contains.
  destruct (coord_eq p e) eqn:E.
  - apply coord_eq_true in E. subst. tauto.
  - apply coord_eq_false in E. split; [tauto|]. intros [->|H]; [congruence|exact H].
Qed.

(** A sequence of insertions of new points leaves the tree free of unit
    cells exactly when it was so before and no inserted point shares a
    2 x 2 cell with an earlier point. *)
Lemma t_insert_all_level l : forall t acc,
  wf 64 full_bounds t -> (forall e, In e (points_of t) <-> In e acc) ->
  Forall valid_coord l -> List.NoDup l -> (forall p, In p l -> ~ In p acc) ->
  level_ok 64 (t_insert_all t l) = level_ok 64 t && blocks_ok acc l.
Proof.
  induction l as [|p rest IH]; intros t acc Hwf Hpts Hv Hnd Hnew;
    unfold t_insert_all in *; cbn [fold_left blocks_ok].
  - rewrite andb_true_r. reflexivity.
  - inversion Hv as [|p' rest' Hp Hrest]; subst.
    inversion Hnd as [|p' rest' Hnin Hnd']; subst.
    assert (Hwf' : wf 64 full_bounds (t_insert t p))
      by (apply t_insert_wf; auto using sq_full, full_bounds_Contains).
    rewrite (IH (t_insert t p) (p :: acc)); auto.
    + rewrite (t_insert_level t 63 full_bounds p Hwf sq_full aligned_full
                 (full_bounds_Contains p Hp) ltac:(lia)).
      * rewrite (forallb_equiv _ (points_of t) acc Hpts). symmetry. apply andb_assoc.
      * intros Hin. apply (Hnew p); [left; reflexivity|]. apply Hpts. exact Hin.
    + intros e. rewrite (points_t_insert t p e Hwf Hp). simpl. rewrite Hpts.
      split; intros [H|H]; auto.
    + intros q Hq [->|Hin]; [contradiction|].
      apply (Hnew q); [right; exact Hq|exact Hin].
Qed.

Lemma blocks_ok_spec l : forall acc,
  blocks_ok acc l = true <->
  (forall e p, In e acc -> In p l -> same_block e p = false) /\
  ForallOrdPairs (fun a b => same_block a b = false) l.
Proof.
  induction l as [|p rest IH]; intros acc; simpl.
  - split; [intros _; split; [intros e p _ []|constructor]|reflexivity].
  - rewrite andb_true_iff, forallb_forall, IH. split.
    + intros (Hacc & Hrest & Hfop). split.
      * intros e q He [<-|Hq].
        -- apply negb_true_iff. apply Hacc. exact He.
        -- apply Hrest; [right; exact He|exact Hq].
      * constructor; [|exact Hfop].
        apply List.Forall_forall. intros q Hq. apply Hrest; [left; reflexivity|exact Hq].
    + intros (Hacc & Hfop). inversion Hfop as [|p' rest' Hall Hfop']; subst.
      split; [|split].
      * intros e He. apply negb_true_iff. apply Hacc; [exact He|left; reflexivity].
      * intros e q [<-|He] Hq.
        -- rewrite List.Forall_forall in Hall. apply Hall. exact Hq.
        -- apply Hacc; [exact He|right; exact Hq].
      * exact Hfop'.
Qed.

(** [blocks_ok [] l] says that no two different points of [l] share a
    2 x 2 cell. *)
Lemma blocks_ok_pairwise l :
  List.NoDup l ->
  (blocks_ok [] l = true <->
   forall p q, In p l -> In q l -> p <> q -> same_block p q = false).
Proof.
  intros Hnd. rewrite blocks_ok_spec. split.
  - intros [_ Hfop] p q Hp Hq Hne.
    destruct (ForallOrdPairs_In Hfop p q Hp Hq) as [E|[H|H]].
    + contradiction.
    + exact H.
    + rewrite same_block_sym. exact H.
  - intros Hall. split; [intros e p []|].
    induction Hnd as [|p rest Hnin Hnd IH]; [constructor|].
    constructor.
    + apply List.Forall_forall. intros q Hq. apply Hall.
      * left; reflexivity.
      * right; exact Hq.
      * intros ->. contradiction.
    + apply IH. intros a c Ha Hc. apply Hall; right; assumption.
Qed.

(** After the insertion of pairwise distinct points into a fresh tree,
    [SanityCheck] passes when no two of the points share a 2 x 2 cell,
    and stops at the assertion of line 426 otherwise. *)
Lemma SanityCheck_blocks fuel q pts :
  fresh q -> Forall valid_coord pts -> List.NoDup pts ->
  (65 <= fuel)%nat ->
  exists rs q',
    Insert_all fuel q pts = Ok (rs, q') /\
    SanityCheck fuel q' = if blocks_ok [] pts then Ok tt else AssertFail 426.
Proof.
  intros Hfresh Hv Hnd Hfuel.
  pose proof (fresh_inv q Hfresh) as Hinv.
  destruct (Insert_all_spec fuel pts q _ Hinv Hv ltac:(lia)) as (q' & E & Hinv' & _).
  eexists. exists q'. split; [exact E|].
  rewrite (SanityCheck_level fuel q' _ Hinv' Hfuel).
  rewrite (t_insert_all_level pts (TEmpty full_bounds) []); auto.
  reflexivity.
Qed.

(** * The properties of the specification *)

Lemma tree4_new : CQuadTree_new 4 = Ok tree4.
Proof. reflexivity. Qed.

Lemma valid_coord_intro a b :
  (0 <=? a) && (a <? TScalar_modulus) && (0 <=? b) && (b <? TScalar_modulus) = true ->
  valid_coord (mkCoordinate a b).
Proof.
  rewrite !andb_true_iff, !Z.leb_le, !Z.ltb_lt. unfold valid_coord, in_range. simpl.
  tauto.
Qed.

(** C1 (round trip): after construction or [Reset], inserting pairwise
    distinct coordinates succeeds every time; afterwards [Find] returns
    [EFindResult.Success] on every inserted coordinate and
    [EFindResult.NoEntry] on every other coordinate. *)
Theorem round_trip fuel q points :
  fresh q -> Forall valid_coord points -> List.NoDup points ->
  (64 <= fuel)%nat ->
  exists q',
    Insert_all fuel q points
      = Ok (repeat EInsertResult.Success (length points), q') /\
    forall p, valid_coord p ->
      (In p points -> Find fuel q' p = Ok EFindResult.Success) /\
      (~ In p points -> Find fuel q' p = Ok EFindResult.NoEntry).
Proof.
  intros Hfresh Hv Hnd Hfuel.
  pose proof (fresh_inv q Hfresh) as Hinv.
  destruct (Insert_all_spec fuel points q _ Hinv Hv Hfuel) as (q' & E & Hinv' & _).
  exists q'. split.
  - rewrite E. f_equal. f_equal.
    apply t_results_distinct; auto. reflexivity.
  - intros p Hp.
    rewrite (Find_spec fuel q' _ p Hinv' Hp Hfuel).
    rewrite (t_insert_all_find points _ p) by (auto; reflexivity).
    split; intros Hin.
    + apply existsb_coord_eq in Hin. rewrite Hin. reflexivity.
    + destruct (existsb _ points) eqn:E'; [|reflexivity].
      apply existsb_coord_eq in E'. contradiction.
Qed.

Lemma round_trip_witness :
  exists q',
    Insert_all 64 tree4 [mkCoordinate 3 4; mkCoordinate 0 0; mkCoordinate 3 5] =
      Ok (repeat EInsertResult.Success 3, q') /\
    forall p, valid_coord p ->
      (In p [mkCoordinate 3 4; mkCoordinate 0 0; mkCoordinate 3 5] ->
       Find 64 q' p = Ok EFindResult.Success) /\
      (~ In p [mkCoordinate 3 4; mkCoordinate 0 0; mkCoordinate 3 5] ->
       Find 64 q' p = Ok EFindResult.NoEntry).
Proof.
  apply (round_trip 64 tree4 [mkCoordinate 3 4; mkCoordinate 0 0; mkCoordinate 3 5]).
  - apply (fresh_new 4). reflexivity.
  - repeat constructor; apply valid_coord_intro; reflexivity.
  - repeat constructor; simpl; intuition discriminate.
  - lia.
Defined.

(** C2 (construction with any positive page size), refuted by the code at
    page size 1: [AllocatePage] succeeds, but the only slot of the page
    it makes has no successor, so the constructor stops at the assertion
    of line 531 of [AllocateNode]; page size 2 is the least that works. *)
Theorem constructor_pageSize_1_asserts :
  CQuadTree_new 1 = AssertFail 531 /\
  (exists q1 n,
     AllocatePage (mkTree None 1 None None []) = Ok q1 /\
     m_pPoolHead q1 = Some 0%nat /\
     m_pages q1 !! 0%nat = Some n /\ pPoolNext n = None /\
     AllocateNode (mkTree None 1 None None []) = AssertFail 531) /\
  (exists q, CQuadTree_new 2 = Ok q).
Proof.
  split; [reflexivity|]. split.
  - eexists. eexists. split; [reflexivity|]. split; [reflexivity|].
    split; [reflexivity|]. split; reflexivity.
  - eexists. reflexivity.
Qed.

(** With pages of two or more slots the constructor, [Reset] and the
    allocator never stop at an assertion. *)
Lemma allocation_succeeds pageSize :
  (2 <= pageSize)%nat ->
  exists q, CQuadTree_new pageSize = Ok q /\
    forall q', reachable q' ->
      (exists p q'', AllocateNode q' = Ok (Some p, q'')) /\
      (exists q'', Reset q' = Ok q'').
Proof.
  intros Hps. destruct (CQuadTree_new_spec pageSize Hps) as (q & E & _).
  exists q. split; [exact E|]. intros q' Hq'.
  destruct (reachable_inv q' Hq') as [t Ht].
  destruct (inv_pool q' t Ht) as [h Hp]. split.
  - destruct (AllocateNode_spec q' h Hp) as (q'' & E' & _). eauto.
  - destruct (Reset_spec q' h Hp) as (q'' & E' & _). eauto.
Qed.

(** C3 (duplicate rejection): when [Find] reports the coordinate as
    present, [Insert] returns [EInsertResult.DuplicateEntry] and the tree and the pool
    are left exactly as they were. *)
Theorem Insert_duplicate fuel q point :
  Find fuel q point = Ok EFindResult.Success ->
  Insert fuel q point = Ok (EInsertResult.DuplicateEntry, q).
Proof.
  intros H. unfold Find in H. unfold Insert.
  destruct (negb (is_null (m_pTreeRoot q))); simpl in *; [|discriminate].
  destruct (deref (m_pages q) (m_pTreeRoot q)) as [root| | |]; simpl in *;
    try discriminate.
  destruct (Contains (m_regionBounds root) point); simpl in *; [|discriminate].
  destruct (CNode_Find fuel (m_pages q) (m_pTreeRoot q) point)
    as [[r pf]| | |] eqn:EF; simpl in *; try discriminate.
  injection H as ->.
  destruct (CNode_Find_found _ _ _ _ _ _ EF) as (a & n & -> & Ha & Hpt).
  simpl. rewrite Ha. simpl. rewrite (Hpt eq_refl). reflexivity.
Qed.

(** Inserting a coordinate twice: the second call reports the duplicate
    and changes nothing. *)
Lemma Insert_twice fuel q point r q1 :
  reachable q -> valid_coord point -> (64 <= fuel)%nat ->
  Insert fuel q point = Ok (r, q1) ->
  Insert fuel q1 point = Ok (EInsertResult.DuplicateEntry, q1).
Proof.
  intros Hq Hv Hfuel HI.
  destruct (reachable_inv q Hq) as [t Ht].
  destruct (Insert_spec fuel q t point Ht Hv Hfuel) as (q' & E & Hinv & _).
  rewrite HI in E. injection E as _ ->.
  apply (Insert_spec_dup fuel q' _ point Hinv Hv Hfuel).
  rewrite (t_insert_find t 64 full_bounds point point (inv_wf _ _ Ht) sq_full)
    by auto using full_bounds_Contains.
  rewrite coord_eq_refl. reflexivity.
Qed.

Lemma Insert_duplicate_witness :
  Find 64 tree4_origin (mkCoordinate 0 0) = Ok EFindResult.Success /\
  Insert 64 tree4_origin (mkCoordinate 0 0)
    = Ok (EInsertResult.DuplicateEntry, tree4_origin).
Proof.
  split; [reflexivity|]. apply (Insert_duplicate 64 tree4_origin (mkCoordinate 0 0)).
  reflexivity.
Defined.

(** C4 (split correctness): for bounds with [min < max] in both dimensions,
    the four child bounds [Split] computes are each well ordered, each
    inside the parent, pairwise disjoint, and together they cover the
    parent. *)
Theorem Split_partition b :
  valid_coord (min b) -> valid_coord (max b) ->
  x (min b) < x (max b) -> y (min b) < y (max b) ->
  let '(nw, ne, se, sw) := SplitBounds b in
  (well_ordered nw /\ well_ordered ne /\ well_ordered se /\ well_ordered sw) /\
  (within nw b /\ within ne b /\ within se b /\ within sw b) /\
  (disjoint_bounds nw ne /\ disjoint_bounds nw se /\ disjoint_bounds nw sw /\
   disjoint_bounds ne se /\ disjoint_bounds ne sw /\ disjoint_bounds se sw) /\
  (forall p, Contains b p = true ->
     Contains nw p = true \/ Contains ne p = true \/
     Contains se p = true \/ Contains sw p = true).
Proof.
  intros Hmin Hmax Hx Hy.
  destruct (SplitBounds_general b Hmin Hmax Hx Hy) as (cx & cy & Hcx & Hcy & E).
  rewrite E. unfold well_ordered, within, disjoint_bounds. simpl.
  repeat split;
    try (intros p Hp; apply Contains_true in Hp; simpl in Hp;
         first [apply Contains_true | apply Contains_false]; simpl; lia);
    try lia.
  intros p Hp. apply Contains_true in Hp. rewrite !Contains_true. simpl. lia.
Qed.

Lemma Split_partition_witness :
  let '(nw, ne, se, sw) := SplitBounds full_bounds in
  (well_ordered nw /\ well_ordered ne /\ well_ordered se /\ well_ordered sw) /\
  (within nw full_bounds /\ within ne full_bounds /\
   within se full_bounds /\ within sw full_bounds) /\
  (disjoint_bounds nw ne /\ disjoint_bounds nw se /\ disjoint_bounds nw sw /\
   disjoint_bounds ne se /\ disjoint_bounds ne sw /\ disjoint_bounds se sw) /\
  (forall p, Contains full_bounds p = true ->
     Contains nw p = true \/ Contains ne p = true \/
     Contains se p = true \/ Contains sw p = true).
Proof.
  apply (Split_partition full_bounds).
  - apply valid_coord_intro. reflexivity.
  - apply valid_coord_intro. reflexivity.
  - reflexivity.
  - reflexivity.
Defined.

(** The end of the collision loop: after [j] splits, [1 <= j <= k], the
    two nodes it returns are two different children of the node split
    last, fresh empty regions, and each of the two quadrants contains its
    own point and not the other. *)
Lemma Insert_loop_siblings n : forall k q h a nd e p,
  pool_inv q h -> (a < h)%nat -> m_pages q !! a = Some nd ->
  m_pNorthWest nd = None -> m_pNorthEast nd = None ->
  m_pSouthEast nd = None -> m_pSouthWest nd = None ->
  sq k (m_regionBounds nd) -> (k <= n)%nat ->
  Contains (m_regionBounds nd) e = true ->
  Contains (m_regionBounds nd) p = true -> e <> p ->
  exists pE pS q' j par npar k' qe qp,
    Insert_loop n q (Some a) e p = Ok (Some pE, Some pS, q') /\
    (1 <= j <= k)%nat /\ pool_inv q' (h + 4 * j) /\
    pE <> pS /\
    m_pages q' !! par = Some npar /\
    m_nodeType npar = Region /\
    sq (S k') (m_regionBounds npar) /\
    Contains (m_regionBounds npar) e = true /\
    Contains (m_regionBounds npar) p = true /\
    child_ptr npar qe = Some pE /\ child_ptr npar qp = Some pS /\
    m_pages q' !! pE =
      Some (region_node (quad qe (side k') (m_regionBounds npar)) pE) /\
    m_pages q' !! pS =
      Some (region_node (quad qp (side k') (m_regionBounds npar)) pS) /\
    Contains (quad qe (side k') (m_regionBounds npar)) e = true /\
    Contains (quad qe (side k') (m_regionBounds npar)) p = false /\
    Contains (quad qp (side k') (m_regionBounds npar)) p = true /\
    Contains (quad qp (side k') (m_regionBounds npar)) e = false.
Proof.
  induction n as [|n IH];
    intros k q h a nd e p Hinv Hah Ha C1 C2 C3 C4 Hsq Hk He Hp Hne.
  { assert (k = 0%nat) as -> by lia.
    exfalso. apply Hne. eapply sq_0_eq; eauto. }
  destruct k as [|k].
  { exfalso. apply Hne. eapply sq_0_eq; eauto. }
  set (b := m_regionBounds nd) in *.
  destruct (CNode_Split_spec q h a nd k Hinv Hah Ha C1 C2 C3 C4 Hsq)
    as (q1 & ES & Hinv1 & Na & Nc & Fr1 & R1 & P1).
  fold b in Nc.
  set (B := fun i => quad i (side k) b).
  assert (Hch : children_at (m_pages q1) (split_node nd h) B).
  { intros i. exists (caddr h i), (region_node (quad i (side k) b) (caddr h i)).
    split; [apply child_ptr_split_node|]. split; [apply Nc|reflexivity]. }
  pose proof (which_quad k b e Hsq He) as We.
  pose proof (which_quad k b p Hsq Hp) as Wp.
  rewrite Insert_loop_S, ES. simpl.
  rewrite (ContainingSubRegion_step (m_pages q1) a (split_node nd h) B e Na Hch
             eq_refl He We).
  simpl.
  rewrite (ContainingSubRegion_step (m_pages q1) a (split_node nd h) B p Na Hch
             eq_refl Hp Wp).
  simpl. rewrite !child_ptr_split_node. simpl. rewrite caddr_eqb.
  unfold B in *. simpl in We, Wp |- *.
  pose proof (fun i => which_unique i k b e Hsq) as Ue.
  pose proof (fun i => which_unique i k b p Hsq) as Up.
  set (qe := which _ _ _ e) in *. set (qp := which _ _ _ p) in *.
  destruct (quadrant_eqb qe qp) eqn:Eq.
  - (* both points went to the same quadrant: the loop goes on there *)
    apply quadrant_eqb_eq in Eq. rewrite <- Eq in *. clear Eq.
    pose proof (caddr_range h qe) as Hr.
    destruct (IH k q1 (S (S (S (S h)))) (caddr h qe)
                (region_node (quad qe (side k) b) (caddr h qe)) e p
                Hinv1 ltac:(lia) (Nc qe) eq_refl eq_refl eq_refl eq_refl
                (sq_quad qe k b Hsq) ltac:(lia) We Wp Hne)
      as (pE & pS & q' & j & par & npar & k' & ie & ip & EL & Hj & Hinv' & Rest).
    exists pE, pS, q', (S j), par, npar, k', ie, ip.
    split; [exact EL|]. split; [lia|].
    replace (S (S (S (S h))) + 4 * j)%nat with (h + 4 * S j)%nat in Hinv' by lia.
    split; [exact Hinv'|exact Rest].
  - (* the points went to two quadrants: the loop ends *)
    assert (Hqne : qe <> qp).
    { intros E. rewrite E, quadrant_eqb_refl in Eq. discriminate. }
    exists (caddr h qe), (caddr h qp), q1, 1%nat, a, (split_node nd h), k, qe, qp.
    split; [reflexivity|]. split; [lia|].
    replace (S (S (S (S h)))) with (h + 4 * 1)%nat in Hinv1 by lia.
    split; [exact Hinv1|].
    split; [intros E%caddr_inj; auto|].
    split; [exact Na|]. split; [reflexivity|].
    change (m_regionBounds (split_node nd h)) with b.
    split; [exact Hsq|]. split; [exact He|]. split; [exact Hp|].
    split; [apply child_ptr_split_node|]. split; [apply child_ptr_split_node|].
    split; [apply Nc|]. split; [apply Nc|].
    split; [exact We|]. split.
    { destruct (Contains (quad qe (side k) b) p) eqn:Ec; [|reflexivity].
      exfalso. apply Hqne. symmetry. apply (Up qe Ec). }
    split; [exact Wp|].
    destruct (Contains (quad qp (side k) b) e) eqn:Ec; [|reflexivity].
    exfalso. apply Hqne. apply (Ue qp Ec).
Qed.

(** A larger bound on the collision loop gives the same result. *)
Lemma Insert_loop_mono n : forall m q a e p res,
  Insert_loop n q a e p = Ok res -> (n <= m)%nat -> Insert_loop m q a e p = Ok res.
Proof.
  induction n as [|n IH]; intros m q a e p res H Hm; [discriminate|].
  destruct m as [|m]; [lia|].
  rewrite Insert_loop_S in H |- *.
  destruct (CNode_Split q a) as [q1| | |]; simpl in H |- *; try discriminate.
  destruct (ContainingSubRegion (m_pages q1) a e) as [sE| | |]; simpl in H |- *;
    try discriminate.
  destruct (ContainingSubRegion (m_pages q1) a p) as [sP| | |]; simpl in H |- *;
    try discriminate.
  destruct (negb (is_null sE) && negb (is_null sP)); simpl in H |- *; [|discriminate].
  destruct (ptr_eqb sE sP); [apply IH; [exact H|lia]|exact H].
Qed.

(** C5 (the collision loop ends): in a reachable tree, when the descent
    for [point] ends in a leaf that holds another point, the loop of
    [Insert] ends within 64 iterations: run with the bound 64 or any
    larger one it returns after [j] splits, [1 <= j <= 64], each of which
    took four nodes from the pool.  The two nodes it returns are two
    different children of one region, the node split last, whose bounds
    contain both points; the bounds of the first contain the old point
    and not the new one, the bounds of the second the new point and not
    the old one. *)
Theorem collision_loop_terminates fuel q point found nf :
  reachable q -> valid_coord point -> (64 <= fuel)%nat ->
  CNode_Find fuel (m_pages q) (m_pTreeRoot q) point
    = Ok (EFindResult.NoEntry, Some found) ->
  m_pages q !! found = Some nf -> m_nodeType nf = Leaf ->
  exists pE pS q' nE nS,
    Insert_loop fuel q (Some found) (m_point nf) point = Ok (Some pE, Some pS, q') /\
    Insert_loop 64 q (Some found) (m_point nf) point = Ok (Some pE, Some pS, q') /\
    pE <> pS /\
    m_pages q' !! pE = Some nE /\ m_pages q' !! pS = Some nS /\
    Contains (m_regionBounds nE) (m_point nf) = true /\
    Contains (m_regionBounds nS) point = true /\
    Contains (m_regionBounds nE) point = false /\
    Contains (m_regionBounds nS) (m_point nf) = false /\
    (exists par npar,
       m_pages q' !! par = Some npar /\ m_nodeType npar = Region /\
       Contains (m_regionBounds npar) (m_point nf) = true /\
       Contains (m_regionBounds npar) point = true /\
       (m_pNorthWest npar = Some pE \/ m_pNorthEast npar = Some pE \/
        m_pSouthEast npar = Some pE \/ m_pSouthWest npar = Some pE) /\
       (m_pNorthWest npar = Some pS \/ m_pNorthEast npar = Some pS \/
        m_pSouthEast npar = Some pS \/ m_pSouthWest npar = Some pS)) /\
    (exists h j,
       m_pPoolHead q = Some h /\ m_pPoolHead q' = Some (h + 4 * j)%nat /\
       (1 <= j <= 64)%nat).
Proof.
  intros Hq Hv Hfuel HF Hnf Hleaf.
  destruct (reachable_inv q Hq) as [t (h & r & fp & Hinv & Hroot & Hrep & Hfp & Hwf)].
  pose proof (full_bounds_Contains point Hv) as Hp.
  destruct (descent t (m_pages q) r fp 64 full_bounds point fuel Hrep Hwf sq_full Hp Hfuel)
    as (found' & s & k0 & EF & ET & Hin & Hrs & Hts & Hws & Hss & Hk0 & Hcs & _).
  rewrite Hroot, EF in HF. injection HF as Hres <-.
  destruct s as [b0|b0 e|]; [| |contradiction].
  { inversion Hrs as [a' n0 b' fp' Hn0 Hb Hpt Hty P1 P2 P3 P4 Hfp'| |]; subst.
    rewrite Hnf in Hn0. injection Hn0 as <-. congruence. }
  inversion Hrs as [|a' n0 b' e' fp' Hn0 Hb Hpt Hty P1 P2 P3 P4 Hfp'|]; subst.
  rewrite Hnf in Hn0. injection Hn0 as <-.
  simpl in Hres, Hws, Hss, Hcs. destruct Hws as [_ He].
  assert (Hne : m_point nf <> point).
  { apply coord_eq_false. destruct (coord_eq (m_point nf) point); congruence. }
  destruct (Insert_loop_siblings 64 k0 q h found' nf (m_point nf) point
              Hinv (Hfp _ Hin) Hnf P1 P2 P3 P4 Hss Hk0 He Hcs Hne)
    as (pE & pS & q1 & j & par & npar & k' & qe & qp & EL & Hj & Hinv1 & Hd &
        Npar & Tpar & _ & CPe & CPp & ChE & ChS & NE & NS & CEe & CEp & CSp & CSe).
  pose proof Hinv as (_ & _ & Hh & _). pose proof Hinv1 as (_ & _ & Hh1 & _).
  exists pE, pS, q1, (region_node (quad qe (side k') (m_regionBounds npar)) pE),
         (region_node (quad qp (side k') (m_regionBounds npar)) pS).
  split; [exact (Insert_loop_mono 64 fuel _ _ _ _ _ EL Hfuel)|].
  split; [exact EL|]. split; [exact Hd|]. split; [exact NE|]. split; [exact NS|].
  split; [exact CEe|]. split; [exact CSp|]. split; [exact CEp|]. split; [exact CSe|].
  split.
  - exists par, npar. split; [exact Npar|]. split; [exact Tpar|].
    split; [exact CPe|]. split; [exact CPp|]. split.
    + destruct qe; simpl in ChE; auto.
    + destruct qp; simpl in ChS; auto.
  - exists h, j. split; [exact Hh|]. split; [exact Hh1|]. lia.
Qed.

Lemma tree4_reachable : reachable tree4.
Proof. apply (reach_new 4). reflexivity. Defined.

Lemma tree4_origin_reachable : reachable tree4_origin.
Proof.
  apply (reach_insert 64 tree4 (mkCoordinate 0 0) EInsertResult.Success tree4_origin).
  - exact tree4_reachable.
  - apply valid_coord_intro. reflexivity.
  - lia.
  - reflexivity.
Defined.

Lemma collision_loop_terminates_witness :
  exists pE pS q' nE nS,
    Insert_loop 64 tree4_origin (Some 0%nat) (m_point leaf_origin) (mkCoordinate 0 1)
      = Ok (Some pE, Some pS, q') /\
    Insert_loop 64 tree4_origin (Some 0%nat) (m_point leaf_origin) (mkCoordinate 0 1)
      = Ok (Some pE, Some pS, q') /\
    pE <> pS /\
    m_pages q' !! pE = Some nE /\ m_pages q' !! pS = Some nS /\
    Contains (m_regionBounds nE) (m_point leaf_origin) = true /\
    Contains (m_regionBounds nS) (mkCoordinate 0 1) = true /\
    Contains (m_regionBounds nE) (mkCoordinate 0 1) = false /\
    Contains (m_regionBounds nS) (m_point leaf_origin) = false /\
    (exists par npar,
       m_pages q' !! par = Some npar /\ m_nodeType npar = Region /\
       Contains (m_regionBounds npar) (m_point leaf_origin) = true /\
       Contains (m_regionBounds npar) (mkCoordinate 0 1) = true /\
       (m_pNorthWest npar = Some pE \/ m_pNorthEast npar = Some pE \/
        m_pSouthEast npar = Some pE \/ m_pSouthWest npar = Some pE) /\
       (m_pNorthWest npar = Some pS \/ m_pNorthEast npar = Some pS \/
        m_pSouthEast npar = Some pS \/ m_pSouthWest npar = Some pS)) /\
    (exists h j,
       m_pPoolHead tree4_origin = Some h /\ m_pPoolHead q' = Some (h + 4 * j)%nat /\
       (1 <= j <= 64)%nat).
Proof.
  apply (collision_loop_terminates 64 tree4_origin (mkCoordinate 0 1) 0 leaf_origin).
  - exact tree4_origin_reachable.
  - apply valid_coord_intro. reflexivity.
  - lia.
  - vm_compute. reflexivity.
  - reflexivity.
  - reflexivity.
Defined.

(** The bound of 64 is reached: the origin and its neighbour (0,1),
    colliding at the root, need all 64 splits. *)
Example collision_loop_bound_reached :
  Insert_loop 63 tree4_origin (Some 0%nat) (mkCoordinate 0 0) (mkCoordinate 0 1)
    = OutOfFuel /\
  exists pE pS q',
    Insert_loop 64 tree4_origin (Some 0%nat) (mkCoordinate 0 0) (mkCoordinate 0 1)
      = Ok (pE, pS, q').
Proof.
  split; [vm_compute; reflexivity|].
  eexists. eexists. eexists. vm_compute. reflexivity.
Qed.

(** C6 ([Reset] clears everything): after [Reset] of a reachable tree the
    root is a region without children and without a point whose bounds go
    from the least to the greatest value of the scalar in both axes, and
    [Find] returns [EFindResult.NoEntry] on every coordinate. *)
Theorem Reset_clears q :
  reachable q ->
  exists q' root,
    Reset q = Ok q' /\
    deref (m_pages q') (m_pTreeRoot q') = Ok root /\
    m_nodeType root = Region /\ m_point root = CCoordinate_zero /\
    m_pNorthWest root = None /\ m_pNorthEast root = None /\
    m_pSouthEast root = None /\ m_pSouthWest root = None /\
    m_regionBounds root =
      mkBounds (mkCoordinate 0 0) (mkCoordinate (2 ^ 64 - 1) (2 ^ 64 - 1)) /\
    forall fuel p, valid_coord p -> Find fuel q' p = Ok EFindResult.NoEntry.
Proof.
  intros Hq. destruct (reachable_inv q Hq) as [t Ht].
  destruct (inv_pool q t Ht) as [h Hp].
  destruct (Reset_spec q h Hp) as (q' & E & Hinv & _ & Hroot & Hn).
  exists q', (region_node full_bounds 0). split; [exact E|].
  split; [rewrite Hroot; apply deref_Some; exact Hn|].
  repeat (split; [reflexivity|]).
  intros fuel p Hv. unfold Find. rewrite Hroot. simpl. rewrite Hn. simpl.
  rewrite (full_bounds_Contains p Hv). simpl.
  rewrite (CNode_Find_terminal fuel (m_pages q') 0 (TEmpty full_bounds) p).
  - reflexivity.
  - apply rep_region_node. exact Hn.
  - exact I.
Qed.

Lemma Reset_clears_witness :
  Find 64 tree4_origin (mkCoordinate 0 0) = Ok EFindResult.Success /\
  exists q' root,
    Reset tree4_origin = Ok q' /\
    deref (m_pages q') (m_pTreeRoot q') = Ok root /\
    m_nodeType root = Region /\ m_point root = CCoordinate_zero /\
    m_pNorthWest root = None /\ m_pNorthEast root = None /\
    m_pSouthEast root = None /\ m_pSouthWest root = None /\
    m_regionBounds root =
      mkBounds (mkCoordinate 0 0) (mkCoordinate (2 ^ 64 - 1) (2 ^ 64 - 1)) /\
    forall fuel p, valid_coord p -> Find fuel q' p = Ok EFindResult.NoEntry.
Proof.
  split; [reflexivity|].
  apply (Reset_clears tree4_origin). exact tree4_origin_reachable.
Defined.

(** C7 (order independence with a passing [SanityCheck]), refuted by the
    code: after the insertion of (2,2) and (3,3), in either order, both
    points are found but [SanityCheck] stops at the assertion of line 426,
    which the children of a region of side two cannot satisfy. *)
Theorem SanityCheck_fails_on_unit_cells :
  (exists q, build 64 4 [mkCoordinate 2 2; mkCoordinate 3 3]
               = Ok ([EInsertResult.Success; EInsertResult.Success], q) /\
             Find 64 q (mkCoordinate 2 2) = Ok EFindResult.Success /\
             Find 64 q (mkCoordinate 3 3) = Ok EFindResult.Success /\
             SanityCheck 65 q = AssertFail 426) /\
  (exists q, build 64 4 [mkCoordinate 3 3; mkCoordinate 2 2]
               = Ok ([EInsertResult.Success; EInsertResult.Success], q) /\
             Find 64 q (mkCoordinate 2 2) = Ok EFindResult.Success /\
             Find 64 q (mkCoordinate 3 3) = Ok EFindResult.Success /\
             SanityCheck 65 q = AssertFail 426).
Proof.
  split.
  - eexists. split; [vm_compute; reflexivity|].
    split; [vm_compute; reflexivity|].
    split; vm_compute; reflexivity.
  - eexists. split; [vm_compute; reflexivity|].
    split; [vm_compute; reflexivity|].
    split; vm_compute; reflexivity.
Qed.

Lemma t_insert_result_not_out t p :
  t_insert_result t p <> EInsertResult.OutOfRegionBounds.
Proof. unfold t_insert_result. destruct (t_find t p); discriminate. Qed.

(** C8 ([OutOfRegionBounds] is unreachable): on a reachable tree, for
    every coordinate, [Insert] and [Find] return, and what they return is
    not the out-of-bounds variant. *)
Theorem OutOfRegionBounds_unreachable fuel q point :
  reachable q -> valid_coord point -> (64 <= fuel)%nat ->
  (exists r q', Insert fuel q point = Ok (r, q') /\
                r <> EInsertResult.OutOfRegionBounds) /\
  (exists r, Find fuel q point = Ok r /\ r <> EFindResult.OutOfRegionBounds).
Proof.
  intros Hq Hv Hfuel. destruct (reachable_inv q Hq) as [t Ht]. split.
  - destruct (Insert_spec fuel q t point Ht Hv Hfuel) as (q' & E & _).
    exists (t_insert_result t point), q'. split; [exact E|].
    apply t_insert_result_not_out.
  - exists (t_find t point). split; [apply Find_spec; auto|].
    apply t_find_not_out.
Qed.

Lemma OutOfRegionBounds_unreachable_witness :
  (exists r q', Insert 64 tree4_origin (mkCoordinate (2 ^ 64 - 1) 0) = Ok (r, q') /\
                r <> EInsertResult.OutOfRegionBounds) /\
  (exists r, Find 64 tree4_origin (mkCoordinate (2 ^ 64 - 1) 0) = Ok r /\
             r <> EFindResult.OutOfRegionBounds).
Proof.
  apply (OutOfRegionBounds_unreachable 64 tree4_origin (mkCoordinate (2 ^ 64 - 1) 0)).
  - exact tree4_origin_reachable.
  - apply valid_coord_intro. reflexivity.
  - lia.
Defined.

(** The descent never reports the out-of-bounds variant. *)
Lemma CNode_Find_never_out fuel : forall mem p0 point r pf,
  CNode_Find fuel mem p0 point = Ok (r, pf) -> r <> EFindResult.OutOfRegionBounds.
Proof.
  induction fuel as [|fuel IH]; intros mem p0 point r pf H; simpl in H.
  - destruct p0 as [a|]; simpl in H; [|discriminate].
    destruct (mem !! a) as [n|] eqn:Ha; simpl in H; [|discriminate].
    destruct (is_null (m_pNorthWest n)); simpl in H; [|discriminate].
    destruct (EType_eqb (m_nodeType n) Region); simpl in H.
    + injection H as <- _. discriminate.
    + destruct (EType_eqb (m_nodeType n) Leaf); simpl in H; [|discriminate].
      injection H as <- _. destruct (coord_eq (m_point n) point); discriminate.
  - destruct p0 as [a|]; simpl in H; [|discriminate].
    destruct (mem !! a) as [n|] eqn:Ha; simpl in H; [|discriminate].
    destruct (is_null (m_pNorthWest n)); simpl in H.
    + destruct (EType_eqb (m_nodeType n) Region); simpl in H.
      * injection H as <- _. discriminate.
      * destruct (EType_eqb (m_nodeType n) Leaf); simpl in H; [|discriminate].
        injection H as <- _. destruct (coord_eq (m_point n) point); discriminate.
    + destruct (negb (is_null (m_pNorthEast n)) && negb (is_null (m_pSouthEast n))
                && negb (is_null (m_pSouthWest n))); simpl in H; [|discriminate].
      destruct (deref mem (m_pNorthWest n)) as [nw| | |]; simpl in H; try discriminate.
      destruct (Contains (m_regionBounds nw) point); [eapply IH; eauto|].
      destruct (deref mem (m_pNorthEast n)) as [ne| | |]; simpl in H; try discriminate.
      destruct (Contains (m_regionBounds ne) point); [eapply IH; eauto|].
      destruct (deref mem (m_pSouthEast n)) as [se| | |]; simpl in H; try discriminate.
      destruct (Contains (m_regionBounds se) point); [eapply IH; eauto|].
      destruct (deref mem (m_pSouthWest n)) as [sw| | |]; simpl in H; try discriminate.
      destruct (Contains (m_regionBounds sw) point); simpl in H; [|discriminate].
      eapply IH; eauto.
Qed.

Lemma Find_never_out fuel q point r :
  Find fuel q point = Ok r -> r <> EFindResult.OutOfRegionBounds.
Proof.
  unfold Find. intros H.
  destruct (negb (is_null (m_pTreeRoot q))); simpl in H; [|discriminate].
  destruct (deref (m_pages q) (m_pTreeRoot q)) as [root| | |]; simpl in H;
    try discriminate.
  destruct (Contains (m_regionBounds root) point); simpl in H; [|discriminate].
  destruct (CNode_Find fuel (m_pages q) (m_pTreeRoot q) point)
    as [[r' pf]| | |] eqn:EF; simpl in H; try discriminate.
  injection H as <-. eapply CNode_Find_never_out; eauto.
Qed.

(** Whatever the state, [Insert] has no path that returns the
    out-of-bounds variant either. *)
Lemma Insert_never_out fuel q point r q' :
  Insert fuel q point = Ok (r, q') -> r <> EInsertResult.OutOfRegionBounds.
Proof.
  unfold Insert. intros H.
  repeat match type of H with
         | (match ?c with _ => _ end) = _ => destruct c; simpl in H; try discriminate
         | (?m ≫= _) = _ =>
             let E := fresh "E" in
             destruct m as [?| | |] eqn:E; simpl in H; try discriminate
         | (if ?c then _ else _) = _ => destruct c; simpl in H; try discriminate
         | (let '(_, _) := ?c in _) = _ => destruct c; simpl in H
         end;
    try (injection H as <- _; discriminate).
Qed.

(** C9 (page-size equivalence): two trees built with any two page sizes of
    at least two slots from the same sequence of insertions return the same
    outcomes for the insertions, the same outcome of [Find] for every
    coordinate, and the same outcome of [SanityCheck]. *)
Theorem page_size_equivalence fuel pageSize1 pageSize2 points :
  (2 <= pageSize1)%nat -> (2 <= pageSize2)%nat ->
  Forall valid_coord points -> (65 <= fuel)%nat ->
  exists rs q1 q2,
    build fuel pageSize1 points = Ok (rs, q1) /\
    build fuel pageSize2 points = Ok (rs, q2) /\
    m_pageSize q1 = pageSize1 /\ m_pageSize q2 = pageSize2 /\
    (forall p, valid_coord p ->
       exists r, Find fuel q1 p = Ok r /\ Find fuel q2 p = Ok r) /\
    SanityCheck fuel q1 = SanityCheck fuel q2.
Proof.
  intros H1 H2 Hv Hfuel.
  destruct (CQuadTree_new_spec pageSize1 H1) as (a1 & E1 & I1 & P1).
  destruct (CQuadTree_new_spec pageSize2 H2) as (a2 & E2 & I2 & P2).
  destruct (Insert_all_spec fuel points a1 _ I1 Hv ltac:(lia)) as (q1 & F1 & J1 & S1).
  destruct (Insert_all_spec fuel points a2 _ I2 Hv ltac:(lia)) as (q2 & F2 & J2 & S2).
  exists (t_results (TEmpty full_bounds) points), q1, q2.
  unfold build. rewrite E1, E2. simpl.
  split; [exact F1|]. split; [exact F2|].
  split; [congruence|]. split; [congruence|]. split.
  - intros p Hp. exists (t_find (t_insert_all (TEmpty full_bounds) points) p).
    split; apply Find_spec; auto; lia.
  - rewrite (SanityCheck_spec fuel q1 _ J1 Hfuel).
    rewrite (SanityCheck_spec fuel q2 _ J2 Hfuel). reflexivity.
Qed.

Lemma page_size_equivalence_witness :
  exists rs q1 q2,
    build 65 4 [mkCoordinate 0 0; mkCoordinate 7 9; mkCoordinate 7 8] = Ok (rs, q1) /\
    build 65 1024 [mkCoordinate 0 0; mkCoordinate 7 9; mkCoordinate 7 8]
      = Ok (rs, q2) /\
    m_pageSize q1 = 4%nat /\ m_pageSize q2 = 1024%nat /\
    (forall p, valid_coord p ->
       exists r, Find 65 q1 p = Ok r /\ Find 65 q2 p = Ok r) /\
    SanityCheck 65 q1 = SanityCheck 65 q2.
Proof.
  apply (page_size_equivalence 65 4 1024
           [mkCoordinate 0 0; mkCoordinate 7 9; mkCoordinate 7 8]).
  - lia.
  - lia.
  - repeat constructor; apply valid_coord_intro; reflexivity.
  - lia.
Defined.

(** C10 (the origin as a stored point), refuted by the code in its last
    part: on the tree that holds (0,1), on which [SanityCheck] passes, the
    insertion of (0,0) succeeds, [Find] then finds it and a second
    insertion reports the duplicate, but [SanityCheck] stops at the
    assertion of line 426. *)
Theorem origin_SanityCheck_fails :
  exists q0 q1,
    build 64 4 [mkCoordinate 0 1] = Ok ([EInsertResult.Success], q0) /\
    SanityCheck 65 q0 = Ok tt /\
    Find 64 q0 (mkCoordinate 0 0) = Ok EFindResult.NoEntry /\
    Insert 64 q0 (mkCoordinate 0 0) = Ok (EInsertResult.Success, q1) /\
    Find 64 q1 (mkCoordinate 0 0) = Ok EFindResult.Success /\
    Insert 64 q1 (mkCoordinate 0 0) = Ok (EInsertResult.DuplicateEntry, q1) /\
    SanityCheck 65 q1 = AssertFail 426.
Proof.
  eexists. eexists.
  split; [vm_compute; reflexivity|].
  split; [vm_compute; reflexivity|].
  split; [vm_compute; reflexivity|].
  split; [vm_compute; reflexivity|].
  split; [vm_compute; reflexivity|].
  split; vm_compute; reflexivity.
Qed.

(** On every reachable tree that does not hold the origin, the origin is
    inserted, found and rejected as a duplicate like any other point. *)
Lemma origin_usable fuel q :
  reachable q -> (64 <= fuel)%nat ->
  Find fuel q (mkCoordinate 0 0) = Ok EFindResult.NoEntry ->
  exists q1,
    Insert fuel q (mkCoordinate 0 0) = Ok (EInsertResult.Success, q1) /\
    Find fuel q1 (mkCoordinate 0 0) = Ok EFindResult.Success /\
    Insert fuel q1 (mkCoordinate 0 0) = Ok (EInsertResult.DuplicateEntry, q1).
Proof.
  intros Hq Hfuel HF.
  assert (Hv : valid_coord (mkCoordinate 0 0)) by (apply valid_coord_intro; reflexivity).
  destruct (reachable_inv q Hq) as [t Ht].
  destruct (Insert_spec fuel q t _ Ht Hv Hfuel) as (q1 & E & Hinv & _).
  rewrite (Find_spec fuel q t _ Ht Hv Hfuel) in HF. injection HF as HF.
  unfold t_insert_result in E. rewrite HF in E.
  exists q1. split; [exact E|].
  assert (HF1 : t_find (t_insert t (mkCoordinate 0 0)) (mkCoordinate 0 0)
                = EFindResult.Success).
  { rewrite (t_insert_find t 64 full_bounds _ _ (inv_wf _ _ Ht) sq_full)
      by auto using full_bounds_Contains.
    rewrite coord_eq_refl. reflexivity. }
  split.
  - rewrite (Find_spec fuel q1 _ _ Hinv Hv Hfuel), HF1. reflexivity.
  - exact (Insert_spec_dup fuel q1 _ _ Hinv Hv Hfuel HF1).
Qed.

(** The scenario of the specification: page size 4, the origin twice, the
    far corner, two lookups, the validator, [Reset], a lookup. *)
Example spec_scenario :
  exists q q',
    build 64 4 [mkCoordinate 0 0; mkCoordinate 0 0;
                mkCoordinate TScalar_max TScalar_max]
      = Ok ([EInsertResult.Success; EInsertResult.DuplicateEntry;
             EInsertResult.Success], q) /\
    Find 64 q (mkCoordinate 0 0) = Ok EFindResult.Success /\
    Find 64 q (mkCoordinate 1 1) = Ok EFindResult.NoEntry /\
    SanityCheck 65 q = Ok tt /\
    Reset q = Ok q' /\
    Find 64 q' (mkCoordinate 0 0) = Ok EFindResult.NoEntry.
Proof.
  eexists. eexists.
  split; [vm_compute; reflexivity|].
  split; [vm_compute; reflexivity|].
  split; [vm_compute; reflexivity|].
  split; [vm_compute; reflexivity|].
  split; [vm_compute; reflexivity|].
  vm_compute; reflexivity.
Qed.

(** * Further properties of the code *)

(** ** The store under allocation *)

Lemma AllocateNode_length q h :
  pool_inv q h ->
  exists q',
    AllocateNode q = Ok (Some h, q') /\
    length (m_pages q') =
      (if (S h <? length (m_pages q))%nat then length (m_pages q)
       else length (m_pages q) + m_pageSize q)%nat.
Proof.
  intros Hinv. pose proof Hinv as (Hps & Hroot & Hhead & Hh & Hl).
  rewrite AllocateNode_unfold. unfold pool_exhausted. rewrite Hhead. simpl.
  destruct (lookup_lt_is_Some_2 (m_pages q) h Hh) as [nh Hnh].
  rewrite Hnh. simpl. rewrite (Hl h nh Hnh).
  destruct (S h <? length (m_pages q))%nat eqn:E; simpl.
  - apply Nat.ltb_lt in E.
    destruct (AllocateNode_tail_spec q h Hinv E) as (q' & E' & Hinv' & Hmem & Hr & Hp).
    exists q'. split; [exact E'|]. rewrite Hmem. apply length_insert.
  - apply Nat.ltb_ge in E.
    destruct (AllocatePage_grow q h Hinv ltac:(lia)) as (mem3 & E3 & L3 & Hl3 & Hold).
    rewrite E3. simpl.
    assert (Hinv1 : pool_inv (with_pages q mem3) h).
    { unfold pool_inv. simpl. repeat split; auto. lia. }
    destruct (AllocateNode_tail_spec _ h Hinv1 ltac:(simpl; lia))
      as (q' & E' & Hinv' & Hmem & Hr & Hp).
    exists q'. split; [exact E'|]. rewrite Hmem. simpl.
    rewrite length_insert. exact L3.
Qed.

Lemma AllocateRegionNode_length q h b q' r :
  pool_inv q h -> AllocateRegionNode q b = Ok (r, q') ->
  length (m_pages q') =
    (if (S h <? length (m_pages q))%nat then length (m_pages q)
     else length (m_pages q) + m_pageSize q)%nat.
Proof.
  intros Hinv H.
  destruct (AllocateNode_length q h Hinv) as (q1 & E1 & L1).
  destruct (AllocateNode_spec q h Hinv) as (q1' & E1' & Hinv1 & Hn & _).
  rewrite E1 in E1'. injection E1' as <-.
  destruct (AllocateRegionNode_of_alloc q h q1 b E1 Hinv1 Hn) as (q2 & E2 & _ & Hmem & _).
  rewrite E2 in H. injection H as _ <-.
  rewrite Hmem, length_insert. exact L1.
Qed.

Lemma grown_refl q h : grown q h q h.
Proof.
  split; [reflexivity|]. split; [lia|]. split; [exists 0%nat; lia|left; reflexivity].
Qed.

Lemma grown_trans q1 h1 q2 h2 q3 h3 :
  grown q1 h1 q2 h2 -> grown q2 h2 q3 h3 -> grown q1 h1 q3 h3.
Proof.
  intros (P1 & H1 & (c1 & L1) & G1) (P2 & H2 & (c2 & L2) & G2).
  split; [congruence|]. split; [lia|]. split.
  - exists (c1 + c2)%nat. rewrite L2, L1, P1. lia.
  - rewrite P1 in G2. destruct G2 as [G2|G2]; [|right; exact G2].
    destruct G1 as [G1|G1]; [left; congruence|right; lia].
Qed.

(** One allocation leaves the store as long as it was or appends one page. *)
Lemma AllocateRegionNode_pool q h b :
  pool_inv q h ->
  exists q',
    AllocateRegionNode q b = Ok (Some h, q') /\
    pool_inv q' (S h) /\
    m_pTreeRoot q' = m_pTreeRoot q /\ grown q h q' (S h).
Proof.
  intros Hinv.
  destruct (AllocateRegionNode_spec q h b Hinv) as (q' & E & Hinv' & _ & _ & Hr & Hp).
  exists q'. split; [exact E|]. split; [exact Hinv'|]. split; [exact Hr|].
  split; [exact Hp|]. split; [lia|].
  rewrite (AllocateRegionNode_length q h b q' _ Hinv E).
  destruct Hinv as (_ & _ & _ & Hh & _).
  destruct (S h <? length (m_pages q))%nat eqn:El.
  - split; [exists 0%nat; lia|left; reflexivity].
  - apply Nat.ltb_ge in El. split; [exists 1%nat; lia|right; lia].
Qed.

Opaque SplitBounds.

Lemma CNode_Split_pool q h a q' :
  pool_inv q h -> CNode_Split q a = Ok q' ->
  pool_inv q' (h + 4) /\
  m_pTreeRoot q' = m_pTreeRoot q /\ grown q h q' (h + 4).
Proof.
  intros Hinv H. unfold CNode_Split in H.
  destruct (deref (m_pages q) a) as [self| | |]; simpl in H; try discriminate.
  destruct (is_null (m_pNorthWest self)); simpl in H; [|discriminate].
  destruct (is_null (m_pNorthEast self)); simpl in H; [|discriminate].
  destruct (is_null (m_pSouthEast self)); simpl in H; [|discriminate].
  destruct (is_null (m_pSouthWest self)); simpl in H; [|discriminate].
  destruct (SplitBounds (m_regionBounds self)) as [[[bnw bne] bse] bsw].
  cbv iota beta in H.
  destruct (AllocateRegionNode_pool q h bnw Hinv) as (q1 & E1 & Hinv1 & R1 & G1).
  destruct (AllocateRegionNode_pool q1 _ bne Hinv1) as (q2 & E2 & Hinv2 & R2 & G2).
  destruct (AllocateRegionNode_pool q2 _ bse Hinv2) as (q3 & E3 & Hinv3 & R3 & G3).
  destruct (AllocateRegionNode_pool q3 _ bsw Hinv3) as (q4 & E4 & Hinv4 & R4 & G4).
  rewrite E1 in H. simpl in H. rewrite E2 in H. simpl in H.
  rewrite E3 in H. simpl in H. rewrite E4 in H. simpl in H.
  destruct a as [a|]; simpl in H; [|discriminate].
  destruct (m_pages q4 !! a) as [self'|] eqn:Ha; simpl in H; [|discriminate].
  injection H as <-.
  replace (h + 4)%nat with (S (S (S (S h)))) by lia.
  split; [eapply pool_inv_update; eauto|]. simpl.
  split; [congruence|].
  pose proof (grown_trans _ _ _ _ _ _ (grown_trans _ _ _ _ _ _
                (grown_trans _ _ _ _ _ _ G1 G2) G3) G4) as (P & Hh & L & G).
  unfold grown. simpl. rewrite length_insert. auto.
Qed.

Transparent SplitBounds.

Lemma Insert_loop_pool n : forall q h a e p pE pS q',
  pool_inv q h -> Insert_loop n q a e p = Ok (pE, pS, q') ->
  exists j, (1 <= j <= n)%nat /\ pool_inv q' (h + 4 * j) /\
    m_pTreeRoot q' = m_pTreeRoot q /\ grown q h q' (h + 4 * j).
Proof.
  induction n as [|n IH]; intros q h a e p pE pS q' Hinv H; [discriminate|].
  rewrite Insert_loop_S in H.
  destruct (CNode_Split q a) as [q1| | |] eqn:ES; simpl in H; try discriminate.
  destruct (CNode_Split_pool q h a q1 Hinv ES) as (Hinv1 & R1 & G1).
  destruct (ContainingSubRegion (m_pages q1) a e) as [sE| | |]; simpl in H;
    try discriminate.
  destruct (ContainingSubRegion (m_pages q1) a p) as [sP| | |]; simpl in H;
    try discriminate.
  destruct (negb (is_null sE) && negb (is_null sP)); simpl in H; [|discriminate].
  destruct (ptr_eqb sE sP).
  - destruct (IH q1 _ sP e p pE pS q' Hinv1 H) as (j & Hj & Hinv' & R' & G').
    exists (S j). split; [lia|].
    replace (h + 4 * S j)%nat with (h + 4 + 4 * j)%nat by lia.
    split; [exact Hinv'|]. split; [congruence|].
    exact (grown_trans _ _ _ _ _ _ G1 G').
  - injection H as _ _ <-. exists 1%nat. split; [lia|].
    replace (h + 4 * 1)%nat with (h + 4)%nat by lia.
    split; [exact Hinv1|]. split; [exact R1|exact G1].
Qed.

Lemma assign_pool q h a n mem' :
  pool_inv q h -> assign (m_pages q) a n = Ok mem' ->
  (forall n0, deref (m_pages q) a = Ok n0 -> pPoolNext n = pPoolNext n0) ->
  pool_inv (with_pages q mem') h /\ length mem' = length (m_pages q).
Proof.
  intros Hinv H Hn. destruct a as [a|]; simpl in H; [|discriminate].
  destruct (m_pages q !! a) as [n0|] eqn:Ha; simpl in H; [|discriminate].
  injection H as <-. split; [|apply length_insert].
  eapply pool_inv_update; eauto. apply Hn. simpl. rewrite Ha. reflexivity.
Qed.

Lemma Insert_pool fuel q h p r q' :
  pool_inv q h -> Insert fuel q p = Ok (r, q') ->
  exists j, (j <= fuel)%nat /\ pool_inv q' (h + 4 * j) /\
    m_pTreeRoot q' = m_pTreeRoot q /\ grown q h q' (h + 4 * j).
Proof.
  intros Hinv H. unfold Insert in H.
  destruct (negb (is_null (m_pTreeRoot q))); simpl in H; [|discriminate].
  destruct (deref (m_pages q) (m_pTreeRoot q)) as [root| | |]; simpl in H;
    try discriminate.
  destruct (Contains (m_regionBounds root) p); simpl in H; [|discriminate].
  destruct (CNode_Find fuel (m_pages q) (m_pTreeRoot q) p) as [[fr pf]| | |] eqn:EF;
    simpl in H; try discriminate.
  destruct (negb (is_null pf)); simpl in H; [|discriminate].
  destruct (deref (m_pages q) pf) as [found| | |] eqn:Ef; simpl in H; try discriminate.
  assert (Hh0 : (h + 4 * 0)%nat = h) by lia.
  assert (Hrest :
    (if EType_eqb (m_nodeType found) Leaf
     then _ ← assert (is_null (m_pNorthWest found)) 326;
          _ ← assert (is_null (m_pNorthEast found)) 327;
          _ ← assert (is_null (m_pSouthEast found)) 328;
          _ ← assert (is_null (m_pSouthWest found)) 329;
          '(pExistingSubRegion, pSubRegion, q1) ←
            Insert_loop fuel q pf (m_point found) p;
          _ ← assert (negb (is_null pExistingSubRegion)) 345;
          e ← deref (m_pages q1) pExistingSubRegion;
          mem2 ← assign (m_pages q1) pExistingSubRegion
                   (set_point (set_nodeType e Leaf) (m_point found));
          _ ← assert (negb (is_null pSubRegion)) 349;
          s ← deref mem2 pSubRegion;
          mem3 ← assign mem2 pSubRegion (set_point (set_nodeType s Leaf) p);
          Ok (EInsertResult.Success, with_pages q1 mem3)
     else _ ← assert (EType_eqb (m_nodeType found) Region) 356;
          mem1 ← assign (m_pages q) pf (set_point (set_nodeType found Leaf) p);
          Ok (EInsertResult.Success, with_pages q mem1)) = Ok (r, q') ->
    exists j, (j <= fuel)%nat /\ pool_inv q' (h + 4 * j) /\
      m_pTreeRoot q' = m_pTreeRoot q /\ grown q h q' (h + 4 * j)).
  { clear H. intros H.
    destruct (EType_eqb (m_nodeType found) Leaf); simpl in H.
    - destruct (is_null (m_pNorthWest found)); simpl in H; [|discriminate].
      destruct (is_null (m_pNorthEast found)); simpl in H; [|discriminate].
      destruct (is_null (m_pSouthEast found)); simpl in H; [|discriminate].
      destruct (is_null (m_pSouthWest found)); simpl in H; [|discriminate].
      destruct (Insert_loop fuel q pf (m_point found) p) as [[[pE pS] q1]| | |] eqn:EL;
        simpl in H; try discriminate.
      destruct (Insert_loop_pool _ _ _ _ _ _ _ _ _ Hinv EL)
        as (j & Hj & Hinv1 & R1 & G1).
      destruct (negb (is_null pE)); simpl in H; [|discriminate].
      destruct (deref (m_pages q1) pE) as [nE| | |] eqn:EE; simpl in H;
        try discriminate.
      destruct (assign (m_pages q1) pE _) as [mem2| | |] eqn:A2; simpl in H;
        try discriminate.
      destruct (assign_pool q1 _ pE _ mem2 Hinv1 A2) as [Hinv2 L2].
      { intros n0 Hn0. rewrite EE in Hn0. injection Hn0 as <-. reflexivity. }
      destruct (negb (is_null pS)); simpl in H; [|discriminate].
      destruct (deref mem2 pS) as [nS| | |] eqn:ES; simpl in H; try discriminate.
      destruct (assign mem2 pS _) as [mem3| | |] eqn:A3; simpl in H;
        try discriminate.
      destruct (assign_pool (with_pages q1 mem2) _ pS _ mem3 Hinv2 A3) as [Hinv3 L3].
      { intros n0 Hn0. simpl in Hn0. rewrite ES in Hn0. injection Hn0 as <-.
        reflexivity. }
      injection H as _ <-. exists j. split; [lia|]. split; [exact Hinv3|].
      split; [exact R1|].
      destruct G1 as (P & Hh & L & G). unfold grown. simpl.
      simpl in L3. rewrite L3, L2. auto.
    - destruct (EType_eqb (m_nodeType found) Region); simpl in H; [|discriminate].
      destruct (assign (m_pages q) pf _) as [mem1| | |] eqn:A1; simpl in H;
        try discriminate.
      destruct (assign_pool q _ pf _ mem1 Hinv A1) as [Hinv1 L1].
      { intros n0 Hn0. rewrite Ef in Hn0. injection Hn0 as <-. reflexivity. }
      injection H as _ <-. exists 0%nat. rewrite Hh0. split; [lia|].
      split; [exact Hinv1|]. split; [reflexivity|].
      destruct (grown_refl q h) as (P & Hh & L & G). unfold grown. simpl.
      rewrite L1. auto. }
  destruct fr; simpl in H; [exact (Hrest H)|exact (Hrest H)|].
  destruct (coord_eq (m_point found) p); simpl in H; [|discriminate].
  injection H as _ <-. exists 0%nat. rewrite Hh0. split; [lia|].
  split; [exact Hinv|]. split; [reflexivity|apply grown_refl].
Qed.

(** ** A larger bound on the loops gives the same result *)

Lemma CNode_Find_mono n : forall m mem a p res,
  CNode_Find n mem a p = Ok res -> (n <= m)%nat -> CNode_Find m mem a p = Ok res.
Proof.
  induction n as [|n IH]; intros m mem a p res H Hm.
  - destruct m as [|m]; [exact H|].
    simpl in H |- *.
    destruct (deref mem a) as [cur| | |]; simpl in H |- *; try discriminate.
    destruct (negb (is_null (m_pNorthWest cur))); [discriminate|exact H].
  - destruct m as [|m]; [lia|].
    simpl in H |- *.
    destruct (deref mem a) as [cur| | |]; simpl in H |- *; try discriminate.
    destruct (negb (is_null (m_pNorthWest cur))); [|exact H].
    destruct (negb (is_null (m_pNorthEast cur)) && negb (is_null (m_pSouthEast cur))
              && negb (is_null (m_pSouthWest cur))); simpl in H |- *; [|discriminate].
    destruct (deref mem (m_pNorthWest cur)) as [nw| | |]; simpl in H |- *;
      try discriminate.
    destruct (Contains (m_regionBounds nw) p); [apply IH; [exact H|lia]|].
    destruct (deref mem (m_pNorthEast cur)) as [ne| | |]; simpl in H |- *;
      try discriminate.
    destruct (Contains (m_regionBounds ne) p); [apply IH; [exact H|lia]|].
    destruct (deref mem (m_pSouthEast cur)) as [se| | |]; simpl in H |- *;
      try discriminate.
    destruct (Contains (m_regionBounds se) p); [apply IH; [exact H|lia]|].
    destruct (deref mem (m_pSouthWest cur)) as [sw| | |]; simpl in H |- *;
      try discriminate.
    destruct (Contains (m_regionBounds sw) p); simpl in H |- *; [|discriminate].
    apply IH; [exact H|lia].
Qed.

Lemma Insert_mono n m q p res :
  Insert n q p = Ok res -> (n <= m)%nat -> Insert m q p = Ok res.
Proof.
  intros H Hm. unfold Insert in H |- *.
  destruct (negb (is_null (m_pTreeRoot q))); simpl in H |- *; [|discriminate].
  destruct (deref (m_pages q) (m_pTreeRoot q)) as [root| | |]; simpl in H |- *;
    try discriminate.
  destruct (Contains (m_regionBounds root) p); simpl in H |- *; [|discriminate].
  destruct (CNode_Find n (m_pages q) (m_pTreeRoot q) p) as [[fr pf]| | |] eqn:EF;
    simpl in H; try discriminate.
  rewrite (CNode_Find_mono n m _ _ _ _ EF Hm). simpl.
  destruct (negb (is_null pf)); simpl in H |- *; [|discriminate].
  destruct (deref (m_pages q) pf) as [found| | |]; simpl in H |- *; try discriminate.
  assert (Hloop : forall k : _ -> result (EInsertResult.t * CQuadTree),
    (Insert_loop n q pf (m_point found) p ≫= k) = Ok res ->
    (Insert_loop m q pf (m_point found) p ≫= k) = Ok res).
  { intros k Hk.
    destruct (Insert_loop n q pf (m_point found) p) as [x| | |] eqn:EL;
      simpl in Hk; try discriminate.
    rewrite (Insert_loop_mono n m _ _ _ _ _ EL Hm). exact Hk. }
  destruct fr; simpl in H |- *; try exact H;
    (destruct (EType_eqb (m_nodeType found) Leaf); simpl in H |- *; [|exact H];
     destruct (is_null (m_pNorthWest found)); simpl in H |- *; [|discriminate];
     destruct (is_null (m_pNorthEast found)); simpl in H |- *; [|discriminate];
     destruct (is_null (m_pSouthEast found)); simpl in H |- *; [|discriminate];
     destruct (is_null (m_pSouthWest found)); simpl in H |- *; [|discriminate];
     apply Hloop; exact H).
Qed.

(** ** The shape of the store of a reachable tree *)

Lemma AllocateRegionNode_inplace q h b :
  pool_inv q h -> (S h < length (m_pages q))%nat ->
  exists q',
    AllocateRegionNode q b = Ok (Some h, q') /\ pool_inv q' (S h) /\
    m_pages q' = <[h := region_node b h]> (m_pages q) /\
    m_pTreeRoot q' = m_pTreeRoot q /\ m_pageSize q' = m_pageSize q.
Proof.
  intros Hinv Hn. pose proof Hinv as (Hps & Hroot & Hhead & Hh & Hl).
  destruct (AllocateNode_tail_spec q h Hinv Hn) as (q1 & E1 & Hinv1 & Hmem1 & R1 & P1).
  assert (EA : AllocateNode q = Ok (Some h, q1)).
  { rewrite AllocateNode_unfold. unfold pool_exhausted. rewrite Hhead. simpl.
    destruct (lookup_lt_is_Some_2 (m_pages q) h Hh) as [nh Hnh]. rewrite Hnh. simpl.
    rewrite (Hl h nh Hnh).
    replace (S h <? length (m_pages q))%nat with true
      by (symmetry; apply Nat.ltb_lt; lia).
    simpl. exact E1. }
  destruct (AllocateRegionNode_of_alloc q h q1 b EA Hinv1)
    as (q2 & E2 & Hinv2 & Hmem2 & R2 & P2).
  { rewrite Hmem1. apply list_lookup_insert_eq. lia. }
  exists q2. split; [exact E2|]. split; [exact Hinv2|].
  split; [rewrite Hmem2, Hmem1; apply list_insert_insert_eq|].
  split; congruence.
Qed.

(** [Reset] rewinds the pool to its root and takes the first slot for the
    new root; the other slots keep what they held. *)
Lemma Reset_shape q h :
  pool_inv q h -> (2 <= length (m_pages q))%nat ->
  exists q',
    Reset q = Ok q' /\ pool_inv q' 1 /\ m_pTreeRoot q' = Some 0%nat /\
    m_pages q' = <[0%nat := region_node full_bounds 0]> (m_pages q) /\
    m_pageSize q' = m_pageSize q.
Proof.
  intros (Hps & Hroot & Hhead & Hh & Hl) Hlen. unfold Reset.
  assert (Hinv0 : pool_inv (with_poolHead q (m_pPoolRoot q)) 0).
  { unfold pool_inv. simpl. repeat split; auto. lia. }
  destruct (AllocateRegionNode_inplace _ 0 full_bounds Hinv0 ltac:(simpl; lia))
    as (q' & E & Hinv' & Hmem & Hr & Hp).
  rewrite E. simpl. eexists. split; [reflexivity|]. simpl.
  split; [exact Hinv'|]. split; [reflexivity|]. split; [exact Hmem|exact Hp].
Qed.

Lemma CQuadTree_new_shape pageSize q :
  CQuadTree_new pageSize = Ok q ->
  pool_inv q 1 /\ m_pTreeRoot q = Some 0%nat /\
  length (m_pages q) = pageSize /\ m_pageSize q = pageSize /\
  m_pages q !! 0%nat = Some (region_node full_bounds 0) /\
  (forall i, (1 <= i < pageSize)%nat ->
     m_pages q !! i =
       Some (set_poolNext CNode_default
               (if (S i <? pageSize)%nat then Some (S i) else None))).
Proof.
  intros Hnew. pose proof (CQuadTree_new_pageSize pageSize q Hnew) as Hps.
  revert Hnew. unfold CQuadTree_new.
  replace (0 <? pageSize)%nat with true by (symmetry; apply Nat.ltb_lt; lia).
  simpl. unfold Reset. simpl.
  set (q0 := mkTree None pageSize None None []).
  change (with_poolHead q0 None) with q0.
  destruct (page_appended_spec q0 ltac:(simpl; lia)) as (mem2 & E & L2 & Hold & Hnew).
  simpl in L2, Hnew.
  set (q1 := mkTree None pageSize (Some 0%nat) (Some 0%nat) mem2).
  assert (EP : AllocatePage q0 = Ok q1).
  { rewrite AllocatePage_unfold. simpl.
    replace (0 <? pageSize)%nat with true by (symmetry; apply Nat.ltb_lt; lia).
    simpl. rewrite E. reflexivity. }
  assert (Hinv1 : pool_inv q1 0).
  { unfold pool_inv. simpl. repeat split; auto; try lia.
    intros i n Hi. rewrite L2.
    assert (Hi' := lookup_lt_Some _ _ _ Hi). rewrite L2 in Hi'.
    rewrite Hnew in Hi by lia. injection Hi as <-. reflexivity. }
  destruct (AllocateNode_tail_spec q1 0 Hinv1 ltac:(simpl; lia))
    as (q2 & E2 & Hinv2 & Hmem & Hr & Hp).
  assert (EA : AllocateNode q0 = Ok (Some 0%nat, q2)).
  { rewrite AllocateNode_unfold. simpl. rewrite EP. simpl. exact E2. }
  destruct (AllocateRegionNode_of_alloc q0 0 q2 full_bounds EA Hinv2)
    as (q3 & E3 & Hinv3 & Hmem3 & Hr3 & Hp3).
  { rewrite Hmem. apply list_lookup_insert_eq. simpl. lia. }
  rewrite E3. simpl. intros H. injection H as <-. simpl.
  split; [exact Hinv3|]. split; [reflexivity|].
  split; [rewrite Hmem3, Hmem, !length_insert; simpl; lia|].
  split; [rewrite Hp3, Hp; reflexivity|].
  rewrite Hmem3, Hmem. simpl. split.
  - apply list_lookup_insert_eq. rewrite length_insert. lia.
  - intros i Hi. rewrite !list_lookup_insert_ne by lia. apply Hnew. lia.
Qed.

Lemma reachable_shape q :
  reachable q ->
  exists h n, pool_inv q h /\ (exists s, h = (1 + 4 * s)%nat) /\
              m_pTreeRoot q = Some 0%nat /\
              (1 <= n)%nat /\ length (m_pages q) = (n * m_pageSize q)%nat.
Proof.
  induction 1 as [ps q Hnew|
                  fuel q p r q' Hq (h & n & Hinv & (s & Hh) & Hr & Hn & Hl) Hv Hf HI|
                  q q' Hq (h & n & Hinv & Hh & Hr & Hn & Hl) HR].
  - destruct (CQuadTree_new_shape ps q Hnew) as (Hinv & Hr & Hl & Hp & _).
    exists 1%nat, 1%nat. split; [exact Hinv|]. split; [exists 0%nat; lia|].
    split; [exact Hr|]. split; [lia|]. rewrite Hl, Hp. lia.
  - destruct (Insert_pool fuel q h p r q' Hinv HI)
      as (j & Hj & Hinv' & R' & P' & _ & (c & L') & _).
    exists (h + 4 * j)%nat, (n + c)%nat.
    split; [exact Hinv'|]. split; [exists (s + j)%nat; lia|].
    split; [congruence|]. split; [lia|].
    rewrite L', Hl, P'. nia.
  - pose proof Hinv as (Hps & _ & _ & Hlt & _).
    destruct (Reset_shape q h Hinv ltac:(nia)) as (q0 & E & Hinv' & R' & Hmem & P').
    rewrite HR in E. injection E as <-.
    exists 1%nat, n. split; [exact Hinv'|]. split; [exists 0%nat; lia|].
    split; [exact R'|].
    split; [exact Hn|]. rewrite Hmem, length_insert, P'. exact Hl.
Qed.

(** ** Reachable trees, continued *)

Lemma reachable_Insert_all fuel l : forall q rs q',
  reachable q -> Forall valid_coord l -> (64 <= fuel)%nat ->
  Insert_all fuel q l = Ok (rs, q') -> reachable q'.
Proof.
  induction l as [|p rest IH]; intros q rs q' Hq Hv Hf H; simpl in H.
  - injection H as _ <-. exact Hq.
  - inversion Hv as [|p' rest' Hp Hrest]; subst.
    destruct (Insert fuel q p) as [[r q1]| | |] eqn:E1; simpl in H; try discriminate.
    destruct (Insert_all fuel q1 rest) as [[rs' q2]| | |] eqn:E2; simpl in H;
      try discriminate.
    injection H as _ <-.
    apply (IH q1 rs' q2); auto.
    apply (reach_insert fuel q p r q1); auto.
Defined.

Lemma tree4_two_reachable : reachable tree4_two.
Proof.
  apply (reachable_Insert_all 64 [mkCoordinate 1 1; mkCoordinate (2 ^ 63) 1] tree4
           [EInsertResult.Success; EInsertResult.Success] tree4_two).
  - exact tree4_reachable.
  - repeat constructor; apply valid_coord_intro; reflexivity.
  - lia.
  - vm_compute. reflexivity.
Defined.

Lemma tree4_recycled_reachable : reachable tree4_recycled.
Proof.
  apply (reach_reset tree4_two tree4_recycled).
  - exact tree4_two_reachable.
  - vm_compute. reflexivity.
Defined.

Lemma tree4_unit_reachable : reachable tree4_unit.
Proof.
  apply (reachable_Insert_all 64 [mkCoordinate 2 2; mkCoordinate 3 3] tree4
           [EInsertResult.Success; EInsertResult.Success] tree4_unit).
  - exact tree4_reachable.
  - repeat constructor; apply valid_coord_intro; reflexivity.
  - lia.
  - vm_compute. reflexivity.
Defined.

Lemma tree4_fresh : fresh tree4.
Proof. apply (fresh_new 4). reflexivity. Defined.

(** ** The pool under sequences of insertions *)

Lemma Insert_reachable_pool fuel q h p r q' :
  reachable q -> pool_inv q h -> valid_coord p -> (64 <= fuel)%nat ->
  Insert fuel q p = Ok (r, q') ->
  exists j, (j <= 64)%nat /\ pool_inv q' (h + 4 * j) /\ grown q h q' (h + 4 * j).
Proof.
  intros Hq Hp Hv Hfuel HI. destruct (reachable_inv q Hq) as [t Ht].
  destruct (Insert_spec 64 q t p Ht Hv ltac:(lia)) as (q1 & E & _).
  rewrite (Insert_mono 64 fuel q p _ E Hfuel) in HI. injection HI as _ <-.
  destruct (Insert_pool 64 q h p _ q1 Hp E) as (j & Hj & Hp' & _ & G).
  exists j. auto.
Qed.

Lemma Insert_all_pool fuel l : forall q h rs q',
  reachable q -> pool_inv q h -> Forall valid_coord l -> (64 <= fuel)%nat ->
  Insert_all fuel q l = Ok (rs, q') ->
  exists j, (j <= 64 * length l)%nat /\ pool_inv q' (h + 4 * j) /\
            grown q h q' (h + 4 * j).
Proof.
  induction l as [|p rest IH]; intros q h rs q' Hq Hp Hv Hfuel H; simpl in H.
  - injection H as _ <-. exists 0%nat. simpl.
    replace (h + 0)%nat with h by lia. split; [lia|]. split; [exact Hp|apply grown_refl].
  - inversion Hv as [|p' rest' Hvp Hrest]; subst.
    destruct (Insert fuel q p) as [[r q1]| | |] eqn:E1; simpl in H; try discriminate.
    destruct (Insert_all fuel q1 rest) as [[rs' q2]| | |] eqn:E2; simpl in H;
      try discriminate.
    injection H as _ <-.
    destruct (Insert_reachable_pool fuel q h p r q1 Hq Hp Hvp Hfuel E1)
      as (j1 & Hj1 & Hp1 & G1).
    destruct (IH q1 _ rs' q2 (reach_insert fuel q p r q1 Hq Hvp Hfuel E1) Hp1 Hrest
                Hfuel E2) as (j2 & Hj2 & Hp2 & G2).
    exists (j1 + j2)%nat. simpl length.
    replace (h + 4 * (j1 + j2))%nat with (h + 4 * j1 + 4 * j2)%nat by lia.
    split; [lia|]. split; [exact Hp2|exact (grown_trans _ _ _ _ _ _ G1 G2)].
Qed.

(** ** The tree under allocation *)

(** A tree stays what it is when the pool moves on and the slots below the
    old head keep their nodes. *)
Lemma inv_below q t q' h h' :
  inv q t -> m_pPoolHead q = Some h -> pool_inv q' h' -> (h <= h')%nat ->
  m_pTreeRoot q' = m_pTreeRoot q ->
  (forall i, (i < h)%nat -> m_pages q' !! i = m_pages q !! i) ->
  inv q' t.
Proof.
  intros (h0 & r & fp & Hinv & Hroot & Hrep & Hfp & Hwf) Hh Hinv' Hle Hr Hfr.
  destruct Hinv as (_ & _ & Hh0 & _). rewrite Hh in Hh0. injection Hh0 as <-.
  exists h', r, fp. split; [exact Hinv'|]. split; [congruence|].
  split; [|split; [|exact Hwf]].
  - eapply rep_frame; [exact Hrep|]. intros i Hi. apply Hfr. apply Hfp. exact Hi.
  - intros i Hi. pose proof (Hfp i Hi). lia.
Qed.

Lemma inv_observe q q' t :
  inv q t -> inv q' t ->
  (forall fuel p, valid_coord p -> (64 <= fuel)%nat -> Find fuel q' p = Find fuel q p) /\
  (forall fuel, (65 <= fuel)%nat -> SanityCheck fuel q' = SanityCheck fuel q).
Proof.
  intros H H'. split.
  - intros fuel p Hv Hf.
    rewrite (Find_spec fuel q t p H Hv Hf), (Find_spec fuel q' t p H' Hv Hf).
    reflexivity.
  - intros fuel Hf.
    rewrite (SanityCheck_spec fuel q t H Hf), (SanityCheck_spec fuel q' t H' Hf).
    reflexivity.
Qed.

(** X1 ([AllocateNode]): on a reachable tree [AllocateNode] returns the
    slot at the head of the pool, value-initialised but for its pool link,
    and moves the head to the next slot; it appends a page exactly when
    the head was the last slot of the store.  The slot is not a node of
    the tree, so [Find] and [SanityCheck] answer as before. *)
Theorem AllocateNode_blank q :
  reachable q ->
  exists h q',
    m_pPoolHead q = Some h /\
    AllocateNode q = Ok (Some h, q') /\
    m_pages q' !! h = Some (set_poolNext CNode_default (Some (S h))) /\
    m_pPoolHead q' = Some (S h) /\
    length (m_pages q') =
      (if (S h <? length (m_pages q))%nat then length (m_pages q)
       else length (m_pages q) + m_pageSize q)%nat /\
    (forall fuel p, valid_coord p -> (64 <= fuel)%nat ->
       Find fuel q' p = Find fuel q p) /\
    (forall fuel, (65 <= fuel)%nat -> SanityCheck fuel q' = SanityCheck fuel q).
Proof.
  intros Hq. destruct (reachable_inv q Hq) as [t Ht].
  destruct (inv_pool q t Ht) as [h Hp].
  destruct (AllocateNode_spec q h Hp) as (q' & E & Hinv' & Hn & Hfr & _ & Hr & _).
  destruct (AllocateNode_length q h Hp) as (q1 & E1 & L1).
  rewrite E in E1. injection E1 as <-.
  pose proof Hp as (_ & _ & Hh & _). pose proof Hinv' as (_ & _ & Hh' & _).
  exists h, q'. split; [exact Hh|]. split; [exact E|]. split; [exact Hn|].
  split; [exact Hh'|]. split; [exact L1|].
  apply (inv_observe q q' t Ht).
  apply (inv_below q t q' h (S h)); auto.
Qed.

Lemma AllocateNode_blank_witness :
  exists h q',
    m_pPoolHead tree4_origin = Some h /\
    AllocateNode tree4_origin = Ok (Some h, q') /\
    m_pages q' !! h = Some (set_poolNext CNode_default (Some (S h))) /\
    m_pPoolHead q' = Some (S h) /\
    length (m_pages q') =
      (if (S h <? length (m_pages tree4_origin))%nat
       then length (m_pages tree4_origin)
       else length (m_pages tree4_origin) + m_pageSize tree4_origin)%nat /\
    (forall fuel p, valid_coord p -> (64 <= fuel)%nat ->
       Find fuel q' p = Find fuel tree4_origin p) /\
    (forall fuel, (65 <= fuel)%nat ->
       SanityCheck fuel q' = SanityCheck fuel tree4_origin).
Proof. apply (AllocateNode_blank tree4_origin). exact tree4_origin_reachable. Defined.

(** X2 ([AllocateLeafNode], [InitializeAsLeaf]): on a reachable tree
    [AllocateLeafNode] returns the slot at the head of the pool as a leaf
    without children that holds the given point and bounds; the tree is
    not touched. *)
Theorem AllocateLeafNode_leaf q point regionBounds :
  reachable q ->
  exists h q',
    m_pPoolHead q = Some h /\
    AllocateLeafNode q point regionBounds = Ok (Some h, q') /\
    m_pages q' !! h =
      Some (mkNode regionBounds point None None None None Leaf (Some (S h))) /\
    m_pPoolHead q' = Some (S h) /\
    (forall fuel p, valid_coord p -> (64 <= fuel)%nat ->
       Find fuel q' p = Find fuel q p) /\
    (forall fuel, (65 <= fuel)%nat -> SanityCheck fuel q' = SanityCheck fuel q).
Proof.
  intros Hq. destruct (reachable_inv q Hq) as [t Ht].
  destruct (inv_pool q t Ht) as [h Hp].
  destruct (AllocateNode_spec q h Hp) as (q1 & E & Hinv1 & Hn & Hfr & _ & Hr & _).
  pose proof Hp as (_ & _ & Hh & _). pose proof Hinv1 as (_ & _ & Hh1 & _).
  assert (Lh : (h < length (m_pages q1))%nat) by (eapply lookup_lt_Some; eauto).
  set (leaf := mkNode regionBounds point None None None None Leaf (Some (S h))).
  exists h, (with_pages q1 (<[h := leaf]> (m_pages q1))).
  split; [exact Hh|]. split.
  { unfold AllocateLeafNode. rewrite E. simpl. rewrite Hn. simpl. reflexivity. }
  split; [simpl; apply list_lookup_insert_eq; exact Lh|].
  split; [exact Hh1|].
  apply (inv_observe q _ t Ht).
  apply (inv_below q t _ h (S h)); auto.
  - apply (pool_inv_update q1 (S h) h _ leaf Hinv1 Hn). reflexivity.
  - intros i Hi. simpl. rewrite list_lookup_insert_ne by lia. apply Hfr. exact Hi.
Qed.

Lemma AllocateLeafNode_leaf_witness :
  exists h q',
    m_pPoolHead tree4_origin = Some h /\
    AllocateLeafNode tree4_origin (mkCoordinate 5 6)
      (mkBounds (mkCoordinate 4 4) (mkCoordinate 7 7)) = Ok (Some h, q') /\
    m_pages q' !! h =
      Some (mkNode (mkBounds (mkCoordinate 4 4) (mkCoordinate 7 7)) (mkCoordinate 5 6)
              None None None None Leaf (Some (S h))) /\
    m_pPoolHead q' = Some (S h) /\
    (forall fuel p, valid_coord p -> (64 <= fuel)%nat ->
       Find fuel q' p = Find fuel tree4_origin p) /\
    (forall fuel, (65 <= fuel)%nat ->
       SanityCheck fuel q' = SanityCheck fuel tree4_origin).
Proof.
  apply (AllocateLeafNode_leaf tree4_origin). exact tree4_origin_reachable.
Defined.

(** X3 ([AllocateRegionNode], [InitializeAsRegion]): on a reachable tree
    [AllocateRegionNode] returns the slot at the head of the pool as an
    empty region with the given bounds.  The assertion of line 190 never
    fires, also for a slot that held a leaf before [Reset]:
    [AllocateNode] has cleared the point. *)
Theorem AllocateRegionNode_region q regionBounds :
  reachable q ->
  exists h q',
    m_pPoolHead q = Some h /\
    AllocateRegionNode q regionBounds = Ok (Some h, q') /\
    m_pages q' !! h =
      Some (mkNode regionBounds CCoordinate_zero None None None None Region
              (Some (S h))) /\
    m_pPoolHead q' = Some (S h) /\
    (forall fuel p, valid_coord p -> (64 <= fuel)%nat ->
       Find fuel q' p = Find fuel q p) /\
    (forall fuel, (65 <= fuel)%nat -> SanityCheck fuel q' = SanityCheck fuel q).
Proof.
  intros Hq. destruct (reachable_inv q Hq) as [t Ht].
  destruct (inv_pool q t Ht) as [h Hp].
  destruct (AllocateRegionNode_spec q h regionBounds Hp)
    as (q' & E & Hinv' & Hn & Hfr & Hr & _).
  pose proof Hp as (_ & _ & Hh & _). pose proof Hinv' as (_ & _ & Hh' & _).
  exists h, q'. split; [exact Hh|]. split; [exact E|]. split; [exact Hn|].
  split; [exact Hh'|].
  apply (inv_observe q q' t Ht).
  apply (inv_below q t q' h (S h)); auto.
Qed.

Lemma AllocateRegionNode_region_witness :
  (exists n, m_pages tree4_recycled !! 1%nat = Some n /\
             m_nodeType n = Leaf /\ m_point n = mkCoordinate 1 1) /\
  exists h q',
    m_pPoolHead tree4_recycled = Some h /\
    AllocateRegionNode tree4_recycled
      (mkBounds (mkCoordinate 4 4) (mkCoordinate 7 7)) = Ok (Some h, q') /\
    m_pages q' !! h =
      Some (mkNode (mkBounds (mkCoordinate 4 4) (mkCoordinate 7 7)) CCoordinate_zero
              None None None None Region (Some (S h))) /\
    m_pPoolHead q' = Some (S h) /\
    (forall fuel p, valid_coord p -> (64 <= fuel)%nat ->
       Find fuel q' p = Find fuel tree4_recycled p) /\
    (forall fuel, (65 <= fuel)%nat ->
       SanityCheck fuel q' = SanityCheck fuel tree4_recycled).
Proof.
  split.
  - eexists. split; [reflexivity|]. split; reflexivity.
  - apply (AllocateRegionNode_region tree4_recycled).
    exact tree4_recycled_reachable.
Defined.

(** X4 ([AllocatePage]): on a reachable tree [AllocatePage] appends one
    page of [m_pageSize] value-initialised nodes, each linked to the next
    and the last to nothing, and links the node at the head of the pool
    to the first node of the page; the head, the roots and the other
    nodes stay as they are. *)
Theorem AllocatePage_appends q :
  reachable q ->
  exists h head q',
    m_pPoolHead q = Some h /\ m_pages q !! h = Some head /\
    AllocatePage q = Ok q' /\
    length (m_pages q') = (length (m_pages q) + m_pageSize q)%nat /\
    m_pages q' !! h = Some (set_poolNext head (Some (length (m_pages q)))) /\
    (forall i, (i < length (m_pages q))%nat -> i <> h ->
       m_pages q' !! i = m_pages q !! i) /\
    (forall i, (length (m_pages q) <= i < length (m_pages q) + m_pageSize q)%nat ->
       m_pages q' !! i =
         Some (set_poolNext CNode_default
                 (if (S i <? length (m_pages q) + m_pageSize q)%nat
                  then Some (S i) else None))) /\
    m_pPoolHead q' = Some h /\ m_pPoolRoot q' = m_pPoolRoot q /\
    m_pTreeRoot q' = m_pTreeRoot q /\ m_pageSize q' = m_pageSize q.
Proof.
  intros Hq. destruct (reachable_inv q Hq) as [t Ht].
  destruct (inv_pool q t Ht) as [h (Hps & Hroot & Hhead & Hh & Hl)].
  destruct (lookup_lt_is_Some_2 (m_pages q) h Hh) as [nh Hnh].
  destruct (page_appended_spec q ltac:(lia)) as (mem2 & E & L2 & Hold & Hnew).
  exists h, nh, (with_pages q (<[h := set_poolNext nh (Some (length (m_pages q)))]> mem2)).
  split; [exact Hhead|]. split; [exact Hnh|]. split.
  { rewrite AllocatePage_unfold.
    replace (0 <? m_pageSize q)%nat with true by (symmetry; apply Nat.ltb_lt; lia).
    simpl. rewrite E, Hroot, Hhead. simpl.
    rewrite (Hold h Hh), Hnh. reflexivity. }
  simpl. split; [rewrite length_insert; exact L2|].
  split; [apply list_lookup_insert_eq; lia|].
  split; [intros i Hi Hne; rewrite list_lookup_insert_ne by congruence; apply Hold; exact Hi|].
  split; [intros i Hi; rewrite list_lookup_insert_ne by lia; apply Hnew; exact Hi|].
  repeat split; auto.
Qed.

Lemma AllocatePage_appends_witness :
  exists h head q',
    m_pPoolHead tree4_origin = Some h /\ m_pages tree4_origin !! h = Some head /\
    AllocatePage tree4_origin = Ok q' /\
    length (m_pages q') =
      (length (m_pages tree4_origin) + m_pageSize tree4_origin)%nat /\
    m_pages q' !! h =
      Some (set_poolNext head (Some (length (m_pages tree4_origin)))) /\
    (forall i, (i < length (m_pages tree4_origin))%nat -> i <> h ->
       m_pages q' !! i = m_pages tree4_origin !! i) /\
    (forall i, (length (m_pages tree4_origin) <= i
                < length (m_pages tree4_origin) + m_pageSize tree4_origin)%nat ->
       m_pages q' !! i =
         Some (set_poolNext CNode_default
                 (if (S i <? length (m_pages tree4_origin)
                             + m_pageSize tree4_origin)%nat
                  then Some (S i) else None))) /\
    m_pPoolHead q' = Some h /\ m_pPoolRoot q' = m_pPoolRoot tree4_origin /\
    m_pTreeRoot q' = m_pTreeRoot tree4_origin /\
    m_pageSize q' = m_pageSize tree4_origin.
Proof. apply (AllocatePage_appends tree4_origin). exact tree4_origin_reachable. Defined.

(** ** The store of a reachable tree *)

(** X5 (the constructor): [CQuadTree(pageSize)] stops at the assertion of
    line 303 for the page size 0 and at that of line 531 for the page
    size 1.  For every larger page size it returns a tree of one page:
    the first slot is the root, an empty region over the whole range, the
    head of the pool is the second slot, and the other slots are
    value-initialised nodes linked in order. *)
Theorem constructor_outcome pageSize :
  match pageSize with
  | O => CQuadTree_new pageSize = AssertFail 303
  | S O => CQuadTree_new pageSize = AssertFail 531
  | _ =>
      exists q,
        CQuadTree_new pageSize = Ok q /\
        m_pageSize q = pageSize /\ length (m_pages q) = pageSize /\
        m_pTreeRoot q = Some 0%nat /\ m_pPoolRoot q = Some 0%nat /\
        m_pPoolHead q = Some 1%nat /\
        m_pages q !! 0%nat =
          Some (mkNode full_bounds CCoordinate_zero None None None None Region
                  (Some 1%nat)) /\
        forall i, (1 <= i < pageSize)%nat ->
          m_pages q !! i =
            Some (mkNode CBounds_zero CCoordinate_zero None None None None
                    Undefined (if (S i <? pageSize)%nat then Some (S i) else None))
  end.
Proof.
  destruct pageSize as [|[|ps]]; [reflexivity|reflexivity|].
  destruct (CQuadTree_new_spec (S (S ps)) ltac:(lia)) as (q & E & _).
  destruct (CQuadTree_new_shape _ q E) as (Hinv & Hr & Hl & Hp & H0 & Hi).
  destruct Hinv as (_ & Hroot & Hhead & _).
  exists q. repeat (split; [assumption|]). exact Hi.
Qed.

(** X6 (the store): in every reachable state the store is a whole number
    of pages, at least one, of two or more slots each; the root of the
    tree and the root of the pool are its first slot, and the head of the
    pool is a later slot of the store, one past a multiple of four (the
    root and four children for every [Split]). *)
Theorem store_shape q :
  reachable q ->
  m_pTreeRoot q = Some 0%nat /\ m_pPoolRoot q = Some 0%nat /\
  (2 <= m_pageSize q)%nat /\
  exists h n s,
    m_pPoolHead q = Some h /\ h = (1 + 4 * s)%nat /\
    (h < length (m_pages q))%nat /\
    (1 <= n)%nat /\ length (m_pages q) = (n * m_pageSize q)%nat.
Proof.
  intros Hq.
  destruct (reachable_shape q Hq) as (h & n & Hinv & (s & Hh) & Hr & Hn & Hl).
  destruct Hinv as (Hps & Hroot & Hhead & Hlt & _).
  split; [exact Hr|]. split; [exact Hroot|]. split; [exact Hps|].
  exists h, n, s. repeat split; auto.
Qed.

Lemma store_shape_witness :
  m_pTreeRoot tree4_two = Some 0%nat /\ m_pPoolRoot tree4_two = Some 0%nat /\
  (2 <= m_pageSize tree4_two)%nat /\
  exists h n s,
    m_pPoolHead tree4_two = Some h /\ h = (1 + 4 * s)%nat /\
    (h < length (m_pages tree4_two))%nat /\
    (1 <= n)%nat /\ length (m_pages tree4_two) = (n * m_pageSize tree4_two)%nat.
Proof. apply (store_shape tree4_two). exact tree4_two_reachable. Defined.

(** X7 (what [Insert] allocates): on a reachable tree [Insert] takes
    nodes from the pool four at a time, one [Split] each, and at most 64
    times; the store grows by whole pages, and by none unless the nodes
    taken reach into the last page; the page size stays, and a duplicate
    takes nothing. *)
Theorem Insert_allocation fuel q point :
  reachable q -> valid_coord point -> (64 <= fuel)%nat ->
  exists r q' h j c,
    Insert fuel q point = Ok (r, q') /\
    m_pPoolHead q = Some h /\ m_pPoolHead q' = Some (h + 4 * j)%nat /\
    (j <= 64)%nat /\
    length (m_pages q') = (length (m_pages q) + c * m_pageSize q)%nat /\
    (c = 0%nat \/ (length (m_pages q') <= h + 4 * j + m_pageSize q)%nat) /\
    m_pageSize q' = m_pageSize q /\
    (r = EInsertResult.DuplicateEntry -> j = 0%nat /\ c = 0%nat).
Proof.
  intros Hq Hv Hfuel. destruct (reachable_inv q Hq) as [t Ht].
  destruct (inv_pool q t Ht) as [h Hp].
  destruct (Insert_spec 64 q t point Ht Hv ltac:(lia)) as (q' & E & Hinv' & _).
  destruct (Insert_pool 64 q h point _ q' Hp E)
    as (j & Hj & Hp' & _ & P' & _ & (c & L') & G').
  pose proof Hp as (Hps & _ & Hh & _). pose proof Hp' as (_ & _ & Hh' & _).
  exists (t_insert_result t point), q', h, j, c.
  split; [exact (Insert_mono 64 fuel q point _ E Hfuel)|].
  split; [exact Hh|]. split; [exact Hh'|]. split; [exact Hj|].
  split; [exact L'|].
  split; [destruct G' as [G'|G']; [left; nia|right; exact G']|].
  split; [exact P'|].
  intros Hdup. unfold t_insert_result in Hdup.
  destruct (t_find t point) eqn:Ef; try discriminate.
  rewrite (Insert_spec_dup 64 q t point Ht Hv ltac:(lia) Ef) in E.
  injection E as _ <-. rewrite Hh in Hh'. injection Hh' as Hh'.
  split; [lia|]. nia.
Qed.

Lemma Insert_allocation_witness :
  exists r q' h j c,
    Insert 64 tree4_origin (mkCoordinate 0 1) = Ok (r, q') /\
    m_pPoolHead tree4_origin = Some h /\ m_pPoolHead q' = Some (h + 4 * j)%nat /\
    (j <= 64)%nat /\
    length (m_pages q') =
      (length (m_pages tree4_origin) + c * m_pageSize tree4_origin)%nat /\
    (c = 0%nat \/
     (length (m_pages q') <= h + 4 * j + m_pageSize tree4_origin)%nat) /\
    m_pageSize q' = m_pageSize tree4_origin /\
    (r = EInsertResult.DuplicateEntry -> j = 0%nat /\ c = 0%nat).
Proof.
  apply (Insert_allocation 64 tree4_origin (mkCoordinate 0 1)).
  - exact tree4_origin_reachable.
  - apply valid_coord_intro. reflexivity.
  - lia.
Defined.

(** X8 ([Reset] in place): [Reset] of a reachable tree rewrites the first
    slot of the store into the empty root and nothing else: no page is
    released or added, the nodes of the old tree stay in their slots, and
    the pool hands them out again from the second slot on. *)
Theorem Reset_in_place q :
  reachable q ->
  exists q',
    Reset q = Ok q' /\
    m_pages q' =
      <[0%nat := mkNode full_bounds CCoordinate_zero None None None None Region
                   (Some 1%nat)]> (m_pages q) /\
    m_pTreeRoot q' = Some 0%nat /\ m_pPoolRoot q' = Some 0%nat /\
    m_pPoolHead q' = Some 1%nat /\ m_pageSize q' = m_pageSize q.
Proof.
  intros Hq.
  destruct (reachable_shape q Hq) as (h & n & Hinv & Hh & Hr & Hn & Hl).
  pose proof Hinv as (Hps & _ & _ & Hlt & _).
  destruct (Reset_shape q h Hinv ltac:(nia)) as (q' & E & Hinv' & R' & Hmem & P').
  destruct Hinv' as (_ & Hroot' & Hhead' & _).
  exists q'. repeat split; auto.
Qed.

Lemma Reset_in_place_witness :
  exists q',
    Reset tree4_two = Ok q' /\
    m_pages q' =
      <[0%nat := mkNode full_bounds CCoordinate_zero None None None None Region
                   (Some 1%nat)]> (m_pages tree4_two) /\
    m_pTreeRoot q' = Some 0%nat /\ m_pPoolRoot q' = Some 0%nat /\
    m_pPoolHead q' = Some 1%nat /\ m_pageSize q' = m_pageSize tree4_two.
Proof. apply (Reset_in_place tree4_two). exact tree4_two_reachable. Defined.

(** X9 (the nodes a sequence of insertions takes): from a reachable tree,
    the insertion of [n] coordinates moves the head of the pool forward by
    at most [256 * n] slots; the store keeps its size as long as the head
    stays inside it, and otherwise ends within a page of the head. *)
Theorem Insert_all_memory fuel q points :
  reachable q -> Forall valid_coord points -> (64 <= fuel)%nat ->
  exists rs q' h h',
    Insert_all fuel q points = Ok (rs, q') /\
    m_pPoolHead q = Some h /\ m_pPoolHead q' = Some h' /\
    (h <= h' <= h + 256 * length points)%nat /\
    (length (m_pages q') = length (m_pages q) \/
     (length (m_pages q') <= h' + m_pageSize q)%nat) /\
    ((h' < length (m_pages q))%nat -> length (m_pages q') = length (m_pages q)).
Proof.
  intros Hq Hv Hfuel. destruct (reachable_inv q Hq) as [t Ht].
  destruct (inv_pool q t Ht) as [h Hp].
  destruct (Insert_all_spec fuel points q t Ht Hv Hfuel) as (q' & E & _).
  destruct (Insert_all_pool fuel points q h _ q' Hq Hp Hv Hfuel E)
    as (j & Hj & Hp' & _ & _ & (c & L) & G).
  pose proof Hp as (Hps & _ & Hh & _). pose proof Hp' as (_ & _ & Hh' & _).
  exists (t_results t points), q', h, (h + 4 * j)%nat.
  split; [exact E|]. split; [exact Hh|]. split; [exact Hh'|].
  split; [lia|]. split; [exact G|].
  intros Hlt. destruct G as [G|G]; [exact G|].
  destruct c as [|c]; [lia|]. exfalso. nia.
Qed.

Lemma Insert_all_memory_witness :
  exists rs q' h h',
    Insert_all 64 tree4_origin [mkCoordinate 0 1; mkCoordinate 9 9] = Ok (rs, q') /\
    m_pPoolHead tree4_origin = Some h /\ m_pPoolHead q' = Some h' /\
    (h <= h' <= h + 256 * length [mkCoordinate 0%Z 1%Z; mkCoordinate 9%Z 9%Z])%nat /\
    (length (m_pages q') = length (m_pages tree4_origin) \/
     (length (m_pages q') <= h' + m_pageSize tree4_origin)%nat) /\
    ((h' < length (m_pages tree4_origin))%nat ->
     length (m_pages q') = length (m_pages tree4_origin)).
Proof.
  apply (Insert_all_memory 64 tree4_origin [mkCoordinate 0 1; mkCoordinate 9 9]).
  - exact tree4_origin_reachable.
  - repeat constructor; apply valid_coord_intro; reflexivity.
  - lia.
Defined.

(** ** Insertions of points the tree holds already *)

Lemma t_insert_found t p :
  t_find t p = EFindResult.Success -> t_insert t p = t.
Proof.
  induction t as [b0|b0 e|b0 nw IHnw ne IHne se IHse sw IHsw]; simpl; intros H.
  - discriminate.
  - destruct (coord_eq e p); [reflexivity|discriminate].
  - destruct (which _ _ _ p); f_equal; auto.
Qed.

Lemma t_find_cases t p :
  t_find t p = EFindResult.Success \/ t_find t p = EFindResult.NoEntry.
Proof.
  pose proof (t_find_not_out t p). destruct (t_find t p); auto. contradiction.
Qed.

Lemma t_results_length l : forall t, length (t_results t l) = length l.
Proof. induction l as [|p rest IH]; intros t; simpl; [reflexivity|]. rewrite IH. reflexivity. Qed.

Lemma t_results_lookup l : forall t i p,
  l !! i = Some p ->
  t_results t l !! i = Some (t_insert_result (t_insert_all t (take i l)) p).
Proof.
  induction l as [|a rest IH]; intros t i p H; [discriminate|].
  destruct i as [|i]; simpl in H |- *.
  - injection H as ->. reflexivity.
  - apply IH. exact H.
Qed.

(** ** Points that share no cell *)

Lemma cells_distinct_subset l1 l2 :
  (forall a, In a l1 -> In a l2) -> cells_distinct l2 -> cells_distinct l1.
Proof. intros Hs H p q Hp Hq. apply H; auto. Qed.

Lemma cells_ok_head acc p :
  cells_distinct acc ->
  (existsb (fun e => coord_eq e p) acc
   || forallb (fun e => negb (same_block e p)) acc = true <->
   cells_distinct (p :: acc)).
Proof.
  intros Hacc. rewrite orb_true_iff, existsb_coord_eq, forallb_forall. split.
  - intros [Hin|Hall].
    + apply (cells_distinct_subset _ acc); [|exact Hacc].
      intros a [<-|Ha]; auto.
    + intros a b [<-|Ha] [<-|Hb] Hne.
      * contradiction.
      * rewrite same_block_sym. apply negb_true_iff. apply Hall. exact Hb.
      * apply negb_true_iff. apply Hall. exact Ha.
      * apply Hacc; auto.
  - intros Hd.
    destruct (existsb (fun e => coord_eq e p) acc) eqn:Ex.
    + left. apply existsb_coord_eq. exact Ex.
    + right. intros e He. apply negb_true_iff. apply Hd.
      * right. exact He.
      * left. reflexivity.
      * intros ->. apply existsb_coord_eq in He. congruence.
Qed.

Lemma cells_ok_spec l : forall acc,
  cells_distinct acc -> (cells_ok acc l = true <-> cells_distinct (acc ++ l)).
Proof.
  induction l as [|p rest IH]; intros acc Hacc; simpl.
  - rewrite app_nil_r. split; auto.
  - rewrite andb_true_iff, (cells_ok_head acc p Hacc). split.
    + intros [Hd Hrest]. apply (IH (p :: acc) Hd) in Hrest.
      apply (cells_distinct_subset _ ((p :: acc) ++ rest)); [|exact Hrest].
      intros a. simpl. rewrite !in_app_iff. simpl. tauto.
    + intros Hd.
      assert (Hd' : cells_distinct (p :: acc)).
      { apply (cells_distinct_subset _ (acc ++ p :: rest)); [|exact Hd].
        intros a. simpl. rewrite !in_app_iff. simpl. tauto. }
      split; [exact Hd'|]. apply (IH (p :: acc) Hd').
      apply (cells_distinct_subset _ (acc ++ p :: rest)); [|exact Hd].
      intros a. simpl. rewrite !in_app_iff. simpl. tauto.
Qed.

(** A sequence of insertions leaves the tree free of unit cells exactly
    when it was so before and every inserted point is an old one or shares
    no 2 x 2 cell with the points before it. *)
Lemma t_insert_all_cells l : forall t acc,
  wf 64 full_bounds t -> (forall e, In e (points_of t) <-> In e acc) ->
  Forall valid_coord l ->
  level_ok 64 (t_insert_all t l) = level_ok 64 t && cells_ok acc l.
Proof.
  induction l as [|p rest IH]; intros t acc Hwf Hpts Hv;
    unfold t_insert_all in *; cbn [fold_left cells_ok].
  - rewrite andb_true_r. reflexivity.
  - inversion Hv as [|p' rest' Hp Hrest]; subst.
    assert (Hwf' : wf 64 full_bounds (t_insert t p))
      by (apply t_insert_wf; auto using sq_full, full_bounds_Contains).
    rewrite (IH (t_insert t p) (p :: acc)); auto.
    + destruct (existsb (fun e => coord_eq e p) acc) eqn:Ex.
      * apply existsb_coord_eq in Ex. apply Hpts in Ex.
        apply (t_find_points t 64 full_bounds p Hwf sq_full) in Ex.
        rewrite (t_insert_found t p Ex). reflexivity.
      * rewrite (t_insert_level t 63 full_bounds p Hwf sq_full aligned_full
                   (full_bounds_Contains p Hp) ltac:(lia)).
        -- rewrite (forallb_equiv _ (points_of t) acc Hpts). simpl.
           symmetry. apply andb_assoc.
        -- intros Hin. apply Hpts in Hin. apply existsb_coord_eq in Hin. congruence.
    + intros e. rewrite (points_t_insert t p e Hwf Hp). simpl. rewrite Hpts.
      split; intros [H|H]; auto.
Qed.

Lemma t_insert_all_level_false l : forall t,
  wf 64 full_bounds t -> Forall valid_coord l ->
  level_ok 64 t = false -> level_ok 64 (t_insert_all t l) = false.
Proof.
  intros t Hwf Hv Hl.
  rewrite (t_insert_all_cells l t (points_of t) Hwf ltac:(tauto) Hv), Hl.
  reflexivity.
Qed.

Lemma cells_ok_distinct l : cells_ok [] l = true <-> cells_distinct l.
Proof.
  assert (Hnil : cells_distinct []) by (intros p q []).
  exact (cells_ok_spec l [] Hnil).
Qed.


(** Insertions into a tree just made or reset, then the validator. *)
Lemma round_spec fuel q l :
  fresh q -> Forall valid_coord l -> (65 <= fuel)%nat ->
  exists rs q',
    Insert_all fuel q l = Ok (rs, q') /\ reachable q' /\
    SanityCheck fuel q' = if cells_ok [] l then Ok tt else AssertFail 426.
Proof.
  intros Hfresh Hv Hfuel.
  pose proof (fresh_inv q Hfresh) as Hinv.
  destruct (Insert_all_spec fuel l q _ Hinv Hv ltac:(lia)) as (q' & E & Hinv' & _).
  eexists. exists q'. split; [exact E|]. split.
  - apply (reachable_Insert_all fuel l q _ q' (fresh_reachable q Hfresh) Hv
             ltac:(lia) E).
  - rewrite (SanityCheck_level fuel q' _ Hinv' Hfuel).
    rewrite (t_insert_all_cells l (TEmpty full_bounds) [] eq_refl
               ltac:(simpl; tauto) Hv).
    reflexivity.
Qed.

(** ** [Insert] and [Find] *)

(** X10 ([Insert] changes the answer of [Find] for its point only): on a
    reachable tree [Insert] reports a duplicate exactly when [Find] found
    the point before and succeeds exactly when [Find] did not; afterwards
    [Find] finds the point, and answers as before for every other
    coordinate. *)
Theorem Insert_then_Find fuel q point :
  reachable q -> valid_coord point -> (64 <= fuel)%nat ->
  exists r q',
    Insert fuel q point = Ok (r, q') /\
    (r = EInsertResult.DuplicateEntry <->
     Find fuel q point = Ok EFindResult.Success) /\
    (r = EInsertResult.Success <-> Find fuel q point = Ok EFindResult.NoEntry) /\
    Find fuel q' point = Ok EFindResult.Success /\
    forall p, valid_coord p -> p <> point -> Find fuel q' p = Find fuel q p.
Proof.
  intros Hq Hv Hfuel. destruct (reachable_inv q Hq) as [t Ht].
  destruct (Insert_spec fuel q t point Ht Hv Hfuel) as (q' & E & Hinv' & _).
  pose proof (inv_wf _ _ Ht) as Hwf.
  exists (t_insert_result t point), q'. split; [exact E|].
  rewrite (Find_spec fuel q t point Ht Hv Hfuel). unfold t_insert_result.
  split; [|split; [|split]].
  - destruct (t_find_cases t point) as [->| ->]; split; try discriminate; auto.
  - destruct (t_find_cases t point) as [->| ->]; split; try discriminate; auto.
  - rewrite (Find_spec fuel q' _ point Hinv' Hv Hfuel).
    rewrite (t_insert_find t 64 full_bounds point point Hwf sq_full)
      by auto using full_bounds_Contains.
    rewrite coord_eq_refl. reflexivity.
  - intros p Hp Hne.
    rewrite (Find_spec fuel q' _ p Hinv' Hp Hfuel), (Find_spec fuel q t p Ht Hp Hfuel).
    rewrite (t_insert_find t 64 full_bounds point p Hwf sq_full)
      by auto using full_bounds_Contains.
    replace (coord_eq point p) with false; [reflexivity|].
    symmetry. apply coord_eq_false. congruence.
Qed.

Lemma Insert_then_Find_witness :
  exists r q',
    Insert 64 tree4_two (mkCoordinate 1 0) = Ok (r, q') /\
    (r = EInsertResult.DuplicateEntry <->
     Find 64 tree4_two (mkCoordinate 1 0) = Ok EFindResult.Success) /\
    (r = EInsertResult.Success <->
     Find 64 tree4_two (mkCoordinate 1 0) = Ok EFindResult.NoEntry) /\
    Find 64 q' (mkCoordinate 1 0) = Ok EFindResult.Success /\
    forall p, valid_coord p -> p <> mkCoordinate 1 0 ->
      Find 64 q' p = Find 64 tree4_two p.
Proof.
  apply (Insert_then_Find 64 tree4_two (mkCoordinate 1 0)).
  - exact tree4_two_reachable.
  - apply valid_coord_intro. reflexivity.
  - lia.
Defined.

(** X11 (insertions with repetitions): after construction or [Reset], the
    insertion of any sequence of coordinates reports a duplicate exactly
    for the coordinates that occur earlier in the sequence and succeeds
    for the others; afterwards [Find] finds exactly the coordinates of the
    sequence. *)
Theorem Insert_all_with_duplicates fuel q points :
  fresh q -> Forall valid_coord points -> (64 <= fuel)%nat ->
  exists rs q',
    Insert_all fuel q points = Ok (rs, q') /\
    length rs = length points /\
    (forall i p, points !! i = Some p ->
       (In p (take i points) -> rs !! i = Some EInsertResult.DuplicateEntry) /\
       (~ In p (take i points) -> rs !! i = Some EInsertResult.Success)) /\
    (forall p, valid_coord p ->
       (In p points -> Find fuel q' p = Ok EFindResult.Success) /\
       (~ In p points -> Find fuel q' p = Ok EFindResult.NoEntry)).
Proof.
  intros Hfresh Hv Hfuel.
  pose proof (fresh_inv q Hfresh) as Hinv.
  destruct (Insert_all_spec fuel points q _ Hinv Hv Hfuel) as (q' & E & Hinv' & _).
  exists (t_results (TEmpty full_bounds) points), q'.
  split; [exact E|]. split; [apply t_results_length|]. split.
  - intros i p Hi. rewrite (t_results_lookup points _ i p Hi).
    unfold t_insert_result.
    rewrite (t_insert_all_find (take i points) (TEmpty full_bounds) p)
      by (try reflexivity; apply Forall_take; exact Hv).
    split; intros Hin.
    + apply existsb_coord_eq in Hin. rewrite Hin. reflexivity.
    + destruct (existsb _ (take i points)) eqn:Ex; [|reflexivity].
      apply existsb_coord_eq in Ex. contradiction.
  - intros p Hp.
    rewrite (Find_spec fuel q' _ p Hinv' Hp Hfuel).
    rewrite (t_insert_all_find points _ p) by (auto; reflexivity).
    split; intros Hin.
    + apply existsb_coord_eq in Hin. rewrite Hin. reflexivity.
    + destruct (existsb _ points) eqn:Ex; [|reflexivity].
      apply existsb_coord_eq in Ex. contradiction.
Qed.

Lemma Insert_all_with_duplicates_witness :
  exists rs q',
    Insert_all 64 tree4 [mkCoordinate 3 4; mkCoordinate 0 0; mkCoordinate 3 4]
      = Ok (rs, q') /\
    length rs = length [mkCoordinate 3 4; mkCoordinate 0 0; mkCoordinate 3 4] /\
    (forall i p,
       [mkCoordinate 3 4; mkCoordinate 0 0; mkCoordinate 3 4] !! i = Some p ->
       (In p (take i [mkCoordinate 3 4; mkCoordinate 0 0; mkCoordinate 3 4]) ->
        rs !! i = Some EInsertResult.DuplicateEntry) /\
       (~ In p (take i [mkCoordinate 3 4; mkCoordinate 0 0; mkCoordinate 3 4]) ->
        rs !! i = Some EInsertResult.Success)) /\
    (forall p, valid_coord p ->
       (In p [mkCoordinate 3 4; mkCoordinate 0 0; mkCoordinate 3 4] ->
        Find 64 q' p = Ok EFindResult.Success) /\
       (~ In p [mkCoordinate 3 4; mkCoordinate 0 0; mkCoordinate 3 4] ->
        Find 64 q' p = Ok EFindResult.NoEntry)).
Proof.
  apply (Insert_all_with_duplicates 64 tree4
           [mkCoordinate 3 4; mkCoordinate 0 0; mkCoordinate 3 4]).
  - exact tree4_fresh.
  - repeat constructor; apply valid_coord_intro; reflexivity.
  - lia.
Defined.

(** X12 (the order of insertion does not matter to [Find]): two sequences
    with the same coordinates, in any order and with any repetitions,
    inserted into the same reachable tree, leave trees on which [Find]
    gives the same answer for every coordinate. *)
Theorem Find_order_independent fuel q points1 points2 :
  reachable q -> Forall valid_coord points1 -> Forall valid_coord points2 ->
  (forall p, In p points1 <-> In p points2) -> (64 <= fuel)%nat ->
  exists rs1 q1 rs2 q2,
    Insert_all fuel q points1 = Ok (rs1, q1) /\
    Insert_all fuel q points2 = Ok (rs2, q2) /\
    forall p, valid_coord p -> Find fuel q1 p = Find fuel q2 p.
Proof.
  intros Hq Hv1 Hv2 Hsame Hfuel. destruct (reachable_inv q Hq) as [t Ht].
  pose proof (inv_wf _ _ Ht) as Hwf.
  destruct (Insert_all_spec fuel points1 q t Ht Hv1 Hfuel) as (q1 & E1 & Hinv1 & _).
  destruct (Insert_all_spec fuel points2 q t Ht Hv2 Hfuel) as (q2 & E2 & Hinv2 & _).
  exists (t_results t points1), q1, (t_results t points2), q2.
  split; [exact E1|]. split; [exact E2|]. intros p Hp.
  rewrite (Find_spec fuel q1 _ p Hinv1 Hp Hfuel), (Find_spec fuel q2 _ p Hinv2 Hp Hfuel).
  rewrite !t_insert_all_find by auto.
  replace (existsb (fun e => coord_eq e p) points2)
    with (existsb (fun e => coord_eq e p) points1); [reflexivity|].
  apply eq_true_iff_eq. rewrite !existsb_coord_eq. apply Hsame.
Qed.

Lemma Find_order_independent_witness :
  exists rs1 q1 rs2 q2,
    Insert_all 64 tree4_origin [mkCoordinate 2 2; mkCoordinate 3 3; mkCoordinate 2 2]
      = Ok (rs1, q1) /\
    Insert_all 64 tree4_origin [mkCoordinate 3 3; mkCoordinate 2 2] = Ok (rs2, q2) /\
    forall p, valid_coord p -> Find 64 q1 p = Find 64 q2 p.
Proof.
  apply (Find_order_independent 64 tree4_origin
           [mkCoordinate 2 2; mkCoordinate 3 3; mkCoordinate 2 2]
           [mkCoordinate 3 3; mkCoordinate 2 2]).
  - exact tree4_origin_reachable.
  - repeat constructor; apply valid_coord_intro; reflexivity.
  - repeat constructor; apply valid_coord_intro; reflexivity.
  - intros p. simpl. tauto.
  - lia.
Defined.

(** X13 ([Reset] gives a tree like new): the tree [Reset] makes of a
    reachable tree and a newly constructed tree of any page size answer
    alike: the same outcomes for a sequence of insertions, and afterwards
    the same outcome of [Find] for every coordinate and the same outcome of
    [SanityCheck]. *)
Theorem Reset_like_new fuel q q0 pageSize qn points :
  reachable q -> Reset q = Ok q0 -> CQuadTree_new pageSize = Ok qn ->
  Forall valid_coord points -> (65 <= fuel)%nat ->
  exists rs q1 q2,
    Insert_all fuel q0 points = Ok (rs, q1) /\
    Insert_all fuel qn points = Ok (rs, q2) /\
    (forall p, valid_coord p -> Find fuel q1 p = Find fuel q2 p) /\
    SanityCheck fuel q1 = SanityCheck fuel q2.
Proof.
  intros Hq HR Hnew Hv Hfuel.
  pose proof (fresh_inv q0 (fresh_reset q q0 Hq HR)) as I0.
  pose proof (fresh_inv qn (fresh_new pageSize qn Hnew)) as In'.
  destruct (Insert_all_spec fuel points q0 _ I0 Hv ltac:(lia)) as (q1 & E1 & J1 & _).
  destruct (Insert_all_spec fuel points qn _ In' Hv ltac:(lia)) as (q2 & E2 & J2 & _).
  exists (t_results (TEmpty full_bounds) points), q1, q2.
  split; [exact E1|]. split; [exact E2|]. split.
  - intros p Hp.
    rewrite (Find_spec fuel q1 _ p J1 Hp ltac:(lia)).
    rewrite (Find_spec fuel q2 _ p J2 Hp ltac:(lia)). reflexivity.
  - rewrite (SanityCheck_spec fuel q1 _ J1 Hfuel).
    rewrite (SanityCheck_spec fuel q2 _ J2 Hfuel). reflexivity.
Qed.

Lemma Reset_like_new_witness :
  exists rs q1 q2,
    Insert_all 65 tree4_recycled [mkCoordinate 0 0; mkCoordinate 7 9] = Ok (rs, q1) /\
    Insert_all 65 tree4 [mkCoordinate 0 0; mkCoordinate 7 9] = Ok (rs, q2) /\
    (forall p, valid_coord p -> Find 65 q1 p = Find 65 q2 p) /\
    SanityCheck 65 q1 = SanityCheck 65 q2.
Proof.
  apply (Reset_like_new 65 tree4_two tree4_recycled 4 tree4
           [mkCoordinate 0 0; mkCoordinate 7 9]).
  - exact tree4_two_reachable.
  - vm_compute. reflexivity.
  - reflexivity.
  - repeat constructor; apply valid_coord_intro; reflexivity.
  - lia.
Defined.

(** ** [SanityCheck] *)

(** X14 (what [SanityCheck] can report): on a reachable tree
    [SanityCheck] passes or stops at the assertion of line 426; no other
    assertion of the validator fires, and no pointer it follows is null or
    dangling. *)
Theorem SanityCheck_outcomes fuel q :
  reachable q -> (65 <= fuel)%nat ->
  SanityCheck fuel q = Ok tt \/ SanityCheck fuel q = AssertFail 426.
Proof.
  intros Hq Hfuel. destruct (reachable_inv q Hq) as [t Ht].
  rewrite (SanityCheck_level fuel q t Ht Hfuel).
  destruct (level_ok 64 t); auto.
Qed.

Lemma SanityCheck_outcomes_witness :
  SanityCheck 65 tree4_unit = Ok tt \/ SanityCheck 65 tree4_unit = AssertFail 426.
Proof. apply (SanityCheck_outcomes 65 tree4_unit); [exact tree4_unit_reachable|lia]. Defined.

(** X15 (when [SanityCheck] passes): after construction or [Reset] and
    the insertion of any sequence of coordinates, [SanityCheck] passes
    exactly when no two different coordinates of the sequence lie in the
    same 2 x 2 cell of the grid, and stops at the assertion of line 426
    otherwise. *)
Theorem SanityCheck_cells fuel q points :
  fresh q -> Forall valid_coord points -> (65 <= fuel)%nat ->
  exists rs q',
    Insert_all fuel q points = Ok (rs, q') /\
    (SanityCheck fuel q' = Ok tt <-> cells_distinct points) /\
    (~ cells_distinct points -> SanityCheck fuel q' = AssertFail 426).
Proof.
  intros Hfresh Hv Hfuel.
  pose proof (fresh_inv q Hfresh) as Hinv.
  destruct (Insert_all_spec fuel points q _ Hinv Hv ltac:(lia)) as (q' & E & Hinv' & _).
  eexists. exists q'. split; [exact E|].
  rewrite (SanityCheck_level fuel q' _ Hinv' Hfuel).
  rewrite (t_insert_all_cells points (TEmpty full_bounds) [] eq_refl
             ltac:(simpl; tauto) Hv).
  simpl.
  assert (Hnil : cells_distinct []) by (intros p q0 []).
  pose proof (cells_ok_spec points [] Hnil) as Hspec. simpl in Hspec.
  destruct (cells_ok [] points).
  - split; [split; [intros _; apply Hspec; reflexivity|reflexivity]|].
    intros Hn. exfalso. apply Hn. apply Hspec. reflexivity.
  - split; [split; [discriminate|]|reflexivity].
    intros Hd. apply Hspec in Hd. discriminate.
Qed.

Lemma SanityCheck_cells_witness :
  exists rs q',
    Insert_all 65 tree4 [mkCoordinate 2 2; mkCoordinate 9 9; mkCoordinate 2 2]
      = Ok (rs, q') /\
    (SanityCheck 65 q' = Ok tt <->
     cells_distinct [mkCoordinate 2 2; mkCoordinate 9 9; mkCoordinate 2 2]) /\
    (~ cells_distinct [mkCoordinate 2 2; mkCoordinate 9 9; mkCoordinate 2 2] ->
     SanityCheck 65 q' = AssertFail 426).
Proof.
  apply (SanityCheck_cells 65 tree4
           [mkCoordinate 2 2; mkCoordinate 9 9; mkCoordinate 2 2]).
  - exact tree4_fresh.
  - repeat constructor; apply valid_coord_intro; reflexivity.
  - lia.
Defined.

(** X16 (a failed [SanityCheck] stays failed): when [SanityCheck] does
    not pass on a reachable tree, it stops at line 426 after any further
    insertions as well; only [Reset] makes it pass again. *)
Theorem SanityCheck_failure_persists fuel q points :
  reachable q -> Forall valid_coord points -> (65 <= fuel)%nat ->
  SanityCheck fuel q <> Ok tt ->
  exists rs q',
    Insert_all fuel q points = Ok (rs, q') /\
    SanityCheck fuel q' = AssertFail 426.
Proof.
  intros Hq Hv Hfuel Hfail. destruct (reachable_inv q Hq) as [t Ht].
  pose proof (inv_wf _ _ Ht) as Hwf.
  rewrite (SanityCheck_level fuel q t Ht Hfuel) in Hfail.
  destruct (level_ok 64 t) eqn:Hl; [contradiction|].
  destruct (Insert_all_spec fuel points q t Ht Hv ltac:(lia)) as (q' & E & Hinv' & _).
  eexists. exists q'. split; [exact E|].
  rewrite (SanityCheck_level fuel q' _ Hinv' Hfuel).
  rewrite (t_insert_all_level_false points t Hwf Hv Hl). reflexivity.
Qed.

Lemma SanityCheck_failure_persists_witness :
  exists rs q',
    Insert_all 65 tree4_unit [mkCoordinate 100 100; mkCoordinate 2 2] = Ok (rs, q') /\
    SanityCheck 65 q' = AssertFail 426.
Proof.
  apply (SanityCheck_failure_persists 65 tree4_unit
           [mkCoordinate 100 100; mkCoordinate 2 2]).
  - exact tree4_unit_reachable.
  - repeat constructor; apply valid_coord_intro; reflexivity.
  - lia.
  - vm_compute. discriminate.
Defined.

(** X17 (the order of insertion does not matter to [SanityCheck]): after
    construction or [Reset], two sequences with the same coordinates, in
    any order and with any repetitions, leave trees on which
    [SanityCheck] has the same outcome. *)
Theorem SanityCheck_order_independent fuel q1 q2 points1 points2 :
  fresh q1 -> fresh q2 ->
  Forall valid_coord points1 -> Forall valid_coord points2 ->
  (forall p, In p points1 <-> In p points2) -> (65 <= fuel)%nat ->
  exists rs1 q1' rs2 q2',
    Insert_all fuel q1 points1 = Ok (rs1, q1') /\
    Insert_all fuel q2 points2 = Ok (rs2, q2') /\
    SanityCheck fuel q1' = SanityCheck fuel q2'.
Proof.
  intros H1 H2 Hv1 Hv2 Hsame Hfuel.
  destruct (round_spec fuel q1 points1 H1 Hv1 Hfuel) as (rs1 & q1' & E1 & _ & S1).
  destruct (round_spec fuel q2 points2 H2 Hv2 Hfuel) as (rs2 & q2' & E2 & _ & S2).
  exists rs1, q1', rs2, q2'. split; [exact E1|]. split; [exact E2|].
  rewrite S1, S2.
  replace (cells_ok [] points2) with (cells_ok [] points1); [reflexivity|].
  apply eq_true_iff_eq. rewrite !cells_ok_distinct.
  split; apply cells_distinct_subset; intros a Ha; apply Hsame; exact Ha.
Qed.

Lemma SanityCheck_order_independent_witness :
  exists rs1 q1' rs2 q2',
    Insert_all 65 tree4 [mkCoordinate 2 2; mkCoordinate 3 3; mkCoordinate 2 2]
      = Ok (rs1, q1') /\
    Insert_all 65 tree4_recycled [mkCoordinate 3 3; mkCoordinate 2 2]
      = Ok (rs2, q2') /\
    SanityCheck 65 q1' = SanityCheck 65 q2'.
Proof.
  apply (SanityCheck_order_independent 65 tree4 tree4_recycled
           [mkCoordinate 2 2; mkCoordinate 3 3; mkCoordinate 2 2]
           [mkCoordinate 3 3; mkCoordinate 2 2]).
  - exact tree4_fresh.
  - apply (fresh_reset tree4_two tree4_recycled).
    + exact tree4_two_reachable.
    + vm_compute. reflexivity.
  - repeat constructor; apply valid_coord_intro; reflexivity.
  - repeat constructor; apply valid_coord_intro; reflexivity.
  - intros p. simpl. tauto.
  - lia.
Defined.

(** ** [CNode::Find], [CNode::ContainingSubRegion] and [CNode::Split] *)

(** X18 (the node [CNode::Find] returns): on a reachable tree the descent
    from the root ends, after at most 64 steps, in a node without
    children whose bounds are a square that contains the point; the node
    is a leaf or an empty region, and the result is [Success] exactly
    when it is a leaf that holds the point. *)
Theorem CNode_Find_contract fuel q point :
  reachable q -> valid_coord point -> (64 <= fuel)%nat ->
  exists r found n k,
    CNode_Find fuel (m_pages q) (m_pTreeRoot q) point = Ok (r, Some found) /\
    m_pages q !! found = Some n /\
    m_pNorthWest n = None /\ m_pNorthEast n = None /\
    m_pSouthEast n = None /\ m_pSouthWest n = None /\
    (k <= 64)%nat /\ sq k (m_regionBounds n) /\
    Contains (m_regionBounds n) point = true /\
    (m_nodeType n = Leaf \/
     m_nodeType n = Region /\ m_point n = CCoordinate_zero) /\
    (r = EFindResult.Success <-> m_nodeType n = Leaf /\ m_point n = point) /\
    (r = EFindResult.Success \/ r = EFindResult.NoEntry).
Proof.
  intros Hq Hv Hfuel.
  destruct (reachable_inv q Hq) as [t (h & r & fp & Hinv & Hroot & Hrep & Hfp & Hwf)].
  pose proof (full_bounds_Contains point Hv) as Hp.
  destruct (descent t (m_pages q) r fp 64 full_bounds point fuel Hrep Hwf sq_full Hp Hfuel)
    as (found & s & k0 & EF & ET & Hin & Hrs & Hts & Hws & Hss & Hk0 & Hcs & _).
  rewrite Hroot.
  destruct s as [b0|b0 e|]; [| |contradiction].
  - inversion Hrs as [a' n0 b' fp' Hn0 Hb Hpt Hty P1 P2 P3 P4 Hfp'| |]; subst.
    exists EFindResult.NoEntry, found, n0, k0. simpl in *.
    repeat (split; [assumption|]).
    split; [right; split; assumption|].
    split; [|right; reflexivity].
    split; [discriminate|]. intros [Hl _]. congruence.
  - inversion Hrs as [|a' n0 b' e' fp' Hn0 Hb Hpt Hty P1 P2 P3 P4 Hfp'|]; subst.
    exists (t_find (TLeaf (m_regionBounds n0) (m_point n0)) point), found, n0, k0.
    simpl in *.
    repeat (split; [assumption|]).
    split; [left; assumption|].
    destruct (coord_eq (m_point n0) point) eqn:Ec.
    + apply coord_eq_true in Ec. split; [|left; reflexivity]. split; auto.
    + apply coord_eq_false in Ec. split; [|right; reflexivity].
      split; [discriminate|]. intros [_ He]. contradiction.
Qed.

Lemma CNode_Find_contract_witness :
  exists r found n k,
    CNode_Find 64 (m_pages tree4_two) (m_pTreeRoot tree4_two) (mkCoordinate 1 1)
      = Ok (r, Some found) /\
    m_pages tree4_two !! found = Some n /\
    m_pNorthWest n = None /\ m_pNorthEast n = None /\
    m_pSouthEast n = None /\ m_pSouthWest n = None /\
    (k <= 64)%nat /\ sq k (m_regionBounds n) /\
    Contains (m_regionBounds n) (mkCoordinate 1 1) = true /\
    (m_nodeType n = Leaf \/
     m_nodeType n = Region /\ m_point n = CCoordinate_zero) /\
    (r = EFindResult.Success <->
     m_nodeType n = Leaf /\ m_point n = mkCoordinate 1 1) /\
    (r = EFindResult.Success \/ r = EFindResult.NoEntry).
Proof.
  apply (CNode_Find_contract 64 tree4_two (mkCoordinate 1 1)).
  - exact tree4_two_reachable.
  - apply valid_coord_intro. reflexivity.
  - lia.
Defined.

(** X19 ([ContainingSubRegion] is one step of [Find]): in any store, when
    [ContainingSubRegion] returns a child for a point, the node and the
    child contain the point, the child is one of the four children of the
    node, and [CNode::Find] from the node goes on from that child. *)
Theorem ContainingSubRegion_Find_step mem this point c fuel :
  ContainingSubRegion mem this point = Ok (Some c) ->
  (exists self child,
     deref mem this = Ok self /\ mem !! c = Some child /\
     Contains (m_regionBounds self) point = true /\
     Contains (m_regionBounds child) point = true /\
     (m_pNorthWest self = Some c \/ m_pNorthEast self = Some c \/
      m_pSouthEast self = Some c \/ m_pSouthWest self = Some c)) /\
  CNode_Find (S fuel) mem this point = CNode_Find fuel mem (Some c) point.
Proof.
  intros H. unfold ContainingSubRegion in H. cbn [CNode_Find].
  destruct (deref mem this) as [self| | |]; simpl in H |- *; try discriminate.
  destruct (Contains (m_regionBounds self) point) eqn:Cs; simpl in H; [|discriminate].
  destruct (negb (is_null (m_pNorthWest self))) eqn:Nnw; simpl in H |- *;
    [|discriminate].
  destruct (EType_eqb (m_nodeType self) Region); simpl in H; [|discriminate].
  destruct (negb (is_null (m_pNorthEast self))); simpl in H |- *; [|discriminate].
  destruct (negb (is_null (m_pSouthEast self))); simpl in H |- *; [|discriminate].
  destruct (negb (is_null (m_pSouthWest self))); simpl in H |- *; [|discriminate].
  assert (Hd : forall p n, deref mem p = Ok n -> p = Some c -> mem !! c = Some n).
  { intros p n Hn ->. simpl in Hn. destruct (mem !! c); [|discriminate].
    injection Hn as ->. reflexivity. }
  destruct (deref mem (m_pNorthWest self)) as [nw| | |] eqn:D1; simpl in H |- *;
    try discriminate.
  destruct (Contains (m_regionBounds nw) point) eqn:C1.
  { injection H as H. rewrite H. split; [|reflexivity].
    exists self, nw. repeat split; eauto 8. }
  destruct (deref mem (m_pNorthEast self)) as [ne| | |] eqn:D2; simpl in H |- *;
    try discriminate.
  destruct (Contains (m_regionBounds ne) point) eqn:C2.
  { injection H as H. rewrite H. split; [|reflexivity].
    exists self, ne. repeat split; eauto 8. }
  destruct (deref mem (m_pSouthEast self)) as [se| | |] eqn:D3; simpl in H |- *;
    try discriminate.
  destruct (Contains (m_regionBounds se) point) eqn:C3.
  { injection H as H. rewrite H. split; [|reflexivity].
    exists self, se. repeat split; eauto 8. }
  destruct (deref mem (m_pSouthWest self)) as [sw| | |] eqn:D4; simpl in H |- *;
    try discriminate.
  destruct (Contains (m_regionBounds sw) point) eqn:C4; simpl in H |- *;
    [|discriminate].
  injection H as H. rewrite H. split; [|reflexivity].
  exists self, sw. repeat split; eauto 8.
Qed.

Lemma ContainingSubRegion_Find_step_witness :
  (exists self child,
     deref (m_pages tree4_two) (Some 0%nat) = Ok self /\
     m_pages tree4_two !! 1%nat = Some child /\
     Contains (m_regionBounds self) (mkCoordinate 1 1) = true /\
     Contains (m_regionBounds child) (mkCoordinate 1 1) = true /\
     (m_pNorthWest self = Some 1%nat \/ m_pNorthEast self = Some 1%nat \/
      m_pSouthEast self = Some 1%nat \/ m_pSouthWest self = Some 1%nat)) /\
  CNode_Find 64 (m_pages tree4_two) (Some 0%nat) (mkCoordinate 1 1)
    = CNode_Find 63 (m_pages tree4_two) (Some 1%nat) (mkCoordinate 1 1).
Proof.
  apply (ContainingSubRegion_Find_step (m_pages tree4_two) (Some 0%nat)
           (mkCoordinate 1 1) 1 63).
  vm_compute. reflexivity.
Defined.

Opaque SplitBounds.

(** [Split] on a node of any bounds. *)
Lemma CNode_Split_general q h a nd :
  pool_inv q h -> (a < h)%nat -> m_pages q !! a = Some nd ->
  m_pNorthWest nd = None -> m_pNorthEast nd = None ->
  m_pSouthEast nd = None -> m_pSouthWest nd = None ->
  exists q',
    CNode_Split q (Some a) = Ok q' /\
    pool_inv q' (S (S (S (S h)))) /\
    m_pages q' !! a = Some (split_node nd h) /\
    (let '(bnw, bne, bse, bsw) := SplitBounds (m_regionBounds nd) in
     m_pages q' !! h = Some (region_node bnw h) /\
     m_pages q' !! S h = Some (region_node bne (S h)) /\
     m_pages q' !! S (S h) = Some (region_node bse (S (S h))) /\
     m_pages q' !! S (S (S h)) = Some (region_node bsw (S (S (S h))))) /\
    (forall i, (i < h)%nat -> i <> a -> m_pages q' !! i = m_pages q !! i) /\
    m_pTreeRoot q' = m_pTreeRoot q /\ m_pageSize q' = m_pageSize q.
Proof.
  intros Hinv Hah Ha C1 C2 C3 C4.
  unfold CNode_Split. simpl. rewrite Ha. simpl. rewrite C1, C2, C3, C4. simpl.
  destruct (SplitBounds (m_regionBounds nd)) as [[[bnw bne] bse] bsw].
  cbv beta iota.
  destruct (AllocateRegionNode_spec q h bnw Hinv)
    as (q1 & E1 & Hinv1 & N1 & F1 & R1 & P1).
  rewrite E1. simpl.
  destruct (AllocateRegionNode_spec q1 _ bne Hinv1)
    as (q2 & E2 & Hinv2 & N2 & F2 & R2 & P2).
  rewrite E2. simpl.
  destruct (AllocateRegionNode_spec q2 _ bse Hinv2)
    as (q3 & E3 & Hinv3 & N3 & F3 & R3 & P3).
  rewrite E3. simpl.
  destruct (AllocateRegionNode_spec q3 _ bsw Hinv3)
    as (q4 & E4 & Hinv4 & N4 & F4 & R4 & P4).
  rewrite E4. simpl.
  assert (Ha4 : m_pages q4 !! a = Some nd).
  { rewrite F4, F3, F2, F1 by lia. exact Ha. }
  rewrite Ha4. simpl.
  assert (La : (a < length (m_pages q4))%nat) by (eapply lookup_lt_Some; eauto).
  eexists. split; [reflexivity|].
  split; [eapply pool_inv_update; eauto|]. simpl.
  split; [apply list_lookup_insert_eq; exact La|].
  split; [|split; [|split; congruence]].
  - rewrite !list_lookup_insert_ne by lia.
    split; [rewrite F4, F3, F2 by lia; exact N1|].
    split; [rewrite F4, F3 by lia; exact N2|].
    split; [rewrite F4 by lia; exact N3|exact N4].
  - intros i Hi Hne. rewrite list_lookup_insert_ne by congruence.
    rewrite F4, F3, F2, F1 by lia. reflexivity.
Qed.

Transparent SplitBounds.

(** X20 ([Split] of the node the descent found): on a reachable tree,
    [Split] of the node [CNode::Find] returned takes the next four slots
    of the pool for the children, in the order north-west, north-east,
    south-east, south-west, as empty regions with the four bounds of the
    split; the node becomes a region without a point and keeps its
    bounds, and no other node of the tree changes. *)
Theorem Split_of_found_node fuel q point r found nd :
  reachable q -> valid_coord point -> (64 <= fuel)%nat ->
  CNode_Find fuel (m_pages q) (m_pTreeRoot q) point = Ok (r, Some found) ->
  m_pages q !! found = Some nd ->
  exists h q',
    m_pPoolHead q = Some h /\ (found < h)%nat /\
    CNode_Split q (Some found) = Ok q' /\
    m_pPoolHead q' = Some (S (S (S (S h)))) /\
    m_pages q' !! found =
      Some (mkNode (m_regionBounds nd) CCoordinate_zero
              (Some h) (Some (S h)) (Some (S (S h))) (Some (S (S (S h))))
              Region (pPoolNext nd)) /\
    (let '(bnw, bne, bse, bsw) := SplitBounds (m_regionBounds nd) in
     m_pages q' !! h =
       Some (mkNode bnw CCoordinate_zero None None None None Region (Some (S h))) /\
     m_pages q' !! S h =
       Some (mkNode bne CCoordinate_zero None None None None Region
               (Some (S (S h)))) /\
     m_pages q' !! S (S h) =
       Some (mkNode bse CCoordinate_zero None None None None Region
               (Some (S (S (S h))))) /\
     m_pages q' !! S (S (S h)) =
       Some (mkNode bsw CCoordinate_zero None None None None Region
               (Some (S (S (S (S h))))))) /\
    (forall i, (i < h)%nat -> i <> found -> m_pages q' !! i = m_pages q !! i).
Proof.
  intros Hq Hv Hfuel HF Hnd.
  destruct (reachable_inv q Hq) as [t (h & r0 & fp & Hinv & Hroot & Hrep & Hfp & Hwf)].
  pose proof (full_bounds_Contains point Hv) as Hp.
  destruct (descent t (m_pages q) r0 fp 64 full_bounds point fuel Hrep Hwf sq_full Hp Hfuel)
    as (found' & s & k0 & EF & ET & Hin & Hrs & Hts & _).
  rewrite Hroot, EF in HF. injection HF as _ <-.
  assert (Hch : m_pNorthWest nd = None /\ m_pNorthEast nd = None /\
                m_pSouthEast nd = None /\ m_pSouthWest nd = None).
  { destruct s as [b0|b0 e|]; [| |contradiction].
    - inversion Hrs as [a' n0 b' fp' Hn0 Hb Hpt Hty P1 P2 P3 P4 Hfp'| |]; subst.
      rewrite Hnd in Hn0. injection Hn0 as <-. auto.
    - inversion Hrs as [|a' n0 b' e' fp' Hn0 Hb Hpt Hty P1 P2 P3 P4 Hfp'|]; subst.
      rewrite Hnd in Hn0. injection Hn0 as <-. auto. }
  destruct Hch as (C1 & C2 & C3 & C4).
  destruct (CNode_Split_general q h found' nd Hinv (Hfp _ Hin) Hnd C1 C2 C3 C4)
    as (q' & E & Hinv' & Na & Nc & Fr & _).
  pose proof Hinv as (_ & _ & Hh & _). pose proof Hinv' as (_ & _ & Hh' & _).
  exists h, q'. split; [exact Hh|]. split; [exact (Hfp _ Hin)|].
  split; [exact E|]. split; [exact Hh'|].
  split; [rewrite Na; reflexivity|].
  split; [exact Nc|exact Fr].
Qed.

Lemma Split_of_found_node_witness :
  exists h q',
    m_pPoolHead tree4_origin = Some h /\ (0 < h)%nat /\
    CNode_Split tree4_origin (Some 0%nat) = Ok q' /\
    m_pPoolHead q' = Some (S (S (S (S h)))) /\
    m_pages q' !! 0%nat =
      Some (mkNode (m_regionBounds leaf_origin) CCoordinate_zero
              (Some h) (Some (S h)) (Some (S (S h))) (Some (S (S (S h))))
              Region (pPoolNext leaf_origin)) /\
    (let '(bnw, bne, bse, bsw) := SplitBounds (m_regionBounds leaf_origin) in
     m_pages q' !! h =
       Some (mkNode bnw CCoordinate_zero None None None None Region (Some (S h))) /\
     m_pages q' !! S h =
       Some (mkNode bne CCoordinate_zero None None None None Region
               (Some (S (S h)))) /\
     m_pages q' !! S (S h) =
       Some (mkNode bse CCoordinate_zero None None None None Region
               (Some (S (S (S h))))) /\
     m_pages q' !! S (S (S h)) =
       Some (mkNode bsw CCoordinate_zero None None None None Region
               (Some (S (S (S (S h))))))) /\
    (forall i, (i < h)%nat -> i <> 0%nat ->
       m_pages q' !! i = m_pages tree4_origin !! i).
Proof.
  apply (Split_of_found_node 64 tree4_origin (mkCoordinate 0 1)
           EFindResult.NoEntry 0 leaf_origin).
  - exact tree4_origin_reachable.
  - apply valid_coord_intro. reflexivity.
  - lia.
  - vm_compute. reflexivity.
  - reflexivity.
Defined.

(** ** [Split] of a single cell, and the operators *)

(** X21 ([Split] of a single cell): the code does not keep [Split] from
    bounds that hold one coordinate.  Away from the upper end of the
    scalar range the north-west child is then the cell itself and the
    other three children contain no coordinate at all. *)
Theorem SplitBounds_unit_cell p :
  valid_coord p -> x p < TScalar_max -> y p < TScalar_max ->
  let '(nw, ne, se, sw) := SplitBounds (mkBounds p p) in
  nw = mkBounds p p /\
  (forall c, Contains ne c = false) /\
  (forall c, Contains se c = false) /\
  (forall c, Contains sw c = false).
Proof.
  intros [Hx Hy] Mx My. unfold in_range, TScalar_max in *.
  rewrite TScalar_modulus_eq in *.
  destruct p as [px py]. simpl in *.
  unfold SplitBounds, coord_add, coord_sub, coord_div, wrap. simpl.
  rewrite TScalar_modulus_eq, !Z.sub_diag.
  change (0 mod 18446744073709551616 / 2) with 0.
  rewrite !Z.add_0_r, !(Z.mod_small px), !(Z.mod_small py) by lia.
  rewrite !(Z.mod_small (px + 1)), !(Z.mod_small (py + 1)) by lia.
  split; [reflexivity|].
  repeat split; intros c; apply Contains_false; simpl; lia.
Qed.

Lemma SplitBounds_unit_cell_witness :
  let '(nw, ne, se, sw) :=
    SplitBounds (mkBounds (mkCoordinate 5 7) (mkCoordinate 5 7)) in
  nw = mkBounds (mkCoordinate 5 7) (mkCoordinate 5 7) /\
  (forall c, Contains ne c = false) /\
  (forall c, Contains se c = false) /\
  (forall c, Contains sw c = false).
Proof.
  apply (SplitBounds_unit_cell (mkCoordinate 5 7)).
  - apply valid_coord_intro. reflexivity.
  - reflexivity.
  - reflexivity.
Defined.

(** At the upper end the sum wraps around: the south-east child of the
    last cell is the whole range. *)
Example SplitBounds_last_cell_wraps :
  let p := mkCoordinate TScalar_max TScalar_max in
  let '(nw, ne, se, sw) := SplitBounds (mkBounds p p) in
  se = full_bounds.
Proof. vm_compute. reflexivity. Qed.

(** X22 (the operators agree): [operator!=] is the negation of
    [operator==], for coordinates and for bounds, and [operator==] holds
    exactly for equal values. *)
Theorem operators_agree (a b : CCoordinate) (c d : CBounds) :
  coord_ne a b = negb (coord_eq a b) /\
  bounds_ne c d = negb (bounds_eq c d) /\
  (coord_eq a b = true <-> a = b) /\
  (bounds_eq c d = true <-> c = d).
Proof.
  assert (Hn : forall u v, coord_ne u v = negb (coord_eq u v)).
  { intros u v. unfold coord_ne, coord_eq.
    destruct (x u =? x v), (y u =? y v); reflexivity. }
  split; [apply Hn|]. split.
  - unfold bounds_ne, bounds_eq. rewrite !Hn.
    destruct (coord_eq (min c) (min d)), (coord_eq (max c) (max d)); reflexivity.
  - split; [apply coord_eq_true|].
    unfold bounds_eq. rewrite andb_true_iff, !coord_eq_true.
    destruct c, d; simpl. split; [intros [-> ->]; reflexivity|].
    intros H. injection H as -> ->. auto.
Qed.

(** X23 (subtraction and addition): for coordinates in the range of the
    scalar, adding the difference [b - a] to [a] gives [b], also when the
    subtraction wraps around. *)
Theorem coord_add_sub a b :
  valid_coord a -> valid_coord b -> coord_add a (coord_sub b a) = b.
Proof.
  intros [Hax Hay] [Hbx Hby]. unfold in_range in *.
  destruct a as [ax ay], b as [bx by']. simpl in *.
  unfold coord_add, coord_sub, wrap. simpl.
  rewrite !Zplus_mod_idemp_r.
  replace (ax + (bx - ax)) with bx by lia.
  replace (ay + (by' - ay)) with by' by lia.
  rewrite !Z.mod_small by assumption. reflexivity.
Qed.

Lemma coord_add_sub_witness :
  coord_add (mkCoordinate 9 (2 ^ 64 - 1))
    (coord_sub (mkCoordinate 3 0) (mkCoordinate 9 (2 ^ 64 - 1)))
  = mkCoordinate 3 0.
Proof.
  apply (coord_add_sub (mkCoordinate 9 (2 ^ 64 - 1)) (mkCoordinate 3 0)).
  - apply valid_coord_intro. reflexivity.
  - apply valid_coord_intro. reflexivity.
Defined.

(** ** The test driver *)

Lemma main_inserts_Insert_all fuel draw count : forall q next,
  main_inserts fuel draw q next count =
  ('(_, q') ← Insert_all fuel q (map draw (seq next count)); Ok q').
Proof.
  induction count as [|count IH]; intros q next; simpl; [reflexivity|].
  destruct (Insert fuel q (draw next)) as [[r q1]| | |]; simpl; try reflexivity.
  rewrite IH.
  destruct (Insert_all fuel q1 (map draw (seq (S next) count))) as [[rs q2]| | |];
    reflexivity.
Qed.

Lemma main_rounds_spec fuel draw rounds : forall i q,
  (forall n, valid_coord (draw n)) -> (65 <= fuel)%nat -> reachable q ->
  if forallb (fun j => cells_ok [] (round_points draw j)) (seq i rounds)
  then exists q', main_rounds fuel draw q (round_start i) i rounds = Ok q'
  else main_rounds fuel draw q (round_start i) i rounds = AssertFail 426.
Proof.
  induction rounds as [|rounds IH]; intros i q Hv Hfuel Hq.
  - simpl. eauto.
  - cbn [seq forallb main_rounds].
    destruct (reachable_inv q Hq) as [t Ht].
    destruct (inv_pool q t Ht) as [h Hp].
    destruct (Reset_spec q h Hp) as (q1 & E1 & _).
    rewrite E1. simpl.
    assert (Hvl : Forall valid_coord (round_points draw i)).
    { apply List.Forall_forall. intros p Hin. unfold round_points in Hin.
      apply in_map_iff in Hin as (n & <- & _). apply Hv. }
    destruct (round_spec fuel q1 (round_points draw i)
                (fresh_reset q q1 Hq E1) Hvl Hfuel) as (rs & q2 & E2 & Hq2 & HS).
    rewrite main_inserts_Insert_all.
    fold (round_points draw i). rewrite E2. simpl. rewrite HS.
    destruct (cells_ok [] (round_points draw i)); simpl; [|reflexivity].
    exact (IH (S i) q2 Hv Hfuel Hq2).
Qed.

Lemma main_unfold fuel draw pageSize rounds :
  pageSize = Z.to_nat 32768 -> rounds = Z.to_nat 8191 ->
  main fuel draw =
  (quadTree ← CQuadTree_new pageSize;
   _ ← main_rounds fuel draw quadTree 0 1 rounds;
   Ok 0).
Proof. intros -> ->. reflexivity. Qed.

(** X24 ([main]): whatever valid coordinates the generator yields, the
    test driver returns 0 exactly when in none of its 8191 rounds two
    different coordinates of the round lie in the same 2 x 2 cell, and
    stops at the assertion of line 426 otherwise; it stops nowhere else. *)
Theorem main_returns fuel draw :
  (forall n, valid_coord (draw n)) -> (65 <= fuel)%nat ->
  (main fuel draw = Ok 0 <->
   forall i, 1 <= Z.of_nat i <= 8191 -> cells_distinct (round_points draw i)) /\
  (main fuel draw = Ok 0 \/ main fuel draw = AssertFail 426).
Proof.
  intros Hv Hfuel.
  remember (Z.to_nat 32768) as pageSize eqn:Hps.
  remember (Z.to_nat 8191) as rounds eqn:Hr.
  rewrite (main_unfold fuel draw pageSize rounds Hps Hr).
  destruct (CQuadTree_new_spec pageSize ltac:(lia)) as (q & E & _).
  rewrite E. simpl.
  pose proof (main_rounds_spec fuel draw rounds 1 q Hv Hfuel
                (reach_new pageSize q E)) as H.
  change (round_start 1) with 0%nat in H.
  destruct (forallb _ (seq 1 rounds)) eqn:Hall.
  - destruct H as [q' ->]. simpl. split; [|left; reflexivity].
    split; [|reflexivity]. intros _ i Hi.
    rewrite forallb_forall in Hall. apply cells_ok_distinct. apply Hall.
    apply in_seq. lia.
  - rewrite H. simpl. split; [|right; reflexivity].
    split; [discriminate|]. intros Hd. exfalso.
    assert (Ht : forallb (fun j => cells_ok [] (round_points draw j)) (seq 1 rounds)
                 = true).
    { apply forallb_forall. intros i Hi. apply in_seq in Hi.
      apply cells_ok_distinct. apply Hd. lia. }
    congruence.
Qed.

Lemma main_returns_witness :
  (main 65 spread_draw = Ok 0 <->
   forall i, 1 <= Z.of_nat i <= 8191 ->
     cells_distinct (round_points spread_draw i)) /\
  (main 65 spread_draw = Ok 0 \/ main 65 spread_draw = AssertFail 426).
Proof.
  apply (main_returns 65 spread_draw).
  - intros n. split; simpl.
    + apply Z.mod_pos_bound. reflexivity.
    + split; [lia|reflexivity].
  - lia.
Defined.
